(** * gramtools: vBWT backward search, PRG masks, kmer enumeration and
      allele base coverage

    A shallow embedding of the parts of libgramtools that the specification
    talks about, followed by the properties established for them.

    Conventions of the embedding.
    - [uint64_t] and [uint32_t] values are integers of [Z]; every C++
      operation that can wrap is followed by [wrap64] or [wrap32].
    - [sdsl::int_vector<>], [std::vector] and [std::list] are lists.  Reading
      a vector with [operator[]] is [vec_at]; an index past the end is
      undefined behaviour in C++ and reads [0] here.
    - [sdsl::bit_vector] is a list of booleans, [rank_support_v<1>] counts
      the set bits strictly before an index.
    - hash maps ([PairHashMap], [std::unordered_map]) are [gmap]s. *)

From Stdlib Require Import ZArith List Lia Bool Permutation Ascii String.
From stdpp Require Import gmap list sorting.
Import ListNotations.

Local Open Scope Z_scope.
Local Open Scope list_scope.

(** ** Machine integers *)

Definition wrap64 (x : Z) : Z := x mod 2 ^ 64.
Definition wrap32 (x : Z) : Z := x mod 2 ^ 32.
Definition UINT64_MAX : Z := 2 ^ 64 - 1.
Definition UINT16_MAX : Z := 65535.

(** The conversion of a [uint32_t] to [int] (two's complement). *)
Definition int_of_uint32 (x : Z) : Z :=
  if x <? 2 ^ 31 then x else x - 2 ^ 32.

(** ** Vectors *)

Definition vec_at (v : list Z) (i : Z) : Z := nth (Z.to_nat i) v 0.

Definition bit_at (v : list bool) (i : Z) : bool := nth (Z.to_nat i) v false.

(** [rank_support_v<1>(&mask)(i)]: number of set bits in [mask[0..i)]. *)
Definition rank_support_v (mask : list bool) (i : Z) : Z :=
  Z.of_nat (length (filter (fun b => b = true) (firstn (Z.to_nat i) mask))).

(** [select_support_mcl<1>(&mask)(k)]: position of the [k]-th set bit,
    counting from one.  The scan starts at position [pos]; a [k] with no
    such bit is undefined in sdsl and gives [0] here. *)
Fixpoint select_from (mask : list bool) (pos : Z) (k : nat) : Z :=
  match mask with
  | [] => 0
  | b :: rest =>
      if b then
        match k with
        | O => 0
        | S O => pos
        | S k' => select_from rest (pos + 1) k'
        end
      else select_from rest (pos + 1) k
  end.

Definition select_support_mcl (mask : list bool) (k : Z) : Z :=
  select_from mask 0 (Z.to_nat k).

(** The rows [lo, lo+1, ..., hi] visited by
    [for (i = lo; i <= hi; ++i)]; empty when [lo > hi].  Over [uint64_t]
    the C++ loop coincides with this list whenever [hi < UINT64_MAX]. *)
Definition sa_range (lo hi : Z) : list Z :=
  map (fun k => lo + Z.of_nat k) (seq 0 (Z.to_nat (hi - lo + 1))).

(** ** FM-index and PRG information *)

(** The fields of sdsl's [csa_wt] that the code reads: [sa] is
    [fm_index[i]], the suffix array. *)
Record FM_Index := {
  sa : list Z;
  bwt : list Z;
  C : list Z;
  char2comp : list Z;
  comp2char : list Z;
  sigma : Z
}.

Definition fm_size (fm : FM_Index) : Z := Z.of_nat (length (sa fm)).

(** [fm_index.bwt.rank(i, c)]: occurrences of [c] in [bwt[0..i)]. *)
Definition bwt_rank (fm : FM_Index) (i c : Z) : Z :=
  Z.of_nat (length (filter (fun x => x = c) (firstn (Z.to_nat i) (bwt fm)))).

Record DNA_BWT_Masks := {
  mask_a : list bool;
  mask_c : list bool;
  mask_g : list bool;
  mask_t : list bool
}.

Record PRG_Info := {
  fm_index : FM_Index;
  encoded_prg : list Z;
  sites_mask : list Z;
  allele_mask : list Z;
  prg_markers_mask : list bool;
  bwt_markers_mask : list bool;
  dna_bwt_masks : DNA_BWT_Masks
}.

Definition rank_bwt_a (p : PRG_Info) := rank_support_v (mask_a (dna_bwt_masks p)).
Definition rank_bwt_c (p : PRG_Info) := rank_support_v (mask_c (dna_bwt_masks p)).
Definition rank_bwt_g (p : PRG_Info) := rank_support_v (mask_g (dna_bwt_masks p)).
Definition rank_bwt_t (p : PRG_Info) := rank_support_v (mask_t (dna_bwt_masks p)).
Definition prg_markers_rank (p : PRG_Info) := rank_support_v (prg_markers_mask p).
Definition prg_markers_select (p : PRG_Info) := select_support_mcl (prg_markers_mask p).

(** Modelled from the spec: the construction of [dna_bwt_masks]
    ([load_dna_bwt_masks] is defined outside the files covered here).  The spec
    describes them as four bit-vectors, one per DNA base, marking the
    occurrences of that base in the BWT. *)
Definition generate_dna_bwt_masks (fm : FM_Index) : DNA_BWT_Masks :=
  {| mask_a := map (fun x => bool_decide (x = 1)) (bwt fm);
     mask_c := map (fun x => bool_decide (x = 2)) (bwt fm);
     mask_g := map (fun x => bool_decide (x = 3)) (bwt fm);
     mask_t := map (fun x => bool_decide (x = 4)) (bwt fm) |}.

(** [generate_bwt_markers_mask] (masks.cpp). *)
Definition generate_bwt_markers_mask (fm : FM_Index) : list bool :=
  map (fun x => 4 <? x) (bwt fm).

(** [generate_prg_markers_mask] (masks.cpp). *)
Definition generate_prg_markers_mask (encoded_prg : list Z) : list bool :=
  map (fun x => 4 <? x) encoded_prg.

(** ** Search states *)

Inductive SearchVariantSiteState :=
| within_variant_site
| outside_variant_site
| unknown.

Definition VariantLocus : Type := Z * Z.
Definition VariantSitePath : Type := list VariantLocus.
Definition SA_Interval : Type := Z * Z.

Record SearchState := {
  sa_interval : SA_Interval;
  variant_site_path : VariantSitePath;
  variant_site_state : SearchVariantSiteState;
  invalid : bool
}.

Definition SearchStates : Type := list SearchState.

(** A value-initialised [SearchState]. *)
Definition empty_search_state : SearchState :=
  {| sa_interval := (0, 0);
     variant_site_path := [];
     variant_site_state := unknown;
     invalid := false |}.

Definition set_sa_interval (s : SearchState) (i : SA_Interval) : SearchState :=
  {| sa_interval := i;
     variant_site_path := variant_site_path s;
     variant_site_state := variant_site_state s;
     invalid := invalid s |}.

Definition set_invalid (s : SearchState) (b : bool) : SearchState :=
  {| sa_interval := sa_interval s;
     variant_site_path := variant_site_path s;
     variant_site_state := variant_site_state s;
     invalid := b |}.

(** ** Phase B: backward extension by a DNA base (search.cpp, prg.cpp) *)

Definition dna_bwt_rank (upper_index dna_base : Z) (prg_info : PRG_Info) : Z :=
  if dna_base =? 1 then rank_bwt_a prg_info upper_index
  else if dna_base =? 2 then rank_bwt_c prg_info upper_index
  else if dna_base =? 3 then rank_bwt_g prg_info upper_index
  else if dna_base =? 4 then rank_bwt_t prg_info upper_index
  else 0.

Definition base_next_sa_interval (next_char next_char_first_sa_index : Z)
    (current_sa_interval : SA_Interval) (prg_info : PRG_Info) : SA_Interval :=
  let current_sa_start := fst current_sa_interval in
  let current_sa_end := snd current_sa_interval in
  let sa_start_offset :=
    if current_sa_start <=? 0 then 0
    else if 4 <? next_char
         then bwt_rank (fm_index prg_info) current_sa_start next_char
         else dna_bwt_rank current_sa_start next_char prg_info in
  let sa_end_offset :=
    if 4 <? next_char
    then bwt_rank (fm_index prg_info) (wrap64 (current_sa_end + 1)) next_char
    else dna_bwt_rank (wrap64 (current_sa_end + 1)) next_char prg_info in
  let new_start := wrap64 (next_char_first_sa_index + sa_start_offset) in
  let new_end := wrap64 (next_char_first_sa_index + sa_end_offset - 1) in
  (new_start, new_end).

Definition search_fm_index_base_backwards (pattern_char char_first_sa_index : Z)
    (search_state : SearchState) (prg_info : PRG_Info) : SearchState :=
  let next_sa_interval :=
    base_next_sa_interval pattern_char char_first_sa_index
                          (sa_interval search_state) prg_info in
  let valid_sa_interval :=
    negb (wrap64 (fst next_sa_interval - 1) =? snd next_sa_interval) in
  if negb valid_sa_interval
  then set_invalid empty_search_state true
  else set_sa_interval search_state next_sa_interval.

Definition search_base_backwards (pattern_char : Z) (search_states : SearchStates)
    (prg_info : PRG_Info) : SearchStates :=
  let char_alphabet_rank := vec_at (char2comp (fm_index prg_info)) pattern_char in
  let char_first_sa_index := vec_at (C (fm_index prg_info)) char_alphabet_rank in
  fold_left
    (fun new_search_states search_state =>
       let new_search_state :=
         search_fm_index_base_backwards pattern_char char_first_sa_index
                                        search_state prg_info in
       if invalid new_search_state then new_search_states
       else new_search_states ++ [new_search_state])
    search_states [].

(** ** Phase A: variant markers in the BWT (search.cpp)

    [Marker] and [AlleleId] are taken to be [uint64_t]; the [assert]s of the
    source are compiled out ([NDEBUG]). *)

Definition site_state_eqb (a b : SearchVariantSiteState) : bool :=
  match a, b with
  | within_variant_site, within_variant_site => true
  | outside_variant_site, outside_variant_site => true
  | unknown, unknown => true
  | _, _ => false
  end.

Record SiteBoundaryMarkerInfo := {
  is_start_boundary : bool;
  boundary_sa_interval : SA_Interval;
  marker_char : Z
}.

Definition site_boundary_marker_info (marker_char sa_right_of_marker : Z)
    (prg_info : PRG_Info) : SiteBoundaryMarkerInfo :=
  let fm := fm_index prg_info in
  let alphabet_rank := vec_at (char2comp fm) marker_char in
  let first_sa_index := vec_at (C fm) alphabet_rank in
  let marker_sa_index_offset :=
    if sa_right_of_marker <=? 0 then 0
    else bwt_rank fm sa_right_of_marker marker_char in
  let marker_sa_index := wrap64 (first_sa_index + marker_sa_index_offset) in
  let marker_text_idx := vec_at (sa fm) marker_sa_index in
  let other_marker_text_idx :=
    if marker_sa_index =? first_sa_index
    then vec_at (sa fm) (wrap64 (first_sa_index + 1))
    else vec_at (sa fm) first_sa_index in
  let marker_is_boundary_start := marker_text_idx <=? other_marker_text_idx in
  {| is_start_boundary := marker_is_boundary_start;
     boundary_sa_interval := (marker_sa_index, marker_sa_index);
     marker_char := marker_char |}.

Definition get_allele_marker_sa_interval (site_marker_char : Z)
    (prg_info : PRG_Info) : SA_Interval :=
  let fm := fm_index prg_info in
  let allele_marker_char := wrap64 (site_marker_char + 1) in
  let alphabet_rank := vec_at (char2comp fm) allele_marker_char in
  let start_sa_index := vec_at (C fm) alphabet_rank in
  let next_boundary_marker := wrap64 (allele_marker_char + 1) in
  let max_alphabet_char := vec_at (comp2char fm) (wrap64 (sigma fm - 1)) in
  let next_boundary_marker_valid := next_boundary_marker <? max_alphabet_char in
  let end_sa_index :=
    if next_boundary_marker_valid
    then
      let next_boundary_marker_rank := vec_at (char2comp fm) next_boundary_marker in
      let next_boundary_marker_start_sa_index :=
        vec_at (C fm) next_boundary_marker_rank in
      wrap64 (next_boundary_marker_start_sa_index - 1)
    else wrap64 (fm_size fm - 1) in
  (start_sa_index, end_sa_index).

Definition get_allele_id (allele_marker_sa_index : Z) (prg_info : PRG_Info) : Z :=
  let internal_allele_text_index :=
    wrap64 (vec_at (sa (fm_index prg_info)) allele_marker_sa_index - 1) in
  vec_at (allele_mask prg_info) internal_allele_text_index.

Definition get_allele_search_states (site_boundary_marker : Z)
    (allele_marker_sa_interval : SA_Interval)
    (current_search_state : SearchState) (prg_info : PRG_Info) : SearchStates :=
  let first_sa_interval_index := fst allele_marker_sa_interval in
  let last_sa_interval_index := snd allele_marker_sa_interval in
  fold_left
    (fun search_states allele_marker_sa_index =>
       let allele_number := get_allele_id allele_marker_sa_index prg_info in
       search_states ++
       [ {| sa_interval := (allele_marker_sa_index, allele_marker_sa_index);
            variant_site_path :=
              (site_boundary_marker, allele_number)
                :: variant_site_path current_search_state;
            variant_site_state := within_variant_site;
            invalid := invalid current_search_state |} ])
    (sa_range first_sa_interval_index last_sa_interval_index) [].

Definition get_site_search_state (final_allele_id : Z)
    (boundary_marker_info : SiteBoundaryMarkerInfo)
    (current_search_state : SearchState) : SearchState :=
  {| sa_interval := boundary_sa_interval boundary_marker_info;
     variant_site_path :=
       (marker_char boundary_marker_info, final_allele_id)
         :: variant_site_path current_search_state;
     variant_site_state := within_variant_site;
     invalid := invalid current_search_state |}.

Definition get_number_of_alleles (allele_marker_sa_interval : SA_Interval) : Z :=
  let num_allele_markers :=
    wrap64 (wrap64 (snd allele_marker_sa_interval - fst allele_marker_sa_interval) + 1) in
  wrap64 (num_allele_markers + 1).

Definition entering_site_search_states (boundary_marker_info : SiteBoundaryMarkerInfo)
    (current_search_state : SearchState) (prg_info : PRG_Info) : SearchStates :=
  let allele_marker_sa_interval :=
    get_allele_marker_sa_interval (marker_char boundary_marker_info) prg_info in
  let new_search_states :=
    get_allele_search_states (marker_char boundary_marker_info)
      allele_marker_sa_interval current_search_state prg_info in
  let final_allele_id := get_number_of_alleles allele_marker_sa_interval in
  let site_search_state :=
    get_site_search_state final_allele_id boundary_marker_info current_search_state in
  new_search_states ++ [site_search_state].

Definition exiting_site_search_state (boundary_marker_info : SiteBoundaryMarkerInfo)
    (current_search_state : SearchState) : SearchState :=
  let check_required :=
    negb (site_state_eqb (variant_site_state current_search_state)
                         within_variant_site) in
  let path :=
    if check_required then
      match variant_site_path current_search_state with
      | [] => [(marker_char boundary_marker_info, 1)]
      | _ :: _ => variant_site_path current_search_state
      end
    else variant_site_path current_search_state in
  {| sa_interval := boundary_sa_interval boundary_marker_info;
     variant_site_path := path;
     variant_site_state := outside_variant_site;
     invalid := invalid current_search_state |}.

Definition INT_MAX : Z := 2 ^ 31 - 1.

(** The values of the loop variable of [left_markers_search], in
    [for (int index = sa_interval.first; index <= sa_interval.second; index++)].
    [sa_interval.first] is narrowed to an [int], modulo [2^32].  The test
    compares on [uint64_t], where a negative [index] stands for
    [2^64 + index].  The increment of an [int] at [INT_MAX] is undefined;
    the loop is taken to end there. *)
Definition left_markers_rows (first second : Z) : list Z :=
  let index := int_of_uint32 (wrap32 first) in
  if 0 <=? index
  then sa_range index (Z.min second INT_MAX)
  else sa_range index (if second =? UINT64_MAX then INT_MAX else second - 2 ^ 64).

(** [index] is converted to [uint64_t] where it subscripts the mask and the
    BWT, and where it is stored in the result. *)
Definition left_markers_search (search_state : SearchState)
    (prg_info : PRG_Info) : list (Z * Z) :=
  fold_left
    (fun markers_search_results index =>
       let row := wrap64 index in
       if negb (bit_at (bwt_markers_mask prg_info) row)
       then markers_search_results
       else markers_search_results
              ++ [(row, vec_at (bwt (fm_index prg_info)) row)])
    (left_markers_rows (fst (sa_interval search_state))
                       (snd (sa_interval search_state)))
    [].

Definition process_boundary_marker (marker_char sa_right_of_marker : Z)
    (current_search_state : SearchState) (prg_info : PRG_Info) : SearchStates :=
  let boundary_marker_info :=
    site_boundary_marker_info marker_char sa_right_of_marker prg_info in
  let entering_variant_site := negb (is_start_boundary boundary_marker_info) in
  if entering_variant_site
  then entering_site_search_states boundary_marker_info current_search_state prg_info
  else [exiting_site_search_state boundary_marker_info current_search_state].

Definition process_allele_marker (allele_marker_char sa_right_of_marker : Z)
    (current_search_state : SearchState) (prg_info : PRG_Info) : SearchState :=
  let fm := fm_index prg_info in
  let boundary_marker_char := wrap64 (allele_marker_char - 1) in
  let alphabet_rank := vec_at (char2comp fm) boundary_marker_char in
  let first_sa_index := vec_at (C fm) alphabet_rank in
  let second_sa_index := wrap64 (first_sa_index + 1) in
  let boundary_start_is_first_sa :=
    vec_at (sa fm) first_sa_index <? vec_at (sa fm) second_sa_index in
  let boundary_start_sa_index :=
    if boundary_start_is_first_sa then first_sa_index else second_sa_index in
  let check_required :=
    negb (site_state_eqb (variant_site_state current_search_state)
                         within_variant_site) in
  let path :=
    if check_required then
      match variant_site_path current_search_state with
      | [] =>
          let internal_allele_text_index := vec_at (sa fm) sa_right_of_marker in
          let allele_id := vec_at (allele_mask prg_info) internal_allele_text_index in
          [(boundary_marker_char, allele_id)]
      | _ :: _ => variant_site_path current_search_state
      end
    else variant_site_path current_search_state in
  {| sa_interval := (boundary_start_sa_index, boundary_start_sa_index);
     variant_site_path := path;
     variant_site_state := outside_variant_site;
     invalid := invalid current_search_state |}.

(** The body of the loop of [process_markers_search_state]. *)
Definition process_marker (current_search_state : SearchState)
    (prg_info : PRG_Info) (markers_search_states : SearchStates)
    (marker : Z * Z) : SearchStates :=
  let sa_right_of_marker := fst marker in
  let marker_char := snd marker in
  let marker_is_site_boundary := marker_char mod 2 =? 1 in
  if marker_is_site_boundary
  then markers_search_states
         ++ process_boundary_marker marker_char sa_right_of_marker
              current_search_state prg_info
  else markers_search_states
         ++ [process_allele_marker marker_char sa_right_of_marker
               current_search_state prg_info].

Definition process_markers_search_state (current_search_state : SearchState)
    (prg_info : PRG_Info) : SearchStates :=
  let markers := left_markers_search current_search_state prg_info in
  match markers with
  | [] => []
  | _ :: _ => fold_left (process_marker current_search_state prg_info) markers []
  end.

Definition process_markers_search_states (old_search_states : SearchStates)
    (prg_info : PRG_Info) : SearchStates :=
  let all_markers_new_search_states :=
    fold_left
      (fun acc search_state =>
         acc ++ process_markers_search_state search_state prg_info)
      old_search_states [] in
  old_search_states ++ all_markers_new_search_states.

Definition process_read_char_search_states (pattern_char : Z)
    (old_search_states : SearchStates) (prg_info : PRG_Info) : SearchStates :=
  let post_markers_search_states :=
    process_markers_search_states old_search_states prg_info in
  search_base_backwards pattern_char post_markers_search_states prg_info.

(** ** Allele-encapsulated finalisation (search.cpp) *)

Record SearchStateCache := {
  cache_search_state : SearchState;
  cache_empty : bool
}.

Definition cache_init : SearchStateCache :=
  {| cache_search_state := empty_search_state; cache_empty := true |}.

Definition cache_set (search_state : SearchState) : SearchStateCache :=
  {| cache_search_state := search_state; cache_empty := false |}.

(** [flush] appends the cached state, if any, and empties the cache. *)
Definition cache_flush (cache : SearchStateCache) (search_states : SearchStates)
    : SearchStates * SearchStateCache :=
  if cache_empty cache then (search_states, cache)
  else (search_states ++ [cache_search_state cache],
        {| cache_search_state := cache_search_state cache; cache_empty := true |}).

Definition cache_update_sa_interval_max (cache : SearchStateCache)
    (new_sa_interval_max : Z) : SearchStateCache :=
  {| cache_search_state :=
       set_sa_interval (cache_search_state cache)
         (fst (sa_interval (cache_search_state cache)), new_sa_interval_max);
     cache_empty := cache_empty cache |}.

Definition path_eqb (a b : VariantSitePath) : bool :=
  bool_decide (a = b).

(** One iteration of the loop of [handle_allele_encapsulated_state]. *)
Definition encapsulated_step (prg_info : PRG_Info)
    (st : SearchStates * SearchStateCache) (sa_index : Z)
    : SearchStates * SearchStateCache :=
  let '(new_search_states, cache) := st in
  let prg_index := vec_at (sa (fm_index prg_info)) sa_index in
  let site_marker := vec_at (sites_mask prg_info) prg_index in
  let allele_id := vec_at (allele_mask prg_info) prg_index in
  let within_site := negb (site_marker =? 0) in
  if negb within_site then
    let '(new_search_states, cache) := cache_flush cache new_search_states in
    let cache :=
      cache_set {| sa_interval := (sa_index, sa_index);
                   variant_site_path := [];
                   variant_site_state := outside_variant_site;
                   invalid := false |} in
    cache_flush cache new_search_states
  else if cache_empty cache then
    (new_search_states,
     cache_set {| sa_interval := (sa_index, sa_index);
                  variant_site_path := [(site_marker, allele_id)];
                  variant_site_state := within_variant_site;
                  invalid := false |})
  else
    let current_path := [(site_marker, allele_id)] in
    let cache_has_same_path :=
      path_eqb current_path (variant_site_path (cache_search_state cache)) in
    if cache_has_same_path
    then (new_search_states, cache_update_sa_interval_max cache sa_index)
    else
      let '(new_search_states, cache) := cache_flush cache new_search_states in
      (new_search_states,
       cache_set {| sa_interval := (sa_index, sa_index);
                    variant_site_path := current_path;
                    variant_site_state := within_variant_site;
                    invalid := false |}).

Definition handle_allele_encapsulated_state (search_state : SearchState)
    (prg_info : PRG_Info) : SearchStates :=
  let '(new_search_states, cache) :=
    fold_left (encapsulated_step prg_info)
      (sa_range (fst (sa_interval search_state)) (snd (sa_interval search_state)))
      ([], cache_init) in
  fst (cache_flush cache new_search_states).

Definition handle_allele_encapsulated_states (search_states : SearchStates)
    (prg_info : PRG_Info) : SearchStates :=
  fold_left
    (fun new_search_states search_state =>
       match variant_site_path search_state with
       | _ :: _ => new_search_states ++ [search_state]
       | [] =>
           new_search_states
             ++ handle_allele_encapsulated_state search_state prg_info
       end)
    search_states [].

(** ** PRG encoding (prg.cpp) *)

(** A [char] is a signed byte. *)
Definition char_value (c : ascii) : Z :=
  let v := Z.of_N (N_of_ascii c) in
  if v <? 128 then v else v - 256.

Record EncodeResult := {
  is_dna : bool;
  character : Z
}.

(** The codes of [A a C c G g T t] are 65 97 67 99 71 103 84 116, that of
    ['0'] is 48. *)
Definition encode_char (c : ascii) : EncodeResult :=
  let v := char_value c in
  if (v =? 65) || (v =? 97) then {| is_dna := true; character := 1 |}
  else if (v =? 67) || (v =? 99) then {| is_dna := true; character := 2 |}
  else if (v =? 71) || (v =? 103) then {| is_dna := true; character := 3 |}
  else if (v =? 84) || (v =? 116) then {| is_dna := true; character := 4 |}
  else {| is_dna := false; character := wrap32 (wrap32 v - 48) |}.

Definition concat_marker_digits (marker_digits : list Z) : Z :=
  fold_left (fun marker digit => wrap64 (marker * 10 + digit)) marker_digits 0.

(** The state of [encode_prg]: the part of [encoded_prg] written so far
    (its length is [count_chars]) and the pending [marker_digits].  The
    vector holds 32-bit entries, so a value is cut to 32 bits when stored. *)
Definition flush_marker_digits (marker_digits : list Z) (encoded_prg : list Z)
    : list Z * list Z :=
  match marker_digits with
  | [] => (marker_digits, encoded_prg)
  | _ :: _ =>
      let marker := concat_marker_digits marker_digits in
      ([], encoded_prg ++ [wrap32 marker])
  end.

Definition encode_prg_step (st : list Z * list Z) (c : ascii) : list Z * list Z :=
  let '(marker_digits, encoded_prg) := st in
  let encode_result := encode_char c in
  if is_dna encode_result then
    let '(marker_digits, encoded_prg) :=
      flush_marker_digits marker_digits encoded_prg in
    (marker_digits, encoded_prg ++ [character encode_result])
  else
    (marker_digits ++ [int_of_uint32 (character encode_result)], encoded_prg).

Definition encode_prg (prg_raw : string) : list Z :=
  let '(marker_digits, encoded_prg) :=
    fold_left encode_prg_step (list_ascii_of_string prg_raw) ([], []) in
  snd (flush_marker_digits marker_digits encoded_prg).

Definition get_max_alphabet_num (encoded_prg : list Z) : Z :=
  fold_left (fun max_alphabet_num x =>
               if max_alphabet_num <? x then x else max_alphabet_num)
            encoded_prg 0.

(** ** Site and allele masks (masks.cpp)

    Both masks are vectors of 32-bit entries of the length of the PRG,
    initially zero, written at the loop index. *)

Record AlleleMaskState := {
  am_mask : list Z;
  current_allele_id : Z;
  am_within_variant_site : bool
}.

Definition allele_mask_step (st : AlleleMaskState) (i : nat) (prg_char : Z)
    : AlleleMaskState :=
  let at_variant_site_boundary := (4 <? prg_char) && negb (prg_char mod 2 =? 0) in
  let entering_variant_site :=
    at_variant_site_boundary && negb (am_within_variant_site st) in
  if entering_variant_site then
    {| am_mask := am_mask st; current_allele_id := 1;
       am_within_variant_site := true |}
  else
    let exiting_variant_site :=
      at_variant_site_boundary && am_within_variant_site st in
    if exiting_variant_site then
      {| am_mask := am_mask st; current_allele_id := current_allele_id st;
         am_within_variant_site := false |}
    else
      let within_allele := (prg_char <=? 4) && am_within_variant_site st in
      if within_allele then
        {| am_mask := <[i := wrap32 (current_allele_id st)]> (am_mask st);
           current_allele_id := current_allele_id st;
           am_within_variant_site := am_within_variant_site st |}
      else
        let at_allele_marker := (4 <? prg_char) && (prg_char mod 2 =? 0) in
        if at_allele_marker then
          {| am_mask := am_mask st;
             current_allele_id := wrap32 (current_allele_id st + 1);
             am_within_variant_site := am_within_variant_site st |}
        else st.

Fixpoint allele_mask_loop (rest : list Z) (i : nat) (st : AlleleMaskState)
    : AlleleMaskState :=
  match rest with
  | [] => st
  | prg_char :: rest' => allele_mask_loop rest' (S i) (allele_mask_step st i prg_char)
  end.

Definition generate_allele_mask (encoded_prg : list Z) : list Z :=
  am_mask
    (allele_mask_loop encoded_prg 0%nat
       {| am_mask := repeat 0 (length encoded_prg);
          current_allele_id := 1;
          am_within_variant_site := false |}).

Record SitesMaskState := {
  sm_mask : list Z;
  current_site_marker : Z;
  sm_within_variant_site : bool
}.

Definition sites_mask_step (st : SitesMaskState) (i : nat) (prg_char : Z)
    : SitesMaskState :=
  let at_variant_site_boundary := (4 <? prg_char) && negb (prg_char mod 2 =? 0) in
  let entering_variant_site :=
    at_variant_site_boundary && negb (sm_within_variant_site st) in
  if entering_variant_site then
    {| sm_mask := sm_mask st; current_site_marker := prg_char;
       sm_within_variant_site := true |}
  else
    let exiting_variant_site :=
      at_variant_site_boundary && sm_within_variant_site st in
    if exiting_variant_site then
      {| sm_mask := sm_mask st; current_site_marker := current_site_marker st;
         sm_within_variant_site := false |}
    else
      let within_allele := (prg_char <=? 4) && sm_within_variant_site st in
      if within_allele then
        {| sm_mask := <[i := wrap32 (current_site_marker st)]> (sm_mask st);
           current_site_marker := current_site_marker st;
           sm_within_variant_site := sm_within_variant_site st |}
      else st.

Fixpoint sites_mask_loop (rest : list Z) (i : nat) (st : SitesMaskState)
    : SitesMaskState :=
  match rest with
  | [] => st
  | prg_char :: rest' => sites_mask_loop rest' (S i) (sites_mask_step st i prg_char)
  end.

Definition generate_sites_mask (encoded_prg : list Z) : list Z :=
  sm_mask
    (sites_mask_loop encoded_prg 0%nat
       {| sm_mask := repeat 0 (length encoded_prg);
          current_site_marker := 0;
          sm_within_variant_site := false |}).

(** ** Reference FM-index

    The FM-index is built by sdsl, outside the files covered here.  The
    definitions of this part follow the description of the spec: the
    FM-index over the PRG with a text terminator appended, giving the suffix
    array [SA], the [BWT], the column counts [C] and the maps [char2comp]
    and [comp2char] between symbols and their ranks in the alphabet.  They
    serve to build concrete [PRG_Info] values. *)

Fixpoint lex_ltb (a b : list Z) : bool :=
  match a, b with
  | [], [] => false
  | [], _ :: _ => true
  | _ :: _, [] => false
  | x :: a', y :: b' =>
      if x <? y then true
      else if y <? x then false
      else lex_ltb a' b'
  end.

Fixpoint insert_suffix (x : Z * list Z) (l : list (Z * list Z)) : list (Z * list Z) :=
  match l with
  | [] => [x]
  | y :: l' => if lex_ltb (snd x) (snd y) then x :: l else y :: insert_suffix x l'
  end.

(** Modelled from the spec: the suffix array of the text (sdsl's
    construction is missing), by insertion sort of the suffixes in
    lexicographic order. *)
Definition suffix_array (text : list Z) : list Z :=
  map fst
    (fold_right insert_suffix []
       (map (fun i => (Z.of_nat i, skipn i text)) (seq 0 (length text)))).

Fixpoint insert_symbol (x : Z) (l : list Z) : list Z :=
  match l with
  | [] => [x]
  | y :: l' =>
      if x <? y then x :: l
      else if x =? y then l
      else y :: insert_symbol x l'
  end.

Definition alphabet_of (text : list Z) : list Z :=
  fold_right insert_symbol [] text.

Fixpoint index_of (x : Z) (l : list Z) (i : Z) : Z :=
  match l with
  | [] => 0
  | y :: l' => if x =? y then i else index_of x l' (i + 1)
  end.

Definition count_less (text : list Z) (x : Z) : Z :=
  Z.of_nat (length (filter (fun y => y < x) text)).

(** Modelled from the spec: the FM-index of the PRG followed by the
    terminator [0] (sdsl's construction is missing).  [BWT[i]] is the symbol
    before the suffix [SA[i]], [C] counts the symbols smaller than each
    symbol of the alphabet, and a symbol that does not occur has rank [0]. *)
Definition build_fm_index (encoded_prg : list Z) : FM_Index :=
  let text := encoded_prg ++ [0] in
  let n := Z.of_nat (length text) in
  let suffixes := suffix_array text in
  let alphabet := alphabet_of text in
  {| sa := suffixes;
     bwt := map (fun i => vec_at text ((i + n - 1) mod n)) suffixes;
     C := map (count_less text) alphabet ++ [n];
     char2comp :=
       map (fun c => index_of (Z.of_nat c) alphabet 0)
           (seq 0 (S (Z.to_nat (get_max_alphabet_num encoded_prg))));
     comp2char := alphabet;
     sigma := Z.of_nat (length alphabet) |}.

(** [load_prg_info] (prg.cpp), with the structures built in memory instead
    of read from disk. *)
Definition build_prg_info (encoded_prg : list Z) : PRG_Info :=
  let fm := build_fm_index encoded_prg in
  {| fm_index := fm;
     encoded_prg := encoded_prg;
     sites_mask := generate_sites_mask encoded_prg;
     allele_mask := generate_allele_mask encoded_prg;
     prg_markers_mask := generate_prg_markers_mask encoded_prg;
     bwt_markers_mask := generate_bwt_markers_mask fm;
     dna_bwt_masks := generate_dna_bwt_masks fm |}.

(** ** Enumeration of all kmers (kmers.cpp)

    [Base] is [uint8_t]; a [Pattern] is a vector of bases. *)

Definition wrap8 (x : Z) : Z := x mod 2 ^ 8.

(** Reading [current_kmer[idx]].  Inside the vector this is its element.
    Outside, the access is undefined behaviour; what the read finds in the
    memory around the vector is given by [oob]. *)
Definition kmer_read (oob : Z -> Z) (current_kmer : list Z) (idx : Z) : Z :=
  if (0 <=? idx) && (idx <? Z.of_nat (length current_kmer))
  then vec_at current_kmer idx
  else oob idx.

(** The decrement loop of [next_kmer],
    [while (current_kmer[max_update_index] == 4) max_update_index--;].
    It returns the index at which it stops together with the indices it
    has read, in order; without a stop within [fuel] iterations the index
    is [None]. *)
Fixpoint next_kmer_scan (fuel : nat) (oob : Z -> Z) (current_kmer : list Z)
    (max_update_index : Z) (reads : list Z) : option Z * list Z :=
  match fuel with
  | O => (None, reads)
  | S fuel' =>
      let reads := reads ++ [max_update_index] in
      if kmer_read oob current_kmer max_update_index =? 4
      then next_kmer_scan fuel' oob current_kmer (max_update_index - 1) reads
      else (Some max_update_index, reads)
  end.

(** [next_kmer]: the new value of [current_kmer], [None] when the scan did
    not stop within [fuel] iterations. *)
Definition next_kmer (fuel : nat) (oob : Z -> Z) (current_kmer : list Z)
    (kmer_size : Z) : option (list Z) :=
  match fst (next_kmer_scan fuel oob current_kmer (kmer_size - 1) []) with
  | None => None
  | Some max_update_index =>
      if max_update_index <? 0 then Some []
      else
        let incremented :=
          <[Z.to_nat max_update_index :=
              wrap8 (vec_at current_kmer max_update_index + 1)]> current_kmer in
        Some (fold_left (fun kmer i => <[Z.to_nat i := 1]> kmer)
                        (sa_range (max_update_index + 1) (kmer_size - 1))
                        incremented)
  end.

(** [generate_all_kmers]: the kmers inserted, in the order of insertion. *)
Fixpoint generate_all_kmers_loop (fuel : nat) (oob : Z -> Z)
    (current_kmer : list Z) (kmer_size : Z) (all_kmers : list (list Z))
    : option (list (list Z)) :=
  match fuel with
  | O => None
  | S fuel' =>
      let all_kmers := all_kmers ++ [current_kmer] in
      match next_kmer fuel oob current_kmer kmer_size with
      | None => None
      | Some [] => Some all_kmers
      | Some (b :: next) =>
          generate_all_kmers_loop fuel' oob (b :: next) kmer_size all_kmers
      end
  end.

Definition generate_all_kmers (fuel : nat) (oob : Z -> Z) (kmer_size : Z)
    : option (list (list Z)) :=
  generate_all_kmers_loop fuel oob (repeat 1 (Z.to_nat kmer_size)) kmer_size [].

(** ** Prefix diffs of the kmers (kmers.cpp) *)

(** One iteration of the inner loop of [get_prefix_diffs], at index [i]. *)
Definition prefix_diff_step (kmer last_full_kmer : list Z)
    (st : bool * list Z) (i : nat) : bool * list Z :=
  let '(prefix_found_flag, prefix_diff_list) := st in
  let base := nth i kmer 0 in
  let last_full_base := nth i last_full_kmer 0 in
  let prefix_found_flag :=
    if negb (base =? last_full_base) then true else prefix_found_flag in
  if prefix_found_flag
  then (prefix_found_flag, base :: prefix_diff_list)
  else (prefix_found_flag, prefix_diff_list).

(** The inner loop, [for (i = last_full_kmer.size() - 1; i >= 0; --i)]. *)
Definition prefix_diff (kmer last_full_kmer : list Z) : list Z :=
  snd (fold_left (prefix_diff_step kmer last_full_kmer)
                 (rev (seq 0 (length last_full_kmer)))
                 (false, [])).

Definition get_prefix_diffs_step (st : list (list Z) * list Z) (kmer : list Z)
    : list (list Z) * list Z :=
  let '(prefix_diffs, last_full_kmer) := st in
  match last_full_kmer with
  | [] => (prefix_diffs ++ [kmer], kmer)
  | _ :: _ => (prefix_diffs ++ [prefix_diff kmer last_full_kmer], kmer)
  end.

Definition get_prefix_diffs (kmers : list (list Z)) : list (list Z) :=
  fst (fold_left get_prefix_diffs_step kmers ([], [])).

(** ** Coverage (quasimap/coverage)

    [SitesAlleleBaseCoverage] is a vector, per site, of vectors, per allele,
    of vectors of [uint16_t] counters, one per base.  The grouped allele
    counts are, per site, a hash map from a group of allele ids to a
    counter. *)

Record Coverage := {
  allele_sum_coverage : list (list Z);
  allele_base_coverage : list (list (list Z));
  grouped_allele_counts : list (gmap (list Z) Z)
}.

Abbreviation SitesCoverageBoundaries := (gmap (Z * Z) Z).

(** Recording reads and writes the coverage and may leave by an exception
    ([std::out_of_range], thrown by [at]); nothing catches it.  [Rec X] is a
    computation over the coverage with a result in [X], [None] standing for
    the exception. *)
Definition Rec (X : Type) : Type := Coverage -> option (X * Coverage).

Definition rec_ret {X} (x : X) : Rec X := fun c => Some (x, c).

Definition rec_bind {X Y} (m : Rec X) (k : X -> Rec Y) : Rec Y :=
  fun c => match m c with
           | None => None
           | Some (x, c') => k x c'
           end.

Notation "'let*' x ':=' m 'in' k" := (rec_bind m (fun x => k))
  (at level 10, x name, m at level 100, k at level 200).

Fixpoint rec_fold {A S} (f : S -> A -> Rec S) (l : list A) (s : S) : Rec S :=
  match l with
  | [] => rec_ret s
  | a :: l' => let* s' := f s a in rec_fold f l' s'
  end.

(** [++counter] guarded by [if (counter == UINT16_MAX) continue;]. *)
Definition saturating_increment (counter : Z) : Z :=
  if counter =? UINT16_MAX then counter else counter + 1.

Definition set_allele_base_coverage (f : list (list (list Z)) -> list (list (list Z)))
    (c : Coverage) : Coverage :=
  {| allele_sum_coverage := allele_sum_coverage c;
     allele_base_coverage := f (allele_base_coverage c);
     grouped_allele_counts := grouped_allele_counts c |}.

(** [coverage.allele_base_coverage.at(site).at(allele).size()]. *)
Definition allele_coverage_size (site allele : Z) : Rec Z :=
  fun c =>
    match allele_base_coverage c !! Z.to_nat site with
    | None => None
    | Some site_coverage =>
        match site_coverage !! Z.to_nat allele with
        | None => None
        | Some allele_coverage => Some (Z.of_nat (length allele_coverage), c)
        end
    end.

(** The guarded [++allele_coverage[i]] on the allele reached through
    [at(site).at(allele)]. *)
Definition increment_base (site allele i : Z) : Rec unit :=
  fun c =>
    Some (tt,
          set_allele_base_coverage
            (alter (alter (alter saturating_increment (Z.to_nat i))
                          (Z.to_nat allele))
                   (Z.to_nat site)) c).

Definition set_site_base_coverage
    (sites_coverage_boundaries : SitesCoverageBoundaries)
    (path_element : VariantLocus) (allele_coverage_offset max_bases_to_set : Z)
    : Rec (Z * SitesCoverageBoundaries) :=
  let marker := fst path_element in
  let min_boundary_marker := 5 in
  let variant_site_coverage_index := wrap64 (marker - min_boundary_marker) / 2 in
  let allele_id := snd path_element in
  let allele_coverage_index := wrap64 (allele_id - 1) in
  let* allele_size :=
    allele_coverage_size variant_site_coverage_index allele_coverage_index in
  let index_end_boundary :=
    Z.min (wrap64 (allele_coverage_offset + max_bases_to_set)) allele_size in
  let count_bases_consumed := wrap64 (index_end_boundary - allele_coverage_offset) in
  let index_start_boundary :=
    match sites_coverage_boundaries !! path_element with
    | Some previous_end => Z.max allele_coverage_offset previous_end
    | None => allele_coverage_offset
    end in
  let sites_coverage_boundaries :=
    <[path_element := index_end_boundary]> sites_coverage_boundaries in
  let* _ :=
    rec_fold (fun _ i =>
                increment_base variant_site_coverage_index allele_coverage_index i)
             (sa_range index_start_boundary (index_end_boundary - 1)) tt in
  rec_ret (count_bases_consumed, sites_coverage_boundaries).

Definition site_marker_prg_indexes (site_marker : Z) (prg_info : PRG_Info) : Z * Z :=
  let fm := fm_index prg_info in
  let alphabet_rank := vec_at (char2comp fm) site_marker in
  let first_sa_index := vec_at (C fm) alphabet_rank in
  let second_sa_index := wrap64 (first_sa_index + 1) in
  let first_prg_index := vec_at (sa fm) first_sa_index in
  let second_prg_index := vec_at (sa fm) second_sa_index in
  if first_prg_index <? second_prg_index
  then (first_prg_index, second_prg_index)
  else (second_prg_index, first_prg_index).

Definition allele_start_offset_index (within_allele_prg_index : Z)
    (prg_info : PRG_Info) : Z :=
  let number_markers_before := prg_markers_rank prg_info within_allele_prg_index in
  let marker_index := prg_markers_select prg_info number_markers_before in
  wrap64 (wrap64 (within_allele_prg_index - marker_index) - 1).

(** The local variables of [sa_index_allele_base_coverage] that change in
    its loop, with the boundaries map it is handed. *)
Record WalkState := {
  read_bases_consumed : Z;
  last_site_prg_start_end : Z * Z;
  site_prg_start_end : Z * Z;
  walk_boundaries : SitesCoverageBoundaries
}.

(** The [while] loop over the rest of the path. *)
Fixpoint walk_path (read_length : Z) (prg_info : PRG_Info)
    (path : VariantSitePath) (ws : WalkState) : Rec WalkState :=
  match path with
  | [] => rec_ret ws
  | path_element :: rest =>
      if read_bases_consumed ws <? read_length then
        let site_marker := fst path_element in
        let ws :=
          if negb (fst (last_site_prg_start_end ws) =? 0) then
            let site_prg_start_end := site_marker_prg_indexes site_marker prg_info in
            {| read_bases_consumed :=
                 wrap64 (read_bases_consumed ws
                         + wrap64 (wrap64 (fst site_prg_start_end
                                           - snd (last_site_prg_start_end ws)) - 1));
               last_site_prg_start_end := last_site_prg_start_end ws;
               site_prg_start_end := site_prg_start_end;
               walk_boundaries := walk_boundaries ws |}
          else ws in
        let last_site_prg_start_end := site_prg_start_end ws in
        let allele_coverage_offset := 0 in
        let max_bases_to_set := wrap64 (read_length - read_bases_consumed ws) in
        let* result :=
          set_site_base_coverage (walk_boundaries ws) path_element
            allele_coverage_offset max_bases_to_set in
        walk_path read_length prg_info rest
          {| read_bases_consumed := wrap64 (read_bases_consumed ws + fst result);
             last_site_prg_start_end := last_site_prg_start_end;
             site_prg_start_end := site_prg_start_end ws;
             walk_boundaries := snd result |}
      else rec_ret ws
  end.

(** The path is not empty when [coverage::record::allele_base] calls this
    function; on an empty path the source dereferences the end iterator,
    here nothing is recorded. *)
Definition sa_index_allele_base_coverage
    (sites_coverage_boundaries : SitesCoverageBoundaries)
    (sa_index read_length : Z) (search_state : SearchState)
    (prg_info : PRG_Info) : Rec SitesCoverageBoundaries :=
  match variant_site_path search_state with
  | [] => rec_ret sites_coverage_boundaries
  | path_element :: rest =>
      let read_start_index := vec_at (sa (fm_index prg_info)) sa_index in
      let start_site_marker := vec_at (sites_mask prg_info) read_start_index in
      let read_starts_within_site := negb (start_site_marker =? 0) in
      let site_marker := fst path_element in
      let* ws :=
        if read_starts_within_site then
          let last_site_prg_start_end :=
            site_marker_prg_indexes site_marker prg_info in
          let allele_coverage_offset :=
            allele_start_offset_index read_start_index prg_info in
          let max_bases_to_set := wrap64 (read_length - 0) in
          let* result :=
            set_site_base_coverage sites_coverage_boundaries path_element
              allele_coverage_offset max_bases_to_set in
          walk_path read_length prg_info rest
            {| read_bases_consumed := wrap64 (0 + fst result);
               last_site_prg_start_end := last_site_prg_start_end;
               site_prg_start_end := (0, 0);
               walk_boundaries := snd result |}
        else
          let site_prg_start_end := site_marker_prg_indexes site_marker prg_info in
          walk_path read_length prg_info (path_element :: rest)
            {| read_bases_consumed :=
                 wrap64 (0 + wrap64 (fst site_prg_start_end - read_start_index));
               last_site_prg_start_end := (0, 0);
               site_prg_start_end := site_prg_start_end;
               walk_boundaries := sites_coverage_boundaries |} in
      rec_ret (walk_boundaries ws)
  end.

(** [coverage::record::allele_base]. *)
Definition allele_base (search_states : SearchStates) (read_length : Z)
    (prg_info : PRG_Info) : Rec unit :=
  let* _ :=
    rec_fold
      (fun sites_coverage_boundaries search_state =>
         match variant_site_path search_state with
         | [] => rec_ret sites_coverage_boundaries
         | _ :: _ =>
             let first_sa_index := fst (sa_interval search_state) in
             let last_sa_index := snd (sa_interval search_state) in
             rec_fold
               (fun sites_coverage_boundaries sa_index =>
                  sa_index_allele_base_coverage sites_coverage_boundaries
                    sa_index read_length search_state prg_info)
               (sa_range first_sa_index last_sa_index)
               sites_coverage_boundaries
         end)
      search_states (∅ : SitesCoverageBoundaries) in
  rec_ret tt.

(** [coverage::generate::allele_base_structure].  The number of variant
    sites comes from [get_number_of_variant_sites], which is defined outside
    the files covered here; it is an argument here.  [None] is the exception of
    [at]. *)
Definition allele_base_structure_step
    (st : option (list (list (list Z)) * Z * Z)) (mask_value : Z)
    : option (list (list (list Z)) * Z * Z) :=
  match st with
  | None => None
  | Some (allele_base_coverage, allele_size, last_marker) =>
      if negb (mask_value =? 0)
      then Some (allele_base_coverage, wrap64 (allele_size + 1), mask_value)
      else if allele_size =? 0
      then Some (allele_base_coverage, allele_size, last_marker)
      else
        let bases := repeat 0 (Z.to_nat allele_size) in
        let variant_site_cover_index := wrap64 (last_marker - 5) / 2 in
        match allele_base_coverage !! Z.to_nat variant_site_cover_index with
        | None => None
        | Some site =>
            Some (<[Z.to_nat variant_site_cover_index := site ++ [bases]]>
                    allele_base_coverage, 0, last_marker)
        end
  end.

Definition allele_base_structure (number_of_variant_sites : Z)
    (prg_info : PRG_Info) : option (list (list (list Z))) :=
  match fold_left allele_base_structure_step (sites_mask prg_info)
          (Some (repeat [] (Z.to_nat number_of_variant_sites), 0, 0)) with
  | None => None
  | Some (allele_base_coverage, _, _) => Some allele_base_coverage
  end.

(** ** Allele sum and grouped allele counts

    Only the allele base recorder is among the files covered here; the two
    other recorders, and the function that runs the three for a read, are
    described by the spec.  The spec fixes the width of the base counters
    only; the counters below saturate at [counter_max], whatever it is. *)

Section OtherRecorders.
Variable counter_max : Z.

(** Modelled from the spec: the increment of a counter of the two missing
    recorders, which saturates at the maximum of its type. *)
Definition bump (counter : Z) : Z :=
  if counter =? counter_max then counter else counter + 1.

Definition set_allele_sum_coverage (f : list (list Z) -> list (list Z))
    (c : Coverage) : Coverage :=
  {| allele_sum_coverage := f (allele_sum_coverage c);
     allele_base_coverage := allele_base_coverage c;
     grouped_allele_counts := grouped_allele_counts c |}.

Definition set_grouped_allele_counts
    (f : list (gmap (list Z) Z) -> list (gmap (list Z) Z))
    (c : Coverage) : Coverage :=
  {| allele_sum_coverage := allele_sum_coverage c;
     allele_base_coverage := allele_base_coverage c;
     grouped_allele_counts := f (grouped_allele_counts c) |}.

(** The index of a site in the coverage vectors, as
    [set_site_base_coverage] computes it. *)
Definition site_index (site_marker : Z) : Z := wrap64 (site_marker - 5) / 2.

(** Modelled from the spec: [counts[site_idx][allele_idx] += 1] of the
    missing allele sum recorder. *)
Definition increment_allele_sum (locus : VariantLocus) : Rec unit :=
  fun c =>
    Some (tt,
          set_allele_sum_coverage
            (alter (alter bump (Z.to_nat (wrap64 (snd locus - 1))))
                   (Z.to_nat (site_index (fst locus)))) c).

(** Modelled from the spec: the allele sum recorder, which is defined
    outside the files covered here.  For each state whose path is non-empty,
    [counts[site_idx][allele_idx] += 1] for every locus on the path. *)
Definition allele_sum (search_states : SearchStates) : Rec unit :=
  rec_fold
    (fun _ search_state =>
       rec_fold (fun _ locus => increment_allele_sum locus)
                (variant_site_path search_state) tt)
    search_states tt.

(** Modelled from the spec: [group[site][set] += 1] of the missing grouped
    allele counts recorder; a group not yet in the map starts at zero. *)
Definition increment_group (site_marker : Z) (allele_ids : list Z) : Rec unit :=
  fun c =>
    Some (tt,
          set_grouped_allele_counts
            (alter (fun group =>
                      <[allele_ids := bump (default 0 (group !! allele_ids))]> group)
                   (Z.to_nat (site_index site_marker))) c).

(** Modelled from the spec: the set of allele ids of the missing grouped
    allele counts recorder.  The allele ids, counted from zero, sorted and
    without repetition, of the loci of site [site_marker] on the paths of
    the states. *)
Definition site_allele_ids (search_states : SearchStates) (site_marker : Z)
    : list Z :=
  merge_sort Z.le
    (remove_dups
       (map (fun locus => wrap64 (snd locus - 1))
            (filter (fun locus => fst locus = site_marker)
                    (concat (map variant_site_path search_states))))).

(** Modelled from the spec: the grouped allele counts recorder, which is
    defined outside the files covered here.  For each site independently, the
    set of allele ids that the states of the read passed through is
    collected, and [group[site][set] += 1]. *)
Definition grouped_allele_counts_record (search_states : SearchStates)
    : Rec unit :=
  rec_fold
    (fun _ site_marker =>
       increment_group site_marker (site_allele_ids search_states site_marker))
    (remove_dups (map fst (concat (map variant_site_path search_states))))
    tt.

(** Modelled from the spec: the recording of one read, which is defined
    outside the files covered here.  The three recorders consume the final search
    states of the read. *)
Definition record_search_states (search_states : SearchStates)
    (read_length : Z) (prg_info : PRG_Info) : Rec unit :=
  let* _ := allele_sum search_states in
  let* _ := allele_base search_states read_length prg_info in
  grouped_allele_counts_record search_states.

(** Modelled from the spec: the quasimap driver, which is defined outside
    the files covered here, without its threads.  The reads, each given by its
    final search states and its length, are recorded one after the
    other. *)
Definition record_reads (reads : list (SearchStates * Z))
    (prg_info : PRG_Info) : Rec unit :=
  rec_fold (fun _ read => record_search_states (fst read) (snd read) prg_info)
           reads tt.
End OtherRecorders.

(** ** Concrete PRGs, taken from the unit tests *)

Definition prg_one_site : PRG_Info := build_prg_info (encode_prg "a5g6t5c").

Definition prg_two_sites : PRG_Info :=
  build_prg_info (encode_prg "gct5c6g6t5ac7cc8a7").

Definition search_state_at (lo hi : Z) (path : VariantSitePath)
    (site_state : SearchVariantSiteState) : SearchState :=
  {| sa_interval := (lo, hi);
     variant_site_path := path;
     variant_site_state := site_state;
     invalid := false |}.

Definition prg_repeat_allele : PRG_Info :=
  build_prg_info (encode_prg "t5aacaaag6c5t").

(** A PRG whose last site has one allele: its largest symbol is a site
    marker. *)
Definition prg_last_site_one_allele : PRG_Info :=
  build_prg_info (encode_prg "a5g6t5c7a7").

(** A coverage whose base counters are those of [allele_base_structure] and
    whose other parts are empty. *)
Definition base_coverage_of (bases : list (list (list Z))) : Coverage :=
  {| allele_sum_coverage := [];
     allele_base_coverage := bases;
     grouped_allele_counts := [] |}.

(** The empty coverage of [prg_two_sites]: three alleles of one base at
    site 5, alleles of two and one bases at site 7. *)
Definition empty_coverage_two_sites : Coverage :=
  {| allele_sum_coverage := [[0; 0; 0]; [0; 0]];
     allele_base_coverage := [[[0]; [0]; [0]]; [[0; 0]; [0]]];
     grouped_allele_counts := [∅; ∅] |}.

(** The reads [gctcaccc] and [gcttaca] of [prg_two_sites], as their final
    search states and lengths. *)
Definition read_first_alleles : SearchStates * Z :=
  ([search_state_at 8 8 [(5, 1); (7, 1)] outside_variant_site], 8).

Definition read_last_alleles : SearchStates * Z :=
  ([search_state_at 8 8 [(5, 3); (7, 2)] outside_variant_site], 7).

(** ** Mapping a read (search.cpp)

    The kmer index is a hash map from a kmer to the search states reached
    by searching it.  The reverse iterator over the read is advanced by the
    size of the kmer; on a read shorter than the kmer this is undefined in
    the source, here no base is left. *)

(** The loop of [search_read_backwards] over the bases left of the kmer,
    last base first, with its [break] on an empty set of states. *)
Fixpoint search_read_loop (bases : list Z) (new_search_states : SearchStates)
    (prg_info : PRG_Info) : SearchStates :=
  match bases with
  | [] => new_search_states
  | pattern_char :: rest =>
      let new_search_states :=
        process_read_char_search_states pattern_char new_search_states prg_info in
      match new_search_states with
      | [] => new_search_states
      | _ :: _ => search_read_loop rest new_search_states prg_info
      end
  end.

Definition search_read_backwards (read kmer : list Z)
    (kmer_index : gmap (list Z) SearchStates) (prg_info : PRG_Info)
    : SearchStates :=
  match kmer_index !! kmer with
  | None => []
  | Some kmer_index_search_states =>
      match kmer_index_search_states with
      | [] => kmer_index_search_states
      | _ :: _ =>
          let bases := skipn (length kmer) (rev read) in
          let new_search_states :=
            search_read_loop bases kmer_index_search_states prg_info in
          handle_allele_encapsulated_states new_search_states prg_info
      end
  end.

(** ** Paths through the alleles of a region (kmers.cpp) *)

(** [current_allele_index_path[i] + 1 == parts_allele_counts[i]].  The two
    vectors have the same size where the function is called; an index past
    the end of [parts_allele_counts] reads 0 here. *)
Definition at_last_valid_index (current_allele_index_path parts_allele_counts : list Z)
    (i : nat) : bool :=
  wrap64 (nth i current_allele_index_path 0 + 1) =? nth i parts_allele_counts 0.

(** The first loop of [update_allele_index_path], from index [i - 1] down:
    the index at which it breaks, [None] when it runs to its end. *)
Fixpoint rightmost_index_to_increase
    (current_allele_index_path parts_allele_counts : list Z) (i : nat)
    : option nat :=
  match i with
  | O => None
  | S i' =>
      if at_last_valid_index current_allele_index_path parts_allele_counts i'
      then rightmost_index_to_increase current_allele_index_path
             parts_allele_counts i'
      else Some i'
  end.

(** [update_allele_index_path]: the value returned, with the new value of
    [current_allele_index_path]. *)
Definition update_allele_index_path
    (current_allele_index_path parts_allele_counts : list Z) : bool * list Z :=
  match rightmost_index_to_increase current_allele_index_path
          parts_allele_counts (length current_allele_index_path) with
  | None => (false, current_allele_index_path)
  | Some i =>
      let incremented :=
        <[i := wrap64 (nth i current_allele_index_path 0 + 1)]>
          current_allele_index_path in
      (true,
       fold_left (fun path j => <[j := 0]> path)
                 (seq (S i) (length incremented - S i)) incremented)
  end.

(** ** Regions of the PRG to index (kmers.cpp) *)

Definition PrgIndexRange : Type := Z * Z.

(** The comparison that [combine_overlapping_regions] sorts with. *)
Definition ordering_condition (lhs rhs : PrgIndexRange) : bool :=
  if fst lhs <? fst rhs then true
  else if fst lhs =? fst rhs then snd lhs <? snd rhs
  else false.

(** [rhs] does not come before [lhs]. *)
Definition range_le (lhs rhs : PrgIndexRange) : Prop :=
  ordering_condition rhs lhs = false.

#[global] Instance range_le_dec (lhs rhs : PrgIndexRange) :
  Decision (range_le lhs rhs).
Proof. unfold range_le. apply _. Defined.

(** One iteration of the loop of [combine_overlapping_regions] on the
    ranges recorded and the range under construction. *)
Definition combine_step (st : list PrgIndexRange * PrgIndexRange)
    (range : PrgIndexRange) : list PrgIndexRange * PrgIndexRange :=
  let reduced_ranges := fst st in
  let last_range_seen := snd st in
  let at_first_range :=
    (fst last_range_seen =? 0) && (snd last_range_seen =? 0) in
  if at_first_range then (reduced_ranges, range)
  else
    let last_range_not_overlap := snd last_range_seen <? fst range in
    if last_range_not_overlap
    then (reduced_ranges ++ [last_range_seen], range)
    else
      let range_completely_encapsulated := snd range <? snd last_range_seen in
      if range_completely_encapsulated then (reduced_ranges, last_range_seen)
      else (reduced_ranges, (fst last_range_seen, snd range)).

(** [combine_overlapping_regions].  Two ranges that [ordering_condition]
    does not tell apart are equal, so [std::sort] has one possible result;
    merge sort computes it here. *)
Definition combine_overlapping_regions (kmer_region_ranges : list PrgIndexRange)
    : list PrgIndexRange :=
  let sorted_ranges := merge_sort range_le kmer_region_ranges in
  let st := fold_left combine_step sorted_ranges ([], (0, 0)) in
  let reduced_ranges := fst st in
  let last_range_seen := snd st in
  let no_last_range_recorded :=
    (fst last_range_seen =? 0) && (snd last_range_seen =? 0) in
  if no_last_range_recorded then reduced_ranges
  else
    match reduced_ranges with
    | [] => [last_range_seen]
    | _ :: _ =>
        let last_range_not_added :=
          bool_decide (List.last reduced_ranges (0, 0) <> last_range_seen) in
        if last_range_not_added then reduced_ranges ++ [last_range_seen]
        else reduced_ranges
    end.

(** ** Kmers of a path (kmers.cpp) *)

(** The conversion of a [uint64_t] to [int64_t] (two's complement). *)
Definition int64_of_uint64 (x : Z) : Z :=
  if x <? 2 ^ 63 then x else x - 2 ^ 64.

(** The loop of [get_path_reverse_kmers] from index [i] on.  [i] is an
    [int64_t]; its comparison with [kmer_size - 1], a [uint64_t], is made
    on [uint64_t].  [path[j]] is read as [current_kmer[idx]] is by
    [kmer_read].  The kmers are given in the order in which they are
    inserted; the set of the source holds each of them once.  Without an
    end within [fuel] iterations the result is [None]. *)
Fixpoint get_path_reverse_kmers_loop (fuel : nat) (oob : Z -> Z)
    (path : list Z) (kmer_size : Z) (i : Z) (reverse_kmers : list (list Z))
    : option (list (list Z)) :=
  match fuel with
  | O => None
  | S fuel' =>
      if wrap64 (kmer_size - 1) <=? wrap64 i then
        let reverse_kmer :=
          map (kmer_read oob path)
              (rev (sa_range (i - int64_of_uint64 kmer_size + 1) i)) in
        get_path_reverse_kmers_loop fuel' oob path kmer_size (i - 1)
          (reverse_kmers ++ [reverse_kmer])
      else Some reverse_kmers
  end.

Definition get_path_reverse_kmers (fuel : nat) (oob : Z -> Z) (path : list Z)
    (kmer_size : Z) : option (list (list Z)) :=
  get_path_reverse_kmers_loop fuel oob path kmer_size
    (int64_of_uint64 (wrap64 (Z.of_nat (length path) - 1))) [].

(** [extract_simple_reverse_kmer].  A [Base] is a [uint8_t].  The loop
    runs from [kmer_end_index] down to [kmer_start_index], and leaves at
    index 0 before the index wraps. *)
Definition extract_simple_reverse_kmer (kmer_end_index kmer_size : Z)
    (prg_info : PRG_Info) : list Z :=
  let start_index_is_valid :=
    0 <=? int64_of_uint64 kmer_end_index - int64_of_uint64 kmer_size + 1 in
  if start_index_is_valid then
    let kmer_start_index := wrap64 (wrap64 (kmer_end_index - kmer_size) + 1) in
    map (fun i => wrap8 (vec_at (encoded_prg prg_info) i))
        (rev (sa_range kmer_start_index kmer_end_index))
  else [].

(** * Notions used in the statements *)

(** The states that marker processing emits for one row of the interval. *)
Definition marker_row_states (s : SearchState) (p : PRG_Info) (index : Z)
    : SearchStates :=
  if bit_at (bwt_markers_mask p) index then
    let m := vec_at (bwt (fm_index p)) index in
    if m mod 2 =? 1 then process_boundary_marker m index s p
    else [process_allele_marker m index s p]
  else [].

(** The first symbol of the suffix of an SA row; the suffix of the
    terminator starts with [0]. *)
Definition first_symbol (p : PRG_Info) (row : Z) : Z :=
  vec_at (encoded_prg p) (vec_at (sa (fm_index p)) row).

(** The SA interval of a symbol: the rows whose suffixes start with it. *)
Definition symbol_rows (p : PRG_Info) (symbol : Z) : list Z :=
  filter (fun row => first_symbol p row = symbol)
         (sa_range 0 (fm_size (fm_index p) - 1)).

(** ** Allele-encapsulated finalisation *)

(** The locus [(sites_mask[SA[row]], allele_mask[SA[row]])] of an SA row. *)
Definition locus_at (p : PRG_Info) (row : Z) : Z * Z :=
  let prg_index := vec_at (sa (fm_index p)) row in
  (vec_at (sites_mask p) prg_index, vec_at (allele_mask p) prg_index).

(** The intervals of [out] are non-empty and tile the rows [lo .. e - 1]
    from left to right. *)
Fixpoint tiles (lo e : Z) (out : SearchStates) : Prop :=
  match out with
  | [] => lo = e
  | st :: rest =>
      fst (sa_interval st) = lo
      /\ lo <= snd (sa_interval st)
      /\ tiles (snd (sa_interval st) + 1) e rest
  end.

(** A singleton state, with empty path, for a row outside any site. *)
Definition outside_row_state (p : PRG_Info) (st : SearchState) : Prop :=
  variant_site_path st = []
  /\ fst (sa_interval st) = snd (sa_interval st)
  /\ variant_site_state st = outside_variant_site
  /\ fst (locus_at p (fst (sa_interval st))) = 0.

(** A state for a run of rows that share one locus inside a site. *)
Definition run_state (p : PRG_Info) (st : SearchState) : Prop :=
  exists m a,
    m <> 0
    /\ variant_site_path st = [(m, a)]
    /\ variant_site_state st = within_variant_site
    /\ forall j, fst (sa_interval st) <= j <= snd (sa_interval st) ->
                 locus_at p j = (m, a).

(** No two neighbouring states carry the same locus: every run is maximal. *)
Fixpoint runs_maximal (out : SearchStates) : Prop :=
  match out with
  | [] => True
  | st1 :: rest =>
      match rest with
      | [] => True
      | st2 :: _ =>
          variant_site_path st1 = variant_site_path st2 ->
          variant_site_path st1 = []
      end
      /\ runs_maximal rest
  end.

Definition encapsulated_split (p : PRG_Info) (lo hi : Z) (out : SearchStates) : Prop :=
  tiles lo (hi + 1) out
  /\ Forall (fun st => outside_row_state p st \/ run_state p st) out
  /\ runs_maximal out.

(** The invariant of the loop of [handle_allele_encapsulated_state] when
    the rows [lo .. i - 1] have been scanned. *)
Definition encapsulated_inv (p : PRG_Info) (lo i : Z)
    (st : SearchStates * SearchStateCache) : Prop :=
  let acc := fst st in
  let cache := snd st in
  let cs := cache_search_state cache in
  exists b,
    tiles lo b acc
    /\ Forall (fun s => outside_row_state p s \/ run_state p s) acc
    /\ runs_maximal acc
    /\ if cache_empty cache
       then b = i /\ (forall y, last acc = Some y -> variant_site_path y = [])
       else fst (sa_interval cs) = b
            /\ b <= snd (sa_interval cs)
            /\ snd (sa_interval cs) + 1 = i
            /\ run_state p cs
            /\ (forall y, last acc = Some y ->
                          variant_site_path y = variant_site_path cs ->
                          variant_site_path y = []).

(** ** Prefix diffs *)

(** [d] is the part of [kmer] up to and including its first mismatch from
    the right against [prev]; it is empty when the two agree. *)
Definition diff_through_mismatch (d prev kmer : list Z) : Prop :=
  d = firstn (length d) kmer
  /\ skipn (length d) kmer = skipn (length d) prev
  /\ (d <> [] -> nth (length d - 1) kmer 0 <> nth (length d - 1) prev 0).

(** Rebuilding a kmer from its diff and the preceding kmer. *)
Definition apply_prefix_diff (prev d : list Z) : list Z :=
  d ++ skipn (length d) prev.

Fixpoint undo_prefix_diffs (prev : list Z) (diffs : list (list Z))
    : list (list Z) :=
  match diffs with
  | [] => []
  | d :: rest =>
      let kmer := apply_prefix_diff prev d in
      kmer :: undo_prefix_diffs kmer rest
  end.

(** The invariant of the inner loop of [get_prefix_diffs] when the indices
    [n - 1] down to [i] have been visited. *)
Definition prefix_diff_inv (kmer prev : list Z) (n i : nat)
    (st : bool * list Z) : Prop :=
  (fst st = false /\ snd st = [] /\ skipn i kmer = skipn i prev)
  \/ (fst st = true
      /\ exists m, (i <= m < n)%nat
                   /\ snd st = firstn (S m - i) (skipn i kmer)
                   /\ nth m kmer 0 <> nth m prev 0
                   /\ skipn (S m) kmer = skipn (S m) prev).

(** Each diff of [diffs] is the diff of the kmer at the same place of
    [kmers] against the kmer before it, [prev] for the first, and rebuilds
    that kmer. *)
Fixpoint prefix_diffs_of (prev : list Z) (kmers diffs : list (list Z)) : Prop :=
  match kmers, diffs with
  | [], [] => True
  | kmer :: kmers', d :: diffs' =>
      diff_through_mismatch d prev kmer
      /\ kmer = apply_prefix_diff prev d
      /\ prefix_diffs_of kmer kmers' diffs'
  | _, _ => False
  end.

(** ** Masks *)

(** ** Sites of a PRG *)

(** The tests of the mask builders on a symbol. *)
Definition is_site_marker (x : Z) : bool := (4 <? x) && negb (x mod 2 =? 0).
Definition is_allele_marker (x : Z) : bool := (4 <? x) && (x mod 2 =? 0).

Fixpoint count_if (f : Z -> bool) (l : list Z) : nat :=
  match l with
  | [] => O
  | x :: l' => if f x then S (count_if f l') else count_if f l'
  end.

(** The site marker at position [s] opens the site that position [j] lies
    in: an even number of site markers come before it, and none lies
    after it up to [j]. *)
Definition opens_site (prg : list Z) (s j : nat) : Prop :=
  (s < j)%nat
  /\ is_site_marker (nth s prg 0) = true
  /\ Nat.even (count_if is_site_marker (firstn s prg)) = true
  /\ forall t, (s < t <= j)%nat -> is_site_marker (nth t prg 0) = false.

(** The relation kept by the two mask builders with the PRG they have
    scanned up to position [k]. *)
Definition masks_scan_inv (prg : list Z) (k : nat) (ss : SitesMaskState)
    (als : AlleleMaskState) : Prop :=
  length (sm_mask ss) = length prg
  /\ length (am_mask als) = length prg
  /\ sm_within_variant_site ss = Nat.odd (count_if is_site_marker (firstn k prg))
  /\ am_within_variant_site als = Nat.odd (count_if is_site_marker (firstn k prg))
  /\ (sm_within_variant_site ss = true ->
      exists s, (s < k)%nat
                /\ is_site_marker (nth s prg 0) = true
                /\ Nat.even (count_if is_site_marker (firstn s prg)) = true
                /\ (forall t, (s < t < k)%nat -> is_site_marker (nth t prg 0) = false)
                /\ current_site_marker ss = nth s prg 0
                /\ current_allele_id als
                   = wrap32 (1 + Z.of_nat (count_if is_allele_marker
                                             (firstn (k - S s) (skipn (S s) prg)))))
  /\ (forall j s, (j < k)%nat -> opens_site prg s j -> nth j prg 0 <= 4 ->
                  nth j (sm_mask ss) 0 = wrap32 (nth s prg 0)
                  /\ nth j (am_mask als) 0
                     = wrap32 (1 + Z.of_nat (count_if is_allele_marker
                                               (firstn (j - S s) (skipn (S s) prg)))))
  /\ (forall j, nth j (sm_mask ss) 0 <> 0 \/ nth j (am_mask als) 0 <> 0 ->
                (j < k)%nat /\ nth j prg 0 <= 4 /\ exists s, opens_site prg s j).

(** No site of the PRG holds [2^32 - 1] allele markers or more: the allele
    id, counted in 32 bits, does not come back to zero. *)
Definition allele_ids_within_32_bits (prg : list Z) : Prop :=
  forall s j,
    opens_site prg s j ->
    Z.of_nat (count_if is_allele_marker (firstn (j - S s) (skipn (S s) prg)))
    < 2 ^ 32 - 1.

(** ** Coverage updates *)

(** A single counter increment of one of the three coverage structures. *)
Inductive Update :=
| IncBase (site allele base : nat)
| IncSum (site allele : nat)
| IncGroup (site : nat) (allele_ids : list Z).

Definition apply_update (counter_max : Z) (u : Update) (c : Coverage) : Coverage :=
  match u with
  | IncBase site allele base =>
      set_allele_base_coverage
        (alter (alter (alter saturating_increment base) allele) site) c
  | IncSum site allele =>
      set_allele_sum_coverage (alter (alter (bump counter_max) allele) site) c
  | IncGroup site allele_ids =>
      set_grouped_allele_counts
        (alter (fun group =>
                  <[allele_ids := bump counter_max (default 0 (group !! allele_ids))]>
                    group) site) c
  end.

Definition apply_updates (counter_max : Z) (us : list Update) (c : Coverage)
    : Coverage :=
  fold_left (fun c u => apply_update counter_max u c) us c.

(** The sizes of the base coverage: what recording reads of the coverage
    besides the counters it increments. *)
Definition base_shape (c : Coverage) : list (list nat) :=
  map (map (@length Z)) (allele_base_coverage c).

(** A computation whose result, exception and increments are fixed by the
    sizes of the base coverage alone. *)
Definition planned (counter_max : Z) {X} (m : Rec X) : Prop :=
  forall shape,
  exists r : option (X * list Update),
  forall c,
    base_shape c = shape ->
    m c = match r with
          | None => None
          | Some (x, us) => Some (x, apply_updates counter_max us c)
          end.

(** ** Tactics *)

Ltac concrete :=
  vm_compute; repeat split; try reflexivity; try (intros; discriminate); try lia.

Ltac feed H :=
  repeat match type of H with
         | ?A -> _ =>
             let X := fresh in
             assert (X : A) by concrete; specialize (H X); clear X
         end.


(** ** The text form of a PRG *)

(** A PRG text seen as a sequence of tokens: a DNA letter, upper or lower
    case, or a marker written with decimal digits. *)
Inductive PrgToken :=
| TBase (base : Z) (lower_case : bool)
| TMarker (digits : list Z).

Definition dna_letter (base : Z) (lower_case : bool) : ascii :=
  if base =? 1 then (if lower_case then "a" else "A")%char
  else if base =? 2 then (if lower_case then "c" else "C")%char
  else if base =? 3 then (if lower_case then "g" else "G")%char
  else (if lower_case then "t" else "T")%char.

Definition digit_char (d : Z) : ascii := ascii_of_nat (Z.to_nat (48 + d)).

Definition token_text (t : PrgToken) : list ascii :=
  match t with
  | TBase base lower_case => [dna_letter base lower_case]
  | TMarker digits => map digit_char digits
  end.

Definition tokens_text (tokens : list PrgToken) : string :=
  string_of_list_ascii (flat_map token_text tokens).

(** The number written by decimal digits, most significant first. *)
Definition decimal_value (digits : list Z) : Z :=
  fold_left (fun value d => 10 * value + d) digits 0.

Definition token_symbol (t : PrgToken) : Z :=
  match t with
  | TBase base _ => base
  | TMarker digits => decimal_value digits
  end.

Definition token_ok (t : PrgToken) : Prop :=
  match t with
  | TBase base _ => 1 <= base <= 4
  | TMarker digits =>
      digits <> []
      /\ Forall (fun d => 0 <= d <= 9) digits
      /\ decimal_value digits < 2 ^ 32
  end.

(** Two markers in a row cannot be told apart in the text: their digits
    run together. *)
Fixpoint markers_apart (tokens : list PrgToken) : Prop :=
  match tokens with
  | TMarker _ :: ((TMarker _ :: _) as rest) => False
  | _ :: rest => markers_apart rest
  | [] => True
  end.

(** ** Bit vectors *)

(** The number of set bits of a bit vector. *)
Definition count_set (mask : list bool) : nat :=
  length (filter (fun b => b = true) mask).

(** ** Base counters *)

(** The counters of an allele after the guarded increment of those at the
    positions from [first] up to, and without, [last]. *)
Definition increment_between (first last : Z) (allele_coverage : list Z) : list Z :=
  imap (fun i counter =>
          if bool_decide (first <= Z.of_nat i < last)
          then saturating_increment counter else counter)
       allele_coverage.

(** A base counter after some guarded increments: it has not gone down,
    and has not gone past the maximum of its type if it was within it. *)
Definition counter_raised (before after : Z) : Prop :=
  before <= after /\ (before <= UINT16_MAX -> after <= UINT16_MAX).

(** The coverage after a recording that touched base counters only. *)
Definition base_counters_raised (c c' : Coverage) : Prop :=
  allele_sum_coverage c' = allele_sum_coverage c
  /\ grouped_allele_counts c' = grouped_allele_counts c
  /\ Forall2 (Forall2 (Forall2 counter_raised))
             (allele_base_coverage c) (allele_base_coverage c').

(** A recording whose runs, when they return, have raised base counters
    only. *)
Definition raises_base_counters {X} (m : Rec X) : Prop :=
  forall c x c', m c = Some (x, c') -> base_counters_raised c c'.

(** The test of [allele_base_structure] on an entry of the sites mask. *)
Definition within_allele (mask_value : Z) : bool := negb (mask_value =? 0).

(** An allele of the base coverage as [allele_base_structure] leaves it:
    it has a base, and its counters are zero. *)
Definition fresh_allele (allele_coverage : list Z) : Prop :=
  allele_coverage <> [] /\ Forall (fun counter => counter = 0) allele_coverage.

(** The relation kept by the loop of [allele_base_structure] with the part
    of the sites mask it has read. *)
Definition structure_inv (number_of_variant_sites : Z) (read : list Z)
    (st : option (list (list (list Z)) * Z * Z)) : Prop :=
  match st with
  | None => True
  | Some (coverage, allele_size, _) =>
      length coverage = Z.to_nat number_of_variant_sites
      /\ Forall (Forall fresh_allele) coverage
      /\ 0 <= allele_size
      /\ Z.of_nat (length (concat (concat coverage))) + allele_size
         = Z.of_nat (count_if within_allele read)
      /\ (last read = Some 0 -> allele_size = 0)
  end.

(** ** Paths through the alleles of a region *)

Definition product (counts : list Z) : Z := fold_right Z.mul 1 counts.

(** The rank of a path of allele indexes among the paths of a region whose
    parts have [counts] alleles, the rightmost part varying fastest. *)
Fixpoint path_number (path counts : list Z) : Z :=
  match path, counts with
  | allele_index :: path', count :: counts' =>
      allele_index * product counts' + path_number path' counts'
  | _, _ => 0
  end.

(** Every part has its allele index below its number of alleles. *)
Definition path_within (path counts : list Z) : Prop :=
  Forall2 (fun allele_index count =>
             0 <= allele_index < count /\ count <= UINT64_MAX)
          path counts.

(** ** Regions of the PRG *)

(** Position [x] lies in one of the ranges. *)
Definition covers (ranges : list PrgIndexRange) (x : Z) : Prop :=
  exists range, In range ranges /\ fst range <= x <= snd range.

(** A range as [get_kmer_region_ranges] gives it: it is not empty, and it
    is not [combine_overlapping_regions]'s mark of no range. *)
Definition proper_range (range : PrgIndexRange) : Prop :=
  0 <= fst range <= snd range /\ range <> (0, 0).

(** The range ends before the other one starts. *)
Definition range_before (lhs rhs : PrgIndexRange) : Prop := snd lhs < fst rhs.

(** The relation kept by the loop of [combine_overlapping_regions]. *)
Definition combine_inv (st : list PrgIndexRange * PrgIndexRange) : Prop :=
  Forall proper_range (fst st)
  /\ StronglySorted range_before (fst st)
  /\ Forall (fun range => range_before range (snd st)) (fst st)
  /\ proper_range (snd st).

(** ** Kmers of a path *)

(** The kmer that ends at position [last] of the path, back to front. *)
Definition reverse_kmer_at (path : list Z) (kmer_size last : Z) : list Z :=
  rev (firstn (Z.to_nat kmer_size)
              (skipn (Z.to_nat (last - kmer_size + 1)) path)).

(** ** Search states *)

(** A state marked [within_variant_site] has a locus on its path. *)
Definition within_on_path (s : SearchState) : Prop :=
  variant_site_state s = within_variant_site -> variant_site_path s <> [].

(** ** FM-index *)

(** What [get_allele_marker_sa_interval] relies on for the symbol of rank
    [r] of an FM-index as sdsl builds it: the rank of the symbol is [r],
    the symbol of the next rank is larger, and the rows whose suffixes start
    with the symbol are those from [C[r]] to [C[r + 1] - 1], of which there
    is one at least. *)
Definition fm_rank_ok (p : PRG_Info) (r : Z) : bool :=
  let fm := fm_index p in
  (vec_at (char2comp fm) (vec_at (comp2char fm) r) =? r)
  && (0 <=? vec_at (C fm) r)
  && (vec_at (C fm) r <? vec_at (C fm) (r + 1))
  && (vec_at (C fm) (r + 1) <=? fm_size fm)
  && ((r + 1 =? sigma fm)
      || (vec_at (comp2char fm) r <? vec_at (comp2char fm) (r + 1)))
  && forallb (fun row =>
                Bool.eqb ((vec_at (C fm) r <=? row)
                          && (row <? vec_at (C fm) (r + 1)))
                         (first_symbol p row =? vec_at (comp2char fm) r))
             (sa_range 0 (fm_size fm - 1)).

(** The same for every rank, the last rank ending at the last row. *)
Definition fm_index_sorted (p : PRG_Info) : bool :=
  let fm := fm_index p in
  forallb (fm_rank_ok p) (sa_range 0 (sigma fm - 1))
  && (vec_at (C fm) (sigma fm) =? fm_size fm).

(** * Properties *)

(** ** Ranks and ranges *)

Lemma wrap64_small (x : Z) : 0 <= x <= UINT64_MAX -> wrap64 x = x.
Proof. unfold wrap64, UINT64_MAX. intros H. apply Z.mod_small. lia. Qed.

Lemma filter_mask_length (c : Z) (l : list Z) (n : nat) :
  length (filter (fun b => b = true) (firstn n (map (fun x => bool_decide (x = c)) l)))
  = length (filter (fun x => x = c) (firstn n l)).
Proof.
  revert n. induction l as [|x l IH]; intros [|n]; simpl; auto.
  rewrite !filter_cons.
  destruct (decide (x = c)) as [->|Hne].
  - rewrite bool_decide_eq_true_2 by reflexivity. rewrite decide_True by reflexivity.
    simpl. f_equal. apply IH.
  - rewrite bool_decide_eq_false_2 by assumption. rewrite decide_False by discriminate.
    apply IH.
Qed.

Lemma rank_mask_bwt (fm : FM_Index) (c i : Z) :
  rank_support_v (map (fun x => bool_decide (x = c)) (bwt fm)) i = bwt_rank fm i c.
Proof. unfold rank_support_v, bwt_rank. f_equal. apply filter_mask_length. Qed.

Lemma dna_bwt_rank_generated (p : PRG_Info) (c i : Z) :
  dna_bwt_masks p = generate_dna_bwt_masks (fm_index p) ->
  1 <= c <= 4 ->
  dna_bwt_rank i c p = bwt_rank (fm_index p) i c.
Proof.
  intros Hm Hc. unfold dna_bwt_rank, rank_bwt_a, rank_bwt_c, rank_bwt_g, rank_bwt_t.
  rewrite Hm. simpl.
  assert (c = 1 \/ c = 2 \/ c = 3 \/ c = 4) as [-> | [-> | [-> | ->]]] by lia;
    simpl; apply rank_mask_bwt.
Qed.

Lemma filter_firstn_length_mono {A} (P : A -> Prop) `{forall x, Decision (P x)}
    (l : list A) (n m : nat) :
  (n <= m)%nat ->
  (length (filter P (firstn n l)) <= length (filter P (firstn m l)))%nat.
Proof.
  revert n m. induction l as [|x l IH]; intros [|n] [|m] Hnm; simpl; try lia.
  rewrite !filter_cons. specialize (IH n m ltac:(lia)).
  destruct (decide (P x)); simpl; lia.
Qed.

Lemma bwt_rank_mono (fm : FM_Index) (c i j : Z) :
  i <= j -> bwt_rank fm i c <= bwt_rank fm j c.
Proof.
  intros Hij. unfold bwt_rank. apply inj_le.
  apply filter_firstn_length_mono. lia.
Qed.

Lemma bwt_rank_bounds (fm : FM_Index) (c i : Z) :
  0 <= bwt_rank fm i c <= Z.of_nat (length (bwt fm)).
Proof.
  unfold bwt_rank. split; [lia|]. apply inj_le.
  etransitivity; [apply length_filter|]. rewrite length_take. lia.
Qed.

Lemma bwt_rank_0 (fm : FM_Index) (c i : Z) : i <= 0 -> bwt_rank fm i c = 0.
Proof.
  intros Hi. unfold bwt_rank. replace (Z.to_nat i) with O by lia. reflexivity.
Qed.

(** ** Phase B *)

(** C1.  Backward extension of a state with non-empty interval [lo, hi] by
    a DNA base [c]: the new interval is
    [C[c] + rank_bwt(c, lo), C[c] + rank_bwt(c, hi + 1) - 1]; the state is
    dropped exactly when the new lower end exceeds the new upper end, and
    is otherwise emitted with the new interval, its path and site state
    untouched. *)
Theorem phase_b_extension (p : PRG_Info) (s : SearchState) (c : Z) :
  let fm := fm_index p in
  let lo := fst (sa_interval s) in
  let hi := snd (sa_interval s) in
  let Cc := vec_at (C fm) (vec_at (char2comp fm) c) in
  let next_lo := Cc + bwt_rank fm lo c in
  let next_hi := Cc + bwt_rank fm (hi + 1) c - 1 in
  dna_bwt_masks p = generate_dna_bwt_masks fm ->
  1 <= c <= 4 ->
  invalid s = false ->
  0 <= lo <= hi ->
  hi < UINT64_MAX ->
  0 <= Cc ->
  Cc + Z.of_nat (length (bwt fm)) <= UINT64_MAX ->
  search_base_backwards c [s] p =
    if next_hi <? next_lo then []
    else [ {| sa_interval := (next_lo, next_hi);
              variant_site_path := variant_site_path s;
              variant_site_state := variant_site_state s;
              invalid := false |} ].
Proof.
  intros fm lo hi Cc next_lo next_hi Hm Hc Hinv Hlohi Hhi HC0 HCmax.
  pose proof (bwt_rank_bounds fm c lo) as Hb1.
  pose proof (bwt_rank_bounds fm c (hi + 1)) as Hb2.
  pose proof (bwt_rank_mono fm c lo (hi + 1) ltac:(lia)) as Hmono.
  unfold search_base_backwards, search_fm_index_base_backwards,
    base_next_sa_interval. simpl.
  fold fm. fold Cc. fold lo. fold hi.
  replace (4 <? c) with false by (symmetry; apply Z.ltb_ge; lia).
  rewrite !dna_bwt_rank_generated by assumption. fold fm.
  rewrite (wrap64_small (hi + 1)) by lia.
  assert ((if lo <=? 0 then 0 else bwt_rank fm lo c) = bwt_rank fm lo c) as ->.
  { destruct (Z.leb_spec lo 0); [symmetry; apply bwt_rank_0; lia | reflexivity]. }
  fold next_lo.
  rewrite (wrap64_small next_lo) by (unfold next_lo; lia).
  destruct (Z.ltb_spec next_hi next_lo) as [Hdrop|Hkeep].
  - assert (next_hi = next_lo - 1) as Heq by (unfold next_lo, next_hi in *; lia).
    replace (Cc + bwt_rank fm (hi + 1) c - 1) with (next_lo - 1)
      by (unfold next_hi in Heq; lia).
    rewrite Z.eqb_refl. reflexivity.
  - replace (Cc + bwt_rank fm (hi + 1) c - 1) with next_hi by reflexivity.
    rewrite (wrap64_small next_hi) by (unfold next_lo, next_hi in *; lia).
    assert (wrap64 (next_lo - 1) <> next_hi) as Hne.
    { destruct (Z.eq_dec next_lo 0) as [H0|H0].
      - rewrite H0. change (wrap64 (0 - 1)) with UINT64_MAX.
        unfold next_lo, next_hi in *. lia.
      - rewrite wrap64_small by (unfold next_lo, next_hi in *; lia). lia. }
    apply Z.eqb_neq in Hne. rewrite Hne. simpl.
    unfold set_sa_interval. simpl. rewrite Hinv. simpl. reflexivity.
Qed.

(** ** Phase A *)

Lemma fold_left_app_flat_map {A B} (f : A -> list B) (l : list A) (init : list B) :
  fold_left (fun acc x => acc ++ f x) l init = init ++ flat_map f l.
Proof.
  revert init. induction l as [|x l IH]; intros init; simpl.
  - rewrite app_nil_r. reflexivity.
  - rewrite IH. rewrite <- app_assoc. reflexivity.
Qed.

Lemma seq_from_zero (n len : nat) :
  seq n len = map (fun k => (n + k)%nat) (seq 0 len).
Proof.
  induction n as [|n IH]; simpl.
  - rewrite map_id. reflexivity.
  - rewrite <- seq_shift, IH, map_map. reflexivity.
Qed.

Lemma sa_range_split (lo hi i : Z) :
  lo <= i <= hi ->
  sa_range lo hi = sa_range lo (i - 1) ++ [i] ++ sa_range (i + 1) hi.
Proof.
  intros Hi. unfold sa_range.
  replace (Z.to_nat (hi - lo + 1))
    with (Z.to_nat (i - lo) + S (Z.to_nat (hi - i)))%nat by lia.
  replace (i - 1 - lo + 1) with (i - lo) by lia.
  replace (hi - (i + 1) + 1) with (hi - i) by lia.
  rewrite seq_app, map_app. f_equal. simpl. f_equal; [lia|].
  rewrite (seq_from_zero (S _)), map_map.
  apply map_ext. intros k. lia.
Qed.

Lemma sa_range_singleton (i : Z) : sa_range i i = [i].
Proof.
  unfold sa_range. replace (i - i + 1) with 1 by lia. simpl. f_equal. lia.
Qed.

Lemma sa_range_length (lo hi : Z) :
  lo <= hi + 1 -> Z.of_nat (length (sa_range lo hi)) = hi - lo + 1.
Proof. intros H. unfold sa_range. rewrite length_map, length_seq. lia. Qed.

Lemma in_sa_range (lo hi j : Z) : In j (sa_range lo hi) <-> lo <= j <= hi.
Proof.
  unfold sa_range. rewrite in_map_iff. split.
  - intros (k & <- & Hk). apply in_seq in Hk. lia.
  - intros Hj. exists (Z.to_nat (j - lo)). split; [lia|]. apply in_seq. lia.
Qed.

Lemma sa_range_empty (lo hi : Z) : hi < lo -> sa_range lo hi = [].
Proof.
  intros H. unfold sa_range.
  replace (Z.to_nat (hi - lo + 1)) with 0%nat by lia. reflexivity.
Qed.

(** Below row [2^31] the loop of [left_markers_search] visits the rows of
    the interval. *)
Lemma left_markers_rows_low (first second : Z) :
  0 <= first <= 2 ^ 31 ->
  second < 2 ^ 31 ->
  left_markers_rows first second = sa_range first second.
Proof.
  intros Hfirst Hsecond. unfold left_markers_rows, int_of_uint32, wrap32, INT_MAX.
  rewrite (Z.mod_small first) by lia.
  destruct (Z.ltb_spec first (2 ^ 31)) as [Hlow|Hhigh].
  - destruct (Z.leb_spec 0 first); [|lia]. rewrite Z.min_l by lia. reflexivity.
  - destruct (Z.leb_spec 0 (first - 2 ^ 32)); [lia|].
    rewrite !sa_range_empty; [reflexivity | lia |].
    destruct (Z.eqb_spec second UINT64_MAX) as [Hmax|_];
      [unfold UINT64_MAX in Hmax; lia | lia].
Qed.

Lemma left_markers_search_flat (s : SearchState) (p : PRG_Info) :
  0 <= fst (sa_interval s) <= 2 ^ 31 ->
  snd (sa_interval s) < 2 ^ 31 ->
  left_markers_search s p =
  flat_map (fun index =>
              if bit_at (bwt_markers_mask p) index
              then [(index, vec_at (bwt (fm_index p)) index)] else [])
           (sa_range (fst (sa_interval s)) (snd (sa_interval s))).
Proof.
  intros Hfirst Hsecond.
  unfold left_markers_search. rewrite left_markers_rows_low by assumption.
  set (g := fun index : Z => if bit_at (bwt_markers_mask p) index
                             then [(index, vec_at (bwt (fm_index p)) index)] else []).
  assert (forall l init,
            Forall (fun index => 0 <= index <= UINT64_MAX) l ->
            fold_left
              (fun (markers_search_results : list (Z * Z)) (index : Z) =>
                 let row := wrap64 index in
                 if negb (bit_at (bwt_markers_mask p) row)
                 then markers_search_results
                 else markers_search_results
                        ++ [(row, vec_at (bwt (fm_index p)) row)])
              l init
            = init ++ flat_map g l) as Hgen.
  { induction l as [|x l IH]; intros init Hl; simpl.
    - rewrite app_nil_r. reflexivity.
    - inversion Hl as [|? ? Hx Hl']. subst.
      rewrite (wrap64_small x Hx), IH by exact Hl'.
      unfold g. destruct (bit_at _ x); simpl; [|reflexivity].
      rewrite <- app_assoc. reflexivity. }
  apply Hgen. apply List.Forall_forall. intros index Hin.
  apply in_sa_range in Hin.
  assert (2 ^ 31 < UINT64_MAX) by (vm_compute; reflexivity). lia.
Qed.

Lemma process_markers_search_state_rows (s : SearchState) (p : PRG_Info) :
  0 <= fst (sa_interval s) <= 2 ^ 31 ->
  snd (sa_interval s) < 2 ^ 31 ->
  process_markers_search_state s p =
  flat_map (marker_row_states s p)
           (sa_range (fst (sa_interval s)) (snd (sa_interval s))).
Proof.
  intros Hfirst Hsecond.
  unfold process_markers_search_state.
  set (step := process_marker s p).
  assert (fold_left step (left_markers_search s p) []
          = flat_map (marker_row_states s p)
              (sa_range (fst (sa_interval s)) (snd (sa_interval s)))) as Hfold.
  { rewrite left_markers_search_flat by assumption.
    assert (forall l init,
              fold_left step
                (flat_map (fun index =>
                             if bit_at (bwt_markers_mask p) index
                             then [(index, vec_at (bwt (fm_index p)) index)] else [])
                          l) init
              = init ++ flat_map (marker_row_states s p) l) as Hgen.
    { induction l as [|x l IH]; intros init; simpl.
      - rewrite app_nil_r. reflexivity.
      - assert (marker_row_states s p x
                = if bit_at (bwt_markers_mask p) x
                  then if vec_at (bwt (fm_index p)) x mod 2 =? 1
                       then process_boundary_marker (vec_at (bwt (fm_index p)) x) x s p
                       else [process_allele_marker (vec_at (bwt (fm_index p)) x) x s p]
                  else []) as Hx by reflexivity.
        rewrite Hx. clear Hx.
        destruct (bit_at (bwt_markers_mask p) x); simpl.
        + rewrite IH. unfold step, process_marker. simpl.
          destruct (_ =? 1); rewrite <- app_assoc; reflexivity.
        + apply IH. }
    apply Hgen. }
  destruct (left_markers_search s p) eqn:Hm; [|exact Hfold].
  rewrite <- Hfold. reflexivity.
Qed.

Lemma marker_row_states_interval (s : SearchState) (iv : SA_Interval)
    (p : PRG_Info) (index : Z) :
  marker_row_states (set_sa_interval s iv) p index = marker_row_states s p index.
Proof. reflexivity. Qed.

(** Marker processing of a state below row [2^31] splits at any row of
    its interval. *)
Lemma process_markers_search_state_split (s : SearchState) (p : PRG_Info) (i : Z) :
  0 <= fst (sa_interval s) ->
  snd (sa_interval s) < 2 ^ 31 ->
  fst (sa_interval s) <= i <= snd (sa_interval s) ->
  process_markers_search_state s p =
    process_markers_search_state
      (set_sa_interval s (fst (sa_interval s), i - 1)) p
    ++ marker_row_states s p i
    ++ process_markers_search_state
         (set_sa_interval s (i + 1, snd (sa_interval s))) p.
Proof.
  intros Hfirst Hsecond Hi.
  rewrite !process_markers_search_state_rows by (simpl; lia). simpl.
  rewrite (sa_range_split _ _ i Hi). rewrite !flat_map_app. simpl.
  rewrite app_nil_r. reflexivity.
Qed.

Lemma phase_b_extension_witness :
  search_base_backwards 3 [search_state_at 0 7 [] outside_variant_site] prg_one_site
  = [search_state_at 3 3 [] outside_variant_site].
Proof.
  pose proof (phase_b_extension prg_one_site
                (search_state_at 0 7 [] outside_variant_site) 3) as H.
  simpl in H. apply H; concrete.
Defined.

Lemma fold_left_snoc_map {A B} (f : A -> B) (l : list A) (init : list B) :
  fold_left (fun acc x => acc ++ [f x]) l init = init ++ map f l.
Proof.
  revert init. induction l as [|x l IH]; intros init; simpl.
  - rewrite app_nil_r. reflexivity.
  - rewrite IH, <- app_assoc. reflexivity.
Qed.

(** C2.  Two inputs on which a site marker at the end of its site does not
    give one state per allele.  On the PRG [a5g6t5c7a7] the BWT of row 3
    holds site marker 5, at the end of its site, which has two alleles;
    the suffixes that start with allele marker 6 are those of row 8 alone,
    but [get_allele_marker_sa_interval] gives the rows 8 to 10, and marker
    processing gives four states, of allele ids 1, 1, 0 and 4.  And on
    every PRG, the rows of an interval from row [2^31] on give no state,
    whatever their BWT holds: the state is processed as if its interval
    ended at row [2^31 - 1]. *)
Theorem entering_site_states_on_last_site_and_high_rows :
  (bit_at (bwt_markers_mask prg_last_site_one_allele) 3 = true
   /\ vec_at (bwt (fm_index prg_last_site_one_allele)) 3 = 5
   /\ symbol_rows prg_last_site_one_allele 6 = [8]
   /\ get_allele_marker_sa_interval 5 prg_last_site_one_allele = (8, 10)
   /\ process_markers_search_state
        (search_state_at 3 3 [] outside_variant_site) prg_last_site_one_allele
      = [ search_state_at 8 8 [(5, 1)] within_variant_site;
          search_state_at 9 9 [(5, 1)] within_variant_site;
          search_state_at 10 10 [(5, 0)] within_variant_site;
          search_state_at 6 6 [(5, 4)] within_variant_site ])
  /\ (forall (p : PRG_Info) (s : SearchState),
        0 <= fst (sa_interval s) < 2 ^ 31 ->
        2 ^ 31 <= snd (sa_interval s) ->
        process_markers_search_state s p
        = process_markers_search_state
            (set_sa_interval s (fst (sa_interval s), 2 ^ 31 - 1)) p).
Proof.
  split; [vm_compute; repeat split|].
  intros p s Hfirst Hsecond.
  unfold process_markers_search_state, left_markers_search.
  cbn [sa_interval set_sa_interval fst snd].
  unfold left_markers_rows, int_of_uint32, wrap32, INT_MAX.
  rewrite (Z.mod_small (fst (sa_interval s))) by lia.
  destruct (Z.ltb_spec (fst (sa_interval s)) (2 ^ 31)); [|lia].
  destruct (Z.leb_spec 0 (fst (sa_interval s))); [|lia].
  rewrite Z.min_r by lia. rewrite Z.min_l by lia. reflexivity.
Qed.

(** C3.  A state whose interval starts at row [2^31] or above, below row
    [2^32]: the loop of [left_markers_search], whose index is an [int],
    visits no row, and marker processing gives no state, whatever the BWT
    holds in the rows of the interval; a row that holds an allele marker
    gets no state. *)
Theorem marker_rows_from_2_31_not_visited (p : PRG_Info) (s : SearchState) :
  2 ^ 31 <= fst (sa_interval s) ->
  fst (sa_interval s) <= snd (sa_interval s) ->
  snd (sa_interval s) < 2 ^ 32 ->
  left_markers_search s p = []
  /\ process_markers_search_state s p = [].
Proof.
  intros Hfirst Hle Hsecond.
  assert (left_markers_search s p = []) as Hnone.
  { unfold left_markers_search, left_markers_rows, int_of_uint32, wrap32.
    rewrite (Z.mod_small (fst (sa_interval s))) by lia.
    destruct (Z.ltb_spec (fst (sa_interval s)) (2 ^ 31)); [lia|].
    destruct (Z.leb_spec 0 (fst (sa_interval s) - 2 ^ 32)); [lia|].
    destruct (Z.eqb_spec (snd (sa_interval s)) UINT64_MAX) as [Hmax|_];
      [unfold UINT64_MAX in Hmax; lia|].
    rewrite sa_range_empty by lia. reflexivity. }
  split; [exact Hnone|].
  unfold process_markers_search_state. rewrite Hnone. reflexivity.
Qed.

Lemma marker_rows_from_2_31_not_visited_witness :
  left_markers_search
    (search_state_at (2 ^ 31) (2 ^ 31) [] outside_variant_site) prg_one_site = []
  /\ process_markers_search_state
       (search_state_at (2 ^ 31) (2 ^ 31) [] outside_variant_site) prg_one_site
     = [].
Proof.
  apply marker_rows_from_2_31_not_visited; simpl; lia.
Defined.

(** ** Allele-encapsulated finalisation *)

Lemma tiles_snoc (lo e : Z) (l : SearchStates) (x : SearchState) :
  tiles lo e (l ++ [x]) <->
  exists b, tiles lo b l
            /\ fst (sa_interval x) = b
            /\ b <= snd (sa_interval x)
            /\ snd (sa_interval x) + 1 = e.
Proof.
  revert lo. induction l as [|y l IH]; intros lo; simpl.
  - split.
    + intros (H1 & H2 & H3). exists lo. auto.
    + intros (b & <- & H1 & H2 & H3). subst. auto.
  - rewrite IH. split.
    + intros (H1 & H2 & b & H3). exists b. tauto.
    + intros (b & (H1 & H2 & H3) & H4). split; [assumption|]. split; [assumption|].
      exists b. tauto.
Qed.

Lemma runs_maximal_snoc (l : SearchStates) (x : SearchState) :
  runs_maximal (l ++ [x]) <->
  runs_maximal l
  /\ (forall y, last l = Some y ->
                variant_site_path y = variant_site_path x ->
                variant_site_path y = []).
Proof.
  induction l as [|y l IH]; simpl.
  - split; [intros _; split; [exact I | intros y Hy; discriminate] | intros _; auto].
  - destruct l as [|z l]; simpl in *.
    + split.
      * intros [H _]. split; [auto|]. intros y' Hy'. inversion Hy'. subst. exact H.
      * intros [_ H]. split; [|auto]. apply H. reflexivity.
    + rewrite IH. split.
      * intros (H1 & H2 & H3). split; [tauto|]. exact H3.
      * intros ((H1 & H2) & H3). split; [exact H1|]. split; [exact H2|]. exact H3.
Qed.

Lemma encapsulated_inv_flush (p : PRG_Info) (lo i : Z)
    (acc : SearchStates) (cache : SearchStateCache) :
  encapsulated_inv p lo i (acc, cache) ->
  let acc' := fst (cache_flush cache acc) in
  tiles lo i acc'
  /\ Forall (fun s => outside_row_state p s \/ run_state p s) acc'
  /\ runs_maximal acc'
  /\ cache_empty (snd (cache_flush cache acc)) = true
  /\ (forall y, last acc' = Some y ->
                (cache_empty cache = true /\ variant_site_path y = [])
                \/ (cache_empty cache = false /\ y = cache_search_state cache
                    /\ run_state p y)).
Proof.
  intros (b & Ht & Hg & Hm & Hc). simpl in *.
  unfold cache_flush. destruct (cache_empty cache) eqn:He; simpl.
  - destruct Hc as [-> Hlast]. rewrite He. repeat split; auto.
  - destruct Hc as (Hb & Hle & Hi & Hrun & Hlast).
    split. { apply tiles_snoc. exists b. auto. }
    split. { apply Forall_app. split; [exact Hg|]. constructor; [right; exact Hrun | constructor]. }
    split. { apply runs_maximal_snoc. auto. }
    split; [reflexivity|].
    intros y Hy. rewrite last_snoc in Hy. inversion Hy. subst. right. auto.
Qed.

Lemma run_state_path_nonempty (p : PRG_Info) (st : SearchState) :
  run_state p st -> variant_site_path st <> [].
Proof. intros (m & a & _ & Hpath & _). rewrite Hpath. discriminate. Qed.

Lemma encapsulated_step_inv (p : PRG_Info) (lo i : Z)
    (st : SearchStates * SearchStateCache) :
  encapsulated_inv p lo i st ->
  encapsulated_inv p lo (i + 1) (encapsulated_step p st i).
Proof.
  destruct st as [acc cache]. intros Hinv.
  pose proof (encapsulated_inv_flush p lo i acc cache Hinv) as Hflush.
  cbv zeta in Hflush. destruct Hflush as (Ft & Fg & Fm & Fe & Fl).
  unfold encapsulated_step.
  destruct (vec_at (sites_mask p) (vec_at (sa (fm_index p)) i) =? 0) eqn:Hsite; simpl.
  - (* a row outside any site *)
    destruct (cache_flush cache acc) as [acc1 cache1] eqn:Hf. simpl in *.
    unfold cache_flush, cache_set. simpl.
    exists (i + 1). simpl.
    split. { apply tiles_snoc. exists i. simpl. repeat split; auto; lia. }
    split. { apply Forall_app. split; [exact Fg|]. constructor; [|constructor].
             left. unfold outside_row_state, locus_at. simpl.
             apply Z.eqb_eq in Hsite. auto. }
    split. { apply runs_maximal_snoc. split; [exact Fm|]. simpl.
             intros y Hy Hp. exact Hp. }
    split; [reflexivity|].
    intros y Hy. rewrite last_snoc in Hy. inversion Hy. reflexivity.
  - apply Z.eqb_neq in Hsite.
    destruct Hinv as (b & Ht & Hg & Hm & Hc). simpl in Ht, Hg, Hm, Hc.
    destruct (cache_empty cache) eqn:He.
    + (* a new run starts after an outside row, or at the first row *)
      destruct Hc as [-> Hlast].
      exists i. simpl.
      split; [exact Ht|]. split; [exact Hg|]. split; [exact Hm|].
      split; [reflexivity|]. split; [lia|]. split; [reflexivity|].
      split.
      * exists (vec_at (sites_mask p) (vec_at (sa (fm_index p)) i)),
               (vec_at (allele_mask p) (vec_at (sa (fm_index p)) i)).
        simpl. split; [exact Hsite|]. split; [reflexivity|]. split; [reflexivity|].
        intros j Hj. replace j with i by lia. reflexivity.
      * intros y Hy _. apply Hlast. exact Hy.
    + destruct Hc as (Hb & Hle & Hi & Hrun & Hlast).
      unfold path_eqb.
      destruct (bool_decide _) eqn:Hpe;
        [apply bool_decide_eq_true in Hpe; rename Hpe into Hsame
        |apply bool_decide_eq_false in Hpe; rename Hpe into Hdiff].
      * (* the run is extended by this row *)
        exists b. simpl. try rewrite He. simpl.
        split; [exact Ht|]. split; [exact Hg|]. split; [exact Hm|].
        split; [exact Hb|]. split; [lia|]. split; [reflexivity|].
        split; [|exact Hlast].
        destruct Hrun as (m & a & Hm0 & Hpath & Hstate & Hrows).
        exists m, a. simpl. split; [exact Hm0|]. split; [exact Hpath|].
        split; [exact Hstate|].
        intros j Hj. destruct (Z.eq_dec j i) as [->|Hne].
        -- unfold locus_at. simpl. rewrite Hpath in Hsame. congruence.
        -- apply Hrows. lia.
      * (* the run is closed and a new one starts *)
        unfold cache_flush in *. rewrite He in *. simpl in *.
        exists i. simpl.
        split; [exact Ft|]. split; [exact Fg|]. split; [exact Fm|].
        split; [reflexivity|]. split; [lia|]. split; [reflexivity|].
        split.
        -- exists (vec_at (sites_mask p) (vec_at (sa (fm_index p)) i)),
                  (vec_at (allele_mask p) (vec_at (sa (fm_index p)) i)).
           simpl. split; [exact Hsite|]. split; [reflexivity|]. split; [reflexivity|].
           intros j Hj. replace j with i by lia. reflexivity.
        -- intros y Hy Hp. rewrite last_snoc in Hy. inversion Hy. subst y.
           exfalso. apply Hdiff. symmetry. exact Hp.
Qed.

Lemma encapsulated_fold_inv (p : PRG_Info) (lo : Z) (n : nat) (i : Z)
    (st : SearchStates * SearchStateCache) :
  encapsulated_inv p lo i st ->
  encapsulated_inv p lo (i + Z.of_nat n)
    (fold_left (encapsulated_step p)
       (map (fun k => i + Z.of_nat k) (seq 0 n)) st).
Proof.
  revert i st. induction n as [|n IH]; intros i st Hinv.
  - simpl. replace (i + Z.of_nat 0) with i by lia. exact Hinv.
  - rewrite <- cons_seq, <- seq_shift, map_cons, map_map. simpl fold_left.
    replace (i + Z.of_nat 0) with i by lia.
    replace (i + Z.of_nat (S n)) with ((i + 1) + Z.of_nat n) by lia.
    assert (map (fun k => i + Z.of_nat (S k)) (seq 0 n)
            = map (fun k => (i + 1) + Z.of_nat k) (seq 0 n)) as ->.
    { apply map_ext. intros k. lia. }
    apply IH. apply encapsulated_step_inv. exact Hinv.
Qed.

Lemma handle_allele_encapsulated_state_split (p : PRG_Info) (s : SearchState) :
  fst (sa_interval s) <= snd (sa_interval s) + 1 ->
  encapsulated_split p (fst (sa_interval s)) (snd (sa_interval s))
    (handle_allele_encapsulated_state s p).
Proof.
  intros Hle. unfold handle_allele_encapsulated_state, sa_range.
  set (lo := fst (sa_interval s)) in *. set (hi := snd (sa_interval s)) in *.
  pose proof (encapsulated_fold_inv p lo (Z.to_nat (hi - lo + 1)) lo ([], cache_init))
    as Hinv.
  destruct (fold_left _ _ _) as [acc cache].
  replace (lo + Z.of_nat (Z.to_nat (hi - lo + 1))) with (hi + 1) in Hinv by lia.
  assert (encapsulated_inv p lo lo ([], cache_init)) as Hinit.
  { exists lo. simpl. repeat split; auto. intros y Hy. discriminate. }
  specialize (Hinv Hinit).
  pose proof (encapsulated_inv_flush p lo (hi + 1) acc cache Hinv) as Hflush.
  cbv zeta in Hflush. destruct Hflush as (Ft & Fg & Fm & _).
  split; [exact Ft|]. split; [exact Fg | exact Fm].
Qed.

(** C4.  Finalisation keeps the order of the states; a state with a
    non-empty path is passed through unchanged, and a state with an empty
    path is replaced by its split: the intervals of the split tile the rows
    of the state in order, a row outside any site gives a singleton state
    with empty path, the other states each carry the single locus shared by
    all their rows, and no two neighbouring states carry the same locus. *)
Theorem allele_encapsulated_finalisation (p : PRG_Info) (ss : SearchStates) :
  handle_allele_encapsulated_states ss p
  = flat_map (fun s => match variant_site_path s with
                       | [] => handle_allele_encapsulated_state s p
                       | _ :: _ => [s]
                       end) ss
  /\ forall s,
       In s ss ->
       variant_site_path s = [] ->
       0 <= fst (sa_interval s) <= snd (sa_interval s) ->
       snd (sa_interval s) < UINT64_MAX ->
       encapsulated_split p (fst (sa_interval s)) (snd (sa_interval s))
         (handle_allele_encapsulated_state s p).
Proof.
  split.
  - unfold handle_allele_encapsulated_states.
    assert (forall l init,
              fold_left
                (fun new_search_states search_state =>
                   match variant_site_path search_state with
                   | _ :: _ => new_search_states ++ [search_state]
                   | [] => new_search_states
                             ++ handle_allele_encapsulated_state search_state p
                   end) l init
              = init ++ flat_map (fun s => match variant_site_path s with
                                           | [] => handle_allele_encapsulated_state s p
                                           | _ :: _ => [s]
                                           end) l) as Hgen.
    { induction l as [|s l IH]; intros init; simpl.
      - rewrite app_nil_r. reflexivity.
      - rewrite IH.
        destruct (variant_site_path s); rewrite <- app_assoc; reflexivity. }
    apply Hgen.
  - intros s _ _ Hlo _. apply handle_allele_encapsulated_state_split. lia.
Qed.

Lemma allele_encapsulated_finalisation_witness :
  handle_allele_encapsulated_states
    [search_state_at 0 3 [] outside_variant_site;
     search_state_at 12 12 [(5, 2)] unknown] prg_repeat_allele
  = [search_state_at 0 0 [] outside_variant_site;
     search_state_at 1 3 [(5, 1)] within_variant_site;
     search_state_at 12 12 [(5, 2)] unknown]
  /\ encapsulated_split prg_repeat_allele 0 3
       (handle_allele_encapsulated_state
          (search_state_at 0 3 [] outside_variant_site) prg_repeat_allele).
Proof.
  destruct (allele_encapsulated_finalisation prg_repeat_allele
              [search_state_at 0 3 [] outside_variant_site;
               search_state_at 12 12 [(5, 2)] unknown]) as [Heq Hsplit].
  split.
  - rewrite Heq. vm_compute. reflexivity.
  - apply (Hsplit (search_state_at 0 3 [] outside_variant_site)).
    + left. reflexivity.
    + reflexivity.
    + simpl. lia.
    + reflexivity.
Defined.

(** ** PRG encoding *)

(** C5, on the code.  [encode_prg] has no failure path: a byte that is
    neither a DNA letter nor a digit is taken as a marker digit of value
    [byte - '0'].  The text [a?t] is encoded as [1, 15, 4], and a trailing
    line feed after [a] becomes the symbol [2^32 - 38]. *)
Theorem encode_prg_accepts_invalid_bytes :
  encode_prg "a?t" = [1; 15; 4]
  /\ encode_prg (String "a" (String (ascii_of_nat 10) EmptyString))
     = [1; 4294967258].
Proof. split; vm_compute; reflexivity. Qed.

(** ** Enumeration of all kmers *)

Lemma next_kmer_scan_keeps_reads (fuel : nat) (oob : Z -> Z) (kmer : list Z)
    (idx x : Z) (reads : list Z) :
  In x reads -> In x (snd (next_kmer_scan fuel oob kmer idx reads)).
Proof.
  revert idx reads. induction fuel as [|fuel IH]; intros idx reads Hin; simpl.
  - exact Hin.
  - destruct (_ =? 4).
    + apply IH. apply in_or_app. left. exact Hin.
    + simpl. apply in_or_app. left. exact Hin.
Qed.

Lemma next_kmer_scan_all_fours (n : nat) (oob : Z -> Z) (j fuel : nat)
    (reads : list Z) :
  (j <= n)%nat ->
  In (-1) (snd (next_kmer_scan (S (S j) + fuel) oob (repeat 4 (S n))
                  (Z.of_nat j) reads)).
Proof.
  revert reads. induction j as [|j IH]; intros reads Hj.
  - change (S (S 0) + fuel)%nat with (S (S fuel)).
    cbn [next_kmer_scan]. unfold kmer_read at 1.
    rewrite repeat_length.
    replace ((0 <=? Z.of_nat 0) && (Z.of_nat 0 <? Z.of_nat (S n))) with true
      by (symmetry; apply andb_true_intro; split; [apply Z.leb_le | apply Z.ltb_lt]; lia).
    change (vec_at (repeat 4 (S n)) (Z.of_nat 0)) with 4.
    change (4 =? 4) with true. cbv iota.
    destruct (_ =? 4).
    + apply next_kmer_scan_keeps_reads. apply in_or_app. right. left. reflexivity.
    + simpl. apply in_or_app. right. left. reflexivity.
  - change (S (S (S j)) + fuel)%nat with (S (S (S j) + fuel)).
    cbn [next_kmer_scan]. unfold kmer_read at 1.
    rewrite repeat_length.
    replace ((0 <=? Z.of_nat (S j)) && (Z.of_nat (S j) <? Z.of_nat (S n))) with true
      by (symmetry; apply andb_true_intro; split; [apply Z.leb_le | apply Z.ltb_lt]; lia).
    assert (vec_at (repeat 4 (S n)) (Z.of_nat (S j)) = 4) as ->.
    { unfold vec_at. rewrite Nat2Z.id. apply nth_repeat_lt. lia. }
    change (4 =? 4) with true. cbv iota.
    replace (Z.of_nat (S j) - 1) with (Z.of_nat j) by lia.
    apply IH. lia.
Qed.

(** C9, on the code.  On a kmer made of [4]s only, of any size
    [kmer_size >= 1], the decrement loop of [next_kmer] reads
    [current_kmer[-1]], whatever lies in the memory around the vector: the
    loop has no lower bound on its index. *)
Theorem next_kmer_reads_before_the_kmer (n : nat) (oob : Z -> Z) (fuel : nat) :
  let kmer_size := Z.of_nat (S n) in
  let current_kmer := repeat 4 (S n) in
  In (-1) (snd (next_kmer_scan (S (S n) + fuel) oob current_kmer
                  (kmer_size - 1) [])).
Proof.
  intros kmer_size current_kmer. unfold kmer_size, current_kmer.
  replace (Z.of_nat (S n) - 1) with (Z.of_nat n) by lia.
  apply next_kmer_scan_all_fours. lia.
Qed.

(** With a memory that holds no [4] before the vector the enumeration of
    the kmers of size 2 ends as intended; with a memory of [4]s the scan
    does not stop within any number of steps given to it. *)
Example generate_all_kmers_depends_on_memory :
  generate_all_kmers 40 (fun _ => 0) 2
  = Some [[1; 1]; [1; 2]; [1; 3]; [1; 4]; [2; 1]; [2; 2]; [2; 3]; [2; 4];
          [3; 1]; [3; 2]; [3; 3]; [3; 4]; [4; 1]; [4; 2]; [4; 3]; [4; 4]]
  /\ generate_all_kmers 40 (fun _ => 4) 2 = None.
Proof. split; vm_compute; reflexivity. Qed.

(** ** Prefix diffs *)

Lemma skipn_nth_cons (l : list Z) (i : nat) :
  (i < length l)%nat -> skipn i l = nth i l 0 :: skipn (S i) l.
Proof.
  revert i. induction l as [|x l IH]; intros [|i] Hi; simpl in *; try lia.
  - reflexivity.
  - apply IH. lia.
Qed.

Section PrefixDiff.
Variables kmer prev : list Z.
Variable n : nat.
Hypothesis Hkmer : length kmer = n.
Hypothesis Hprev : length prev = n.

Lemma prefix_diff_step_inv (i : nat) (st : bool * list Z) :
  (i < n)%nat ->
  prefix_diff_inv kmer prev n (S i) st ->
  prefix_diff_inv kmer prev n i (prefix_diff_step kmer prev st i).
Proof.
  intros Hi Hinv. destruct st as [flag d]. unfold prefix_diff_step.
  destruct Hinv as [(Hf & Hd & Hs) | (Hf & m & Hm & Hd & Hne & Hs)];
    simpl in Hf, Hd; subst flag.
  - destruct (Z.eqb_spec (nth i kmer 0) (nth i prev 0)) as [Heq|Hne]; simpl.
    + left. split; [reflexivity|]. split; [exact Hd|].
      rewrite (skipn_nth_cons kmer i), (skipn_nth_cons prev i) by lia.
      rewrite Heq, Hs. reflexivity.
    + right. split; [reflexivity|]. exists i. split; [lia|].
      split; [|split; [exact Hne | exact Hs]].
      subst d. replace (S i - i)%nat with 1%nat by lia.
      rewrite (skipn_nth_cons kmer i) by lia. reflexivity.
  - assert ((if negb (nth i kmer 0 =? nth i prev 0) then true else true) = true)
      as -> by (destruct (negb _); reflexivity).
    right. split; [reflexivity|]. exists m. split; [lia|].
    split; [|split; [exact Hne | exact Hs]].
    simpl. rewrite Hd. rewrite (skipn_nth_cons kmer i) by lia.
    replace (S m - i)%nat with (S (S m - S i)) by lia. reflexivity.
Qed.

Lemma prefix_diff_fold_inv (i : nat) (st : bool * list Z) :
  (i <= n)%nat ->
  prefix_diff_inv kmer prev n i st ->
  prefix_diff_inv kmer prev n 0 (fold_left (prefix_diff_step kmer prev) (rev (seq 0 i)) st).
Proof.
  revert st. induction i as [|i IH]; intros st Hi Hinv.
  - exact Hinv.
  - rewrite seq_S, rev_app_distr. simpl.
    apply IH; [lia|]. apply prefix_diff_step_inv; [lia | exact Hinv].
Qed.

Lemma prefix_diff_through_mismatch :
  diff_through_mismatch (prefix_diff kmer prev) prev kmer.
Proof.
  unfold prefix_diff. rewrite Hprev.
  pose proof (prefix_diff_fold_inv n (false, []) (Nat.le_refl n)) as Hinv.
  destruct (fold_left _ _ _) as [flag d]. simpl.
  assert (prefix_diff_inv kmer prev n n (false, [])) as Hinit.
  { left. simpl. rewrite !skipn_all2 by lia. auto. }
  destruct (Hinv Hinit) as [(Hf & Hd & Hs) | (Hf & m & Hm & Hd & Hne & Hs)];
    cbn [fst snd] in *; subst d.
  - unfold diff_through_mismatch. simpl.
    split; [reflexivity|]. split; [exact Hs|]. intros H. contradiction.
  - rewrite Nat.sub_0_r. change (skipn 0 kmer) with kmer.
    assert (length (firstn (S m) kmer) = S m) as Hlen
      by (rewrite length_take; lia).
    unfold diff_through_mismatch. rewrite Hlen.
    split; [reflexivity|]. split; [exact Hs|].
    intros _. replace (S m - 1)%nat with m by lia. exact Hne.
Qed.
End PrefixDiff.

Lemma diff_through_mismatch_rebuilds (d prev kmer : list Z) :
  diff_through_mismatch d prev kmer -> kmer = apply_prefix_diff prev d.
Proof.
  intros (Hd & Hs & _). unfold apply_prefix_diff.
  rewrite <- Hs. rewrite Hd at 1. symmetry. apply firstn_skipn.
Qed.

Lemma get_prefix_diffs_fold (kmers : list (list Z)) (acc : list (list Z))
    (last_full_kmer : list Z) :
  Forall (fun k => length k = length last_full_kmer) kmers ->
  exists diffs,
    fst (fold_left get_prefix_diffs_step kmers (acc, last_full_kmer)) = acc ++ diffs
    /\ prefix_diffs_of last_full_kmer kmers diffs
    /\ undo_prefix_diffs last_full_kmer diffs = kmers.
Proof.
  revert acc last_full_kmer.
  induction kmers as [|kmer kmers IH]; intros acc last Hlen.
  - exists []. simpl. rewrite app_nil_r. auto.
  - inversion Hlen as [|? ? Hk Hrest]; subst.
    assert (get_prefix_diffs_step (acc, last) kmer
            = (acc ++ [prefix_diff kmer last], kmer)) as Hstep.
    { unfold get_prefix_diffs_step. destruct last as [|b last]; [|reflexivity].
      destruct kmer; [reflexivity | discriminate]. }
    cbn [fold_left]. rewrite Hstep.
    assert (Forall (fun k => length k = length kmer) kmers) as Hrest'.
    { eapply Forall_impl; [exact Hrest|]. simpl. intros k Hk'. congruence. }
    destruct (IH (acc ++ [prefix_diff kmer last]) kmer Hrest')
      as (diffs & Heq & Hof & Hundo).
    pose proof (prefix_diff_through_mismatch kmer last (length last) Hk eq_refl)
      as Hdiff.
    pose proof (diff_through_mismatch_rebuilds _ _ _ Hdiff) as Hrebuild.
    exists (prefix_diff kmer last :: diffs).
    split; [rewrite Heq, <- app_assoc; reflexivity|].
    split; [simpl; auto|].
    simpl. rewrite <- Hrebuild, Hundo. reflexivity.
Qed.

(** C10.  On kmers of one length, the first output of [get_prefix_diffs]
    is the first kmer in full; the output for every later kmer is the part
    of that kmer up to and including its first mismatch from the right
    against the kmer before it; and each kmer is rebuilt from its diff
    followed by what the kmer before it holds beyond the diff, so undoing
    the diffs gives the kmers back. *)
Theorem get_prefix_diffs_round_trip (kmer0 : list Z) (kmers : list (list Z)) :
  Forall (fun k => length k = length kmer0) kmers ->
  exists diffs,
    get_prefix_diffs (kmer0 :: kmers) = kmer0 :: diffs
    /\ prefix_diffs_of kmer0 kmers diffs
    /\ undo_prefix_diffs [] (get_prefix_diffs (kmer0 :: kmers)) = kmer0 :: kmers.
Proof.
  intros Hlen. unfold get_prefix_diffs. cbn [fold_left].
  assert (get_prefix_diffs_step ([], []) kmer0 = ([kmer0], kmer0)) as ->
    by reflexivity.
  destruct (get_prefix_diffs_fold kmers [kmer0] kmer0 Hlen)
    as (diffs & Heq & Hof & Hundo).
  exists diffs. rewrite Heq. change ([kmer0] ++ diffs) with (kmer0 :: diffs).
  split; [reflexivity|]. split; [exact Hof|].
  assert (apply_prefix_diff [] kmer0 = kmer0) as Hfirst.
  { unfold apply_prefix_diff. rewrite skipn_nil, app_nil_r. reflexivity. }
  cbn [undo_prefix_diffs]. rewrite !Hfirst, Hundo. reflexivity.
Qed.

Lemma get_prefix_diffs_round_trip_witness :
  get_prefix_diffs [[1; 1; 2]; [1; 1; 3]; [2; 4; 3]; [2; 4; 3]]
  = [[1; 1; 2]; [1; 1; 3]; [2; 4]; []]
  /\ undo_prefix_diffs []
       (get_prefix_diffs [[1; 1; 2]; [1; 1; 3]; [2; 4; 3]; [2; 4; 3]])
     = [[1; 1; 2]; [1; 1; 3]; [2; 4; 3]; [2; 4; 3]].
Proof.
  destruct (get_prefix_diffs_round_trip [1; 1; 2]
              [[1; 1; 3]; [2; 4; 3]; [2; 4; 3]]) as (diffs & Heq & _ & Hundo).
  - repeat constructor.
  - split; [vm_compute; reflexivity | exact Hundo].
Defined.

(** ** Masks *)

Lemma odd_wrap32_nonzero (x : Z) : x mod 2 <> 0 -> wrap32 x <> 0.
Proof.
  intros Hodd Hz. apply Hodd. unfold wrap32 in Hz.
  rewrite <- (Z.mod_mod_divide x (2 ^ 32) 2).
  - rewrite Hz. reflexivity.
  - exists (2 ^ 31). reflexivity.
Qed.

Lemma nth_insert_Z (l : list Z) (k j : nat) (v : Z) :
  (k < length l)%nat ->
  nth j (<[k := v]> l) 0 = if decide (j = k) then v else nth j l 0.
Proof.
  revert k j. induction l as [|x l IH]; intros k j Hk; simpl in Hk; [lia|].
  destruct k as [|k], j as [|j]; simpl; try reflexivity.
  rewrite IH by lia.
  destruct (decide (j = k)), (decide (S j = S k)); try reflexivity; lia.
Qed.

Lemma count_if_app (f : Z -> bool) (l1 l2 : list Z) :
  count_if f (l1 ++ l2) = (count_if f l1 + count_if f l2)%nat.
Proof.
  induction l1 as [|x l1 IH]; simpl; [reflexivity|].
  destruct (f x); rewrite IH; reflexivity.
Qed.

Lemma count_if_le_length (f : Z -> bool) (l : list Z) :
  (count_if f l <= length l)%nat.
Proof. induction l as [|x l IH]; simpl; [lia|]. destruct (f x); lia. Qed.

Lemma firstn_S_nth (l : list Z) (k : nat) :
  firstn (S k) l = firstn k l ++ (if decide (k < length l)%nat then [nth k l 0] else []).
Proof.
  revert k. induction l as [|x l IH]; intros k.
  - destruct k; reflexivity.
  - destruct k as [|k].
    + reflexivity.
    + change (firstn (S (S k)) (x :: l)) with (x :: firstn (S k) l).
      rewrite IH. simpl.
      destruct (decide (k < length l)%nat), (decide (S k < S (length l))%nat);
        try reflexivity; lia.
Qed.

Lemma count_if_firstn_S (f : Z -> bool) (l : list Z) (k : nat) :
  f 0 = false ->
  count_if f (firstn (S k) l)
  = Nat.add (count_if f (firstn k l)) (if f (nth k l 0) then 1%nat else 0%nat).
Proof.
  intros Hf0. rewrite firstn_S_nth, count_if_app.
  destruct (decide (k < length l)%nat) as [Hlt|Hge]; simpl.
  - destruct (f (nth k l 0)); reflexivity.
  - rewrite nth_overflow by lia. rewrite Hf0. reflexivity.
Qed.

Lemma nth_skipn_plus (l : list Z) (n i : nat) :
  nth i (skipn n l) 0 = nth (n + i) l 0.
Proof.
  revert l. induction n as [|n IH]; intros l; [reflexivity|].
  destruct l as [|x l]; [destruct i; reflexivity|]. simpl. apply IH.
Qed.

Lemma count_if_window_S (f : Z -> bool) (l : list Z) (s k : nat) :
  f 0 = false ->
  (s < k)%nat ->
  count_if f (firstn (S k - S s) (skipn (S s) l))
  = Nat.add (count_if f (firstn (k - S s) (skipn (S s) l)))
            (if f (nth k l 0) then 1%nat else 0%nat).
Proof.
  intros Hf0 Hsk. replace (S k - S s)%nat with (S (k - S s)) by lia.
  rewrite count_if_firstn_S by assumption.
  rewrite nth_skipn_plus. replace (S s + (k - S s))%nat with k by lia.
  reflexivity.
Qed.

Lemma is_site_marker_0 : is_site_marker 0 = false.
Proof. reflexivity. Qed.

Lemma is_allele_marker_0 : is_allele_marker 0 = false.
Proof. reflexivity. Qed.

(** The site markers up to a position inside a site are odd in number. *)
Lemma opens_site_odd (prg : list Z) (s j : nat) :
  opens_site prg s j ->
  Nat.odd (count_if is_site_marker (firstn (S j) prg)) = true.
Proof.
  intros (Hsj & Hmark & Heven & Hnone).
  assert (forall d, (s + d <= j)%nat ->
            count_if is_site_marker (firstn (S (s + d)) prg)
            = S (count_if is_site_marker (firstn s prg))) as Hcount.
  { induction d as [|d IH]; intros Hd.
    - rewrite Nat.add_0_r, count_if_firstn_S by apply is_site_marker_0.
      rewrite Hmark. lia.
    - replace (s + S d)%nat with (S (s + d)) by lia.
      rewrite count_if_firstn_S by apply is_site_marker_0.
      rewrite IH by lia. rewrite (Hnone (S (s + d))) by lia. lia. }
  specialize (Hcount (j - s)%nat ltac:(lia)).
  replace (s + (j - s))%nat with j in Hcount by lia.
  rewrite Hcount, Nat.odd_succ. exact Heven.
Qed.

Lemma opens_site_unique (prg : list Z) (s s' j : nat) :
  opens_site prg s j -> opens_site prg s' j -> s = s'.
Proof.
  intros (Hsj & Hmark & _ & Hnone) (Hsj' & Hmark' & _ & Hnone').
  destruct (Nat.lt_trichotomy s s') as [Hlt | [Heq | Hgt]]; [|exact Heq|].
  - rewrite (Hnone s') in Hmark' by lia. discriminate.
  - rewrite (Hnone' s) in Hmark by lia. discriminate.
Qed.
Lemma is_site_marker_gt (c : Z) : is_site_marker c = true -> ~ c <= 4.
Proof. unfold is_site_marker. intros H. apply andb_prop in H as [H _]. lia. Qed.

Lemma masks_scan_step (prg : list Z) (k : nat) (ss : SitesMaskState)
    (als : AlleleMaskState) :
  (k < length prg)%nat ->
  masks_scan_inv prg k ss als ->
  masks_scan_inv prg (S k) (sites_mask_step ss k (nth k prg 0))
    (allele_mask_step als k (nth k prg 0)).
Proof.
  intros Hk (Hls & Hla & Hsw & Haw & Hcur & Hval & Hnz).
  pose proof (count_if_firstn_S is_site_marker prg k is_site_marker_0) as Hcnt.
  set (c := nth k prg 0) in *.
  assert (forall j s, opens_site prg s j -> j = k -> c <= 4 ->
            sm_within_variant_site ss = true) as Hopen_k.
  { intros j s Hopen -> Hc4. rewrite Hsw.
    pose proof (opens_site_odd _ _ _ Hopen) as Hodd.
    rewrite Hcnt in Hodd. fold c in Hodd.
    destruct (is_site_marker c) eqn:Hm.
    - apply is_site_marker_gt in Hm. lia.
    - rewrite Nat.add_0_r in Hodd. exact Hodd. }
  unfold sites_mask_step, allele_mask_step.
  change ((4 <? c) && negb (c mod 2 =? 0)) with (is_site_marker c).
  change ((4 <? c) && (c mod 2 =? 0)) with (is_allele_marker c).
  rewrite Haw, <- Hsw.
  destruct (is_site_marker c) eqn:Hmark.
  - (* a site marker *)
    pose proof (is_site_marker_gt _ Hmark) as Hgt.
    apply (f_equal Nat.odd) in Hcnt.
    rewrite Nat.add_1_r, Nat.odd_succ, <- Nat.negb_odd, <- Hsw in Hcnt.
    destruct (sm_within_variant_site ss) eqn:Hin; simpl andb; cbv iota;
      unfold masks_scan_inv; cbn [sm_mask am_mask sm_within_variant_site
        am_within_variant_site current_site_marker current_allele_id];
      (split; [exact Hls|]); (split; [exact Hla|]);
      (split; [symmetry; exact Hcnt|]); (split; [symmetry; exact Hcnt|]).
    + split; [discriminate|]. split.
      * intros j s Hj Hopen Hj4.
        destruct (decide (j = k)) as [->|Hne]; [fold c in Hj4; lia|].
        apply Hval; [lia | exact Hopen | exact Hj4].
      * intros j Hj. destruct (Hnz j Hj) as (? & ? & ?). repeat split; auto; lia.
    + split.
      * intros _. exists k. split; [lia|]. split; [exact Hmark|]. split.
        { rewrite <- Nat.negb_odd, <- Hsw. reflexivity. }
        split; [intros t Ht; lia|]. split; [reflexivity|].
        replace (S k - S k)%nat with 0%nat by lia. reflexivity.
      * split.
        { intros j s Hj Hopen Hj4.
          destruct (decide (j = k)) as [->|Hne]; [fold c in Hj4; lia|].
          apply Hval; [lia | exact Hopen | exact Hj4]. }
        { intros j Hj. destruct (Hnz j Hj) as (? & ? & ?).
          repeat split; auto; lia. }
  - (* a base or an allele marker *)
    rewrite Nat.add_0_r in Hcnt.
    simpl andb; cbv iota.
    destruct ((c <=? 4) && sm_within_variant_site ss) eqn:Hwithin.
    + (* a base within a site *)
      apply andb_prop in Hwithin as [Hc4 Hin]. apply Z.leb_le in Hc4.
      destruct (Hcur Hin) as (s & Hsk & Hsm & Hse & Hsnone & Hscur & Hsid).
      assert (opens_site prg s k) as Hopen_s.
      { split; [exact Hsk|]. split; [exact Hsm|]. split; [exact Hse|].
        intros t Ht. destruct (decide (t = k)) as [->|Hne]; [exact Hmark|].
        apply Hsnone. lia. }
      assert (is_allele_marker c = false) as Hnot_allele.
      { unfold is_allele_marker. replace (4 <? c) with false; [reflexivity|].
        symmetry. apply Z.ltb_ge. exact Hc4. }
      assert (wrap32 (current_allele_id als) = current_allele_id als) as Hwrap.
      { rewrite Hsid. unfold wrap32. apply Z.mod_mod. lia. }
      unfold masks_scan_inv; cbn [sm_mask am_mask sm_within_variant_site
        am_within_variant_site current_site_marker current_allele_id].
      rewrite !length_insert.
      split; [exact Hls|]. split; [exact Hla|].
      split; [rewrite Hcnt; exact Hsw|]. split; [rewrite Hcnt; exact Hsw|].
      split.
      * intros _. exists s. split; [lia|]. split; [exact Hsm|].
        split; [exact Hse|]. split.
        { intros t Ht. destruct (decide (t = k)) as [->|Hne]; [exact Hmark|].
          apply Hsnone. lia. }
        split; [exact Hscur|].
        rewrite (count_if_window_S is_allele_marker prg s k is_allele_marker_0 Hsk).
        fold c. rewrite Hnot_allele, Nat.add_0_r. exact Hsid.
      * split.
        { intros j s' Hj Hopen Hj4.
          rewrite !nth_insert_Z by lia.
          destruct (decide (j = k)) as [->|Hne].
          - pose proof (opens_site_unique _ _ _ _ Hopen Hopen_s) as ->.
            rewrite Hwrap, Hscur. split; [reflexivity | exact Hsid].
          - apply Hval; [lia | exact Hopen | exact Hj4]. }
        { intros j. rewrite !nth_insert_Z by lia.
          destruct (decide (j = k)) as [->|Hne].
          - intros _. split; [lia|]. split; [exact Hc4|]. exists s. exact Hopen_s.
          - intros Hj. destruct (Hnz j Hj) as (? & ? & ?).
            repeat split; auto; lia. }
    + (* outside a site, or an allele marker *)
      assert (forall j s, (j < S k)%nat -> opens_site prg s j -> nth j prg 0 <= 4 ->
                (j < k)%nat) as Hbelow.
      { intros j s Hj Hopen Hj4.
        destruct (decide (j = k)) as [->|Hne]; [|lia].
        fold c in Hj4. rewrite (Hopen_k k s Hopen eq_refl Hj4) in Hwithin.
        apply Z.leb_le in Hj4. rewrite Hj4 in Hwithin. discriminate. }
      destruct (is_allele_marker c) eqn:Hallele;
        unfold masks_scan_inv; cbn [sm_mask am_mask sm_within_variant_site
          am_within_variant_site current_site_marker current_allele_id];
        (split; [exact Hls|]); (split; [exact Hla|]).
      * split; [rewrite Hcnt; exact Hsw|]. split; [rewrite Hcnt; exact Hsw|].
        split.
        { intros Hin.
          destruct (Hcur Hin) as (s & Hsk & Hsm & Hse & Hsnone & Hscur & Hsid).
          exists s. split; [lia|]. split; [exact Hsm|].
          split; [exact Hse|]. split.
          { intros t Ht. destruct (decide (t = k)) as [->|Hne]; [exact Hmark|].
            apply Hsnone. lia. }
          split; [exact Hscur|].
          rewrite (count_if_window_S is_allele_marker prg s k is_allele_marker_0 Hsk).
          fold c. rewrite Hallele, Hsid. unfold wrap32.
          rewrite Zplus_mod_idemp_l. f_equal. lia. }
        split.
        { intros j s Hj Hopen Hj4. apply Hval; [eapply Hbelow; eauto | exact Hopen | exact Hj4]. }
        { intros j Hj. destruct (Hnz j Hj) as (? & ? & ?).
          repeat split; auto; lia. }
      * destruct als as [mask id within]; cbn in *.
        split; [rewrite Hcnt; exact Hsw|]. split; [rewrite Hcnt; exact Haw|].
        split.
        { intros Hin.
          destruct (Hcur Hin) as (s & Hsk & Hsm & Hse & Hsnone & Hscur & Hsid).
          rewrite Hin, andb_true_r in Hwithin. apply Z.leb_gt in Hwithin.
          unfold is_site_marker in Hmark. unfold is_allele_marker in Hallele.
          apply Z.ltb_lt in Hwithin. rewrite Hwithin in Hmark, Hallele.
          destruct (c mod 2 =? 0); discriminate. }
        split.
        { intros j s Hj Hopen Hj4. apply Hval; [eapply Hbelow; eauto | exact Hopen | exact Hj4]. }
        { intros j Hj. destruct (Hnz j Hj) as (? & ? & ?).
          repeat split; auto; lia. }
Qed.
Lemma skipn_cons_nth (prg : list Z) (k : nat) (c : Z) (rest : list Z) :
  skipn k prg = c :: rest ->
  (k < length prg)%nat /\ nth k prg 0 = c /\ skipn (S k) prg = rest.
Proof.
  revert k. induction prg as [|x prg IH]; intros k H.
  - destruct k; discriminate.
  - destruct k as [|k]; simpl in *.
    + inversion H. repeat split. lia.
    + destruct (IH k H) as (? & ? & ?). repeat split; auto. lia.
Qed.

Lemma masks_scan_loop (prg rest : list Z) (k : nat) (ss : SitesMaskState)
    (als : AlleleMaskState) :
  skipn k prg = rest ->
  (k <= length prg)%nat ->
  masks_scan_inv prg k ss als ->
  masks_scan_inv prg (length prg) (sites_mask_loop rest k ss)
    (allele_mask_loop rest k als).
Proof.
  revert k ss als.
  induction rest as [|c rest IH]; intros k ss als Hrest Hk Hinv; simpl.
  - assert (k = length prg) as <-; [|exact Hinv].
    apply (f_equal (@length Z)) in Hrest. rewrite length_skipn in Hrest.
    simpl in Hrest. lia.
  - destruct (skipn_cons_nth _ _ _ _ Hrest) as (Hlt & Hc & Hrest').
    apply (IH (S k)); [exact Hrest' | lia |].
    rewrite <- Hc. apply masks_scan_step; assumption.
Qed.

Lemma masks_scan_final (prg : list Z) :
  masks_scan_inv prg (length prg)
    (sites_mask_loop prg 0
       {| sm_mask := repeat 0 (length prg); current_site_marker := 0;
          sm_within_variant_site := false |})
    (allele_mask_loop prg 0
       {| am_mask := repeat 0 (length prg); current_allele_id := 1;
          am_within_variant_site := false |}).
Proof.
  apply masks_scan_loop; [reflexivity | lia |].
  unfold masks_scan_inv; cbn [sm_mask am_mask sm_within_variant_site
    am_within_variant_site current_site_marker current_allele_id].
  rewrite !repeat_length.
  repeat split; try discriminate; try lia.
  - destruct H as [H|H]; exfalso; apply H; apply nth_repeat.
  - destruct H as [H|H]; exfalso; apply H; apply nth_repeat.
  - destruct H as [H|H]; exfalso; apply H; apply nth_repeat.
Qed.

Lemma is_site_marker_odd (c : Z) : is_site_marker c = true -> c mod 2 <> 0.
Proof.
  unfold is_site_marker. intros H. apply andb_prop in H as [_ H].
  destruct (Z.eqb_spec (c mod 2) 0); [discriminate | assumption].
Qed.

(** C6, as the code has it.  The masks of one PRG are non-zero at the same
    positions, as long as no site of the PRG holds [2^32 - 1] allele
    markers or more: the allele id is counted in a [uint32_t]. *)
Theorem masks_nonzero_together (encoded_prg : list Z) (i : Z) :
  allele_ids_within_32_bits encoded_prg ->
  vec_at (generate_sites_mask encoded_prg) i <> 0
  <-> vec_at (generate_allele_mask encoded_prg) i <> 0.
Proof.
  intros Hids.
  destruct (masks_scan_final encoded_prg) as (_ & _ & _ & _ & _ & Hval & Hnz).
  unfold generate_sites_mask, generate_allele_mask, vec_at.
  set (j := Z.to_nat i).
  split; intros Hnonzero.
  - destruct (Hnz j (or_introl Hnonzero)) as (Hj & Hbase & s & Hopen).
    destruct (Hval j s Hj Hopen Hbase) as [_ ->].
    specialize (Hids s j Hopen).
    unfold wrap32. rewrite Z.mod_small by lia. lia.
  - destruct (Hnz j (or_intror Hnonzero)) as (Hj & Hbase & s & Hopen).
    destruct (Hval j s Hj Hopen Hbase) as [-> _].
    apply odd_wrap32_nonzero, is_site_marker_odd. apply Hopen.
Qed.

Lemma masks_nonzero_together_witness :
  vec_at (generate_sites_mask (encode_prg "a5g6t5c")) 2 <> 0
  <-> vec_at (generate_allele_mask (encode_prg "a5g6t5c")) 2 <> 0.
Proof.
  apply masks_nonzero_together. intros s j _.
  pose proof (count_if_le_length is_allele_marker
                (firstn (j - S s) (skipn (S s) (encode_prg "a5g6t5c")))) as Hle.
  rewrite length_firstn, length_skipn in Hle.
  change (length (encode_prg "a5g6t5c")) with 7%nat in Hle. lia.
Defined.

Lemma count_if_repeat_allele_marker (n : nat) :
  count_if is_allele_marker (repeat 6 n) = n.
Proof. induction n as [|n IH]; [reflexivity|]. cbn. rewrite IH. reflexivity. Qed.

Lemma nth_repeat_lt (v d : Z) (n j : nat) :
  (j < n)%nat -> nth j (repeat v n) d = v.
Proof.
  revert j. induction n as [|n IH]; intros j Hj; [lia|].
  destruct j as [|j]; [reflexivity|]. cbn. apply IH. lia.
Qed.

(** The masks of a site of [n] allele markers followed by a base, at the
    base. *)
Lemma masks_after_allele_markers (n : nat) :
  let encoded_prg := 5 :: repeat 6 n ++ [1; 5] in
  nth (S n) (generate_sites_mask encoded_prg) 0 = 5
  /\ nth (S n) (generate_allele_mask encoded_prg) 0 = wrap32 (1 + Z.of_nat n).
Proof.
  intros encoded_prg.
  destruct (masks_scan_final encoded_prg) as (_ & _ & _ & _ & _ & Hval & _).
  assert (nth (S n) encoded_prg 0 = 1) as Hbase.
  { unfold encoded_prg. cbn [nth].
    rewrite app_nth2 by (rewrite repeat_length; lia).
    rewrite repeat_length, Nat.sub_diag. reflexivity. }
  assert (opens_site encoded_prg 0 (S n)) as Hopen.
  { split; [lia|]. split; [reflexivity|]. split; [reflexivity|].
    intros t Ht. destruct t as [|t]; [lia|].
    unfold encoded_prg. cbn [nth].
    destruct (Nat.eq_dec t n) as [->|Hne].
    - rewrite app_nth2 by (rewrite repeat_length; lia).
      rewrite repeat_length, Nat.sub_diag. reflexivity.
    - rewrite app_nth1 by (rewrite repeat_length; lia).
      rewrite nth_repeat_lt by lia. reflexivity. }
  assert (S n < length encoded_prg)%nat as Hlen.
  { unfold encoded_prg. cbn [length]. rewrite length_app, repeat_length.
    cbn [length]. lia. }
  destruct (Hval (S n) 0%nat Hlen Hopen ltac:(lia)) as [Hsites Halleles].
  unfold generate_sites_mask, generate_allele_mask.
  split.
  - rewrite Hsites. reflexivity.
  - rewrite Halleles. f_equal. f_equal. f_equal.
    replace (S n - 1)%nat with n by lia.
    unfold encoded_prg.
    change (skipn 1 (5 :: repeat 6 n ++ [1; 5])) with (repeat 6 n ++ [1; 5]).
    rewrite firstn_app, repeat_length, Nat.sub_diag, firstn_O, app_nil_r.
    rewrite firstn_all2 by (rewrite repeat_length; lia).
    apply count_if_repeat_allele_marker.
Qed.

(** C6 as stated does not hold: in a site of [2^32 - 1] allele markers the
    allele id has come back to zero at the base that follows them, where the
    sites mask holds the site marker. *)
Lemma masks_nonzero_apart_counterexample :
  let encoded_prg := 5 :: repeat 6 (Z.to_nat (2 ^ 32 - 1)) ++ [1; 5] in
  vec_at (generate_sites_mask encoded_prg) (2 ^ 32) <> 0
  /\ vec_at (generate_allele_mask encoded_prg) (2 ^ 32) = 0.
Proof.
  intros encoded_prg. unfold vec_at.
  replace (Z.to_nat (2 ^ 32)) with (S (Z.to_nat (2 ^ 32 - 1))) by lia.
  destruct (masks_after_allele_markers (Z.to_nat (2 ^ 32 - 1))) as [Hsites Halleles].
  fold encoded_prg in Hsites, Halleles.
  rewrite Hsites, Halleles. split; [discriminate|].
  rewrite Z2Nat.id by lia. unfold wrap32.
  replace (1 + (2 ^ 32 - 1)) with (2 ^ 32) by lia.
  apply Z.mod_same. lia.
Qed.

(** ** Coverage *)

Lemma alter_alter_comm {A} (f g : A -> A) (i j : nat) (l : list A) :
  (forall x, f (g x) = g (f x)) ->
  alter f i (alter g j l) = alter g j (alter f i l).
Proof.
  intros Hfg. destruct (decide (i = j)) as [->|Hne].
  - rewrite !list_alter_alter_eq. apply list_alter_ext; [|reflexivity].
    intros x _. apply Hfg.
  - apply list_alter_alter_ne. exact Hne.
Qed.

Lemma map_alter_same {A B} (h : A -> B) (f : A -> A) (i : nat) (l : list A) :
  (forall x, h (f x) = h x) -> map h (alter f i l) = map h l.
Proof.
  intros Hf. revert i. induction l as [|x l IH]; intros [|i]; try reflexivity.
  - cbn. rewrite Hf. reflexivity.
  - cbn. f_equal. apply IH.
Qed.

Section Coverage.
Variable counter_max : Z.

Lemma group_bump_comm (k1 k2 : list Z) (g : gmap (list Z) Z) :
  <[k1 := bump counter_max (default 0 (<[k2 := bump counter_max (default 0 (g !! k2))]> g !! k1))]>
    (<[k2 := bump counter_max (default 0 (g !! k2))]> g)
  = <[k2 := bump counter_max (default 0 (<[k1 := bump counter_max (default 0 (g !! k1))]> g !! k2))]>
      (<[k1 := bump counter_max (default 0 (g !! k1))]> g).
Proof.
  destruct (decide (k1 = k2)) as [->|Hne]; [reflexivity|].
  rewrite !lookup_insert_ne by congruence.
  apply insert_insert_ne. congruence.
Qed.

Lemma apply_update_comm (u1 u2 : Update) (c : Coverage) :
  apply_update counter_max u1 (apply_update counter_max u2 c)
  = apply_update counter_max u2 (apply_update counter_max u1 c).
Proof.
  destruct c as [sums bases groups].
  destruct u1 as [s1 a1 b1 | s1 a1 | s1 k1], u2 as [s2 a2 b2 | s2 a2 | s2 k2];
    unfold apply_update, set_allele_base_coverage, set_allele_sum_coverage,
      set_grouped_allele_counts; simpl; try reflexivity; f_equal.
  - apply alter_alter_comm. intros site.
    apply alter_alter_comm. intros allele.
    apply alter_alter_comm. intros x. reflexivity.
  - apply alter_alter_comm. intros site.
    apply alter_alter_comm. intros x. reflexivity.
  - apply alter_alter_comm. intros g. apply group_bump_comm.
Qed.

Lemma apply_updates_app (us1 us2 : list Update) (c : Coverage) :
  apply_updates counter_max (us1 ++ us2) c
  = apply_updates counter_max us2 (apply_updates counter_max us1 c).
Proof. unfold apply_updates. apply fold_left_app. Qed.

Lemma apply_updates_cons (u : Update) (us : list Update) (c : Coverage) :
  apply_updates counter_max (u :: us) c
  = apply_updates counter_max us (apply_update counter_max u c).
Proof. reflexivity. Qed.

Lemma apply_update_updates_comm (u : Update) (us : list Update) (c : Coverage) :
  apply_update counter_max u (apply_updates counter_max us c)
  = apply_updates counter_max us (apply_update counter_max u c).
Proof.
  revert c. induction us as [|v us IH]; intros c; [reflexivity|].
  rewrite !apply_updates_cons, IH, apply_update_comm. reflexivity.
Qed.

Lemma apply_updates_comm (us1 us2 : list Update) (c : Coverage) :
  apply_updates counter_max us1 (apply_updates counter_max us2 c)
  = apply_updates counter_max us2 (apply_updates counter_max us1 c).
Proof.
  revert c. induction us1 as [|u us1 IH]; intros c; [reflexivity|].
  rewrite !apply_updates_cons, apply_update_updates_comm, IH. reflexivity.
Qed.

Lemma base_shape_apply_update (u : Update) (c : Coverage) :
  base_shape (apply_update counter_max u c) = base_shape c.
Proof.
  destruct u as [s a b | s a | s k]; unfold base_shape; simpl; try reflexivity.
  apply map_alter_same. intros site.
  apply map_alter_same. intros allele.
  apply length_alter.
Qed.

Lemma base_shape_apply_updates (us : list Update) (c : Coverage) :
  base_shape (apply_updates counter_max us c) = base_shape c.
Proof.
  revert c. induction us as [|u us IH]; intros c; [reflexivity|].
  rewrite apply_updates_cons, IH. apply base_shape_apply_update.
Qed.

(** *** Recording is planned *)

Lemma planned_ret {X} (x : X) : planned counter_max (rec_ret x).
Proof. intros shape. exists (Some (x, [])). intros c _. reflexivity. Qed.

Lemma planned_bind {X Y} (m : Rec X) (k : X -> Rec Y) :
  planned counter_max m ->
  (forall x, planned counter_max (k x)) ->
  planned counter_max (rec_bind m k).
Proof.
  intros Hm Hk shape. destruct (Hm shape) as [[[x us]|] Hr].
  - destruct (Hk x shape) as [[[y us']|] Hr'].
    + exists (Some (y, us ++ us')). intros c Hc. unfold rec_bind.
      rewrite (Hr c Hc).
      rewrite (Hr' (apply_updates counter_max us c))
        by (rewrite base_shape_apply_updates; exact Hc).
      rewrite apply_updates_app. reflexivity.
    + exists None. intros c Hc. unfold rec_bind. rewrite (Hr c Hc).
      apply Hr'. rewrite base_shape_apply_updates. exact Hc.
  - exists None. intros c Hc. unfold rec_bind. rewrite (Hr c Hc). reflexivity.
Qed.

Lemma planned_fold {A S} (f : S -> A -> Rec S) (l : list A) (s : S) :
  (forall s a, planned counter_max (f s a)) ->
  planned counter_max (rec_fold f l s).
Proof.
  intros Hf. revert s. induction l as [|a l IH]; intros s; simpl.
  - apply planned_ret.
  - apply planned_bind; [apply Hf | intros s'; apply IH].
Qed.

Lemma planned_allele_coverage_size (site allele : Z) :
  planned counter_max (allele_coverage_size site allele).
Proof.
  intros shape.
  exists (match shape !! Z.to_nat site with
          | None => None
          | Some sizes =>
              match sizes !! Z.to_nat allele with
              | None => None
              | Some n => Some (Z.of_nat n, [])
              end
          end).
  intros c <-. unfold allele_coverage_size, base_shape.
  change (@map) with (@fmap list _) at 1.
  rewrite list_lookup_fmap.
  destruct (allele_base_coverage c !! Z.to_nat site) as [sc|]; simpl;
    [|reflexivity].
  change (@map) with (@fmap list _) at 1.
  rewrite list_lookup_fmap.
  destruct (sc !! Z.to_nat allele) as [ac|]; reflexivity.
Qed.

Lemma planned_increment_base (site allele i : Z) :
  planned counter_max (increment_base site allele i).
Proof.
  intros shape.
  exists (Some (tt, [IncBase (Z.to_nat site) (Z.to_nat allele) (Z.to_nat i)])).
  intros c _. reflexivity.
Qed.

Lemma planned_increment_allele_sum (locus : VariantLocus) :
  planned counter_max (increment_allele_sum counter_max locus).
Proof.
  intros shape.
  exists (Some (tt, [IncSum (Z.to_nat (site_index (fst locus)))
                            (Z.to_nat (wrap64 (snd locus - 1)))])).
  intros c _. reflexivity.
Qed.

Lemma planned_increment_group (site_marker : Z) (ids : list Z) :
  planned counter_max (increment_group counter_max site_marker ids).
Proof.
  intros shape.
  exists (Some (tt, [IncGroup (Z.to_nat (site_index site_marker)) ids])).
  intros c _. reflexivity.
Qed.
Lemma planned_set_site_base_coverage (boundaries : SitesCoverageBoundaries)
    (path_element : VariantLocus) (offset max_bases : Z) :
  planned counter_max
    (set_site_base_coverage boundaries path_element offset max_bases).
Proof.
  unfold set_site_base_coverage.
  apply planned_bind; [apply planned_allele_coverage_size|]. intros size.
  apply planned_bind; [|intros; apply planned_ret].
  apply planned_fold. intros. apply planned_increment_base.
Qed.

Lemma planned_walk_path (read_length : Z) (prg_info : PRG_Info)
    (path : VariantSitePath) (ws : WalkState) :
  planned counter_max (walk_path read_length prg_info path ws).
Proof.
  revert ws. induction path as [|path_element rest IH]; intros ws; simpl.
  - apply planned_ret.
  - destruct (read_bases_consumed ws <? read_length); [|apply planned_ret].
    apply planned_bind; [apply planned_set_site_base_coverage|].
    intros result. apply IH.
Qed.

Lemma planned_sa_index_allele_base_coverage
    (boundaries : SitesCoverageBoundaries) (sa_index read_length : Z)
    (search_state : SearchState) (prg_info : PRG_Info) :
  planned counter_max
    (sa_index_allele_base_coverage boundaries sa_index read_length
       search_state prg_info).
Proof.
  unfold sa_index_allele_base_coverage.
  destruct (variant_site_path search_state) as [|path_element rest];
    [apply planned_ret|].
  apply planned_bind; [|intros; apply planned_ret].
  destruct (negb _).
  - apply planned_bind; [apply planned_set_site_base_coverage|].
    intros result. apply planned_walk_path.
  - apply planned_walk_path.
Qed.

Lemma planned_allele_base (search_states : SearchStates) (read_length : Z)
    (prg_info : PRG_Info) :
  planned counter_max (allele_base search_states read_length prg_info).
Proof.
  unfold allele_base.
  apply planned_bind; [|intros; apply planned_ret].
  apply planned_fold. intros boundaries search_state.
  destruct (variant_site_path search_state); [apply planned_ret|].
  apply planned_fold. intros. apply planned_sa_index_allele_base_coverage.
Qed.

Lemma planned_allele_sum (search_states : SearchStates) :
  planned counter_max (allele_sum counter_max search_states).
Proof.
  unfold allele_sum. apply planned_fold. intros _ search_state.
  apply planned_fold. intros. apply planned_increment_allele_sum.
Qed.

Lemma planned_grouped_allele_counts_record (search_states : SearchStates) :
  planned counter_max (grouped_allele_counts_record counter_max search_states).
Proof.
  unfold grouped_allele_counts_record. apply planned_fold. intros.
  apply planned_increment_group.
Qed.

Lemma planned_record_search_states (search_states : SearchStates)
    (read_length : Z) (prg_info : PRG_Info) :
  planned counter_max
    (record_search_states counter_max search_states read_length prg_info).
Proof.
  unfold record_search_states.
  apply planned_bind; [apply planned_allele_sum|]. intros _.
  apply planned_bind; [apply planned_allele_base|]. intros _.
  apply planned_grouped_allele_counts_record.
Qed.

(** Two planned recordings can be run in either order. *)
Lemma planned_swap {Y} (m1 m2 : Rec unit) (k : unit -> Rec Y) (c : Coverage) :
  planned counter_max m1 ->
  planned counter_max m2 ->
  rec_bind m1 (fun _ => rec_bind m2 k) c
  = rec_bind m2 (fun _ => rec_bind m1 k) c.
Proof.
  intros H1 H2.
  destruct (H1 (base_shape c)) as [r1 Hr1].
  destruct (H2 (base_shape c)) as [r2 Hr2].
  unfold rec_bind.
  rewrite (Hr1 c eq_refl), (Hr2 c eq_refl).
  destruct r1 as [[[] us1]|], r2 as [[[] us2]|].
  - rewrite (Hr2 (apply_updates counter_max us1 c))
      by apply base_shape_apply_updates.
    rewrite (Hr1 (apply_updates counter_max us2 c))
      by apply base_shape_apply_updates.
    rewrite apply_updates_comm. reflexivity.
  - rewrite (Hr2 (apply_updates counter_max us1 c))
      by apply base_shape_apply_updates.
    reflexivity.
  - rewrite (Hr1 (apply_updates counter_max us2 c))
      by apply base_shape_apply_updates.
    reflexivity.
  - reflexivity.
Qed.

(** C7.  The reads being given by their final search states and lengths,
    recording them in two orders that are permutations of each other
    ends in the same coverage: the same allele sums, the same base
    counters, saturated ones included, and the same grouped allele
    counts; and if one order leaves by an exception, so does the
    other. *)
Theorem coverage_independent_of_read_order (prg_info : PRG_Info)
    (reads reads' : list (SearchStates * Z)) :
  Permutation reads reads' ->
  forall c : Coverage,
    record_reads counter_max reads prg_info c
    = record_reads counter_max reads' prg_info c.
Proof.
  unfold record_reads.
  induction 1 as [|read l l' Hperm IH|read1 read2 l|l l' l'' _ IH1 _ IH2];
    intros c.
  - reflexivity.
  - simpl. unfold rec_bind.
    destruct (record_search_states _ _ _ _ c) as [[[] c']|]; [apply IH | reflexivity].
  - cbn [rec_fold].
    apply (planned_swap _ _ (fun s => rec_fold _ l s));
      apply planned_record_search_states.
  - rewrite IH1. apply IH2.
Qed.
End Coverage.

Lemma coverage_independent_of_read_order_witness :
  record_reads 65535 [read_first_alleles; read_last_alleles]
    prg_two_sites empty_coverage_two_sites
  = record_reads 65535 [read_last_alleles; read_first_alleles]
      prg_two_sites empty_coverage_two_sites.
Proof.
  apply (coverage_independent_of_read_order 65535 prg_two_sites
           [read_first_alleles; read_last_alleles]
           [read_last_alleles; read_first_alleles]).
  apply perm_swap.
Defined.

(** What the two reads leave in the allele sums and in the base counters. *)
Example record_reads_two_sites :
  option_map (fun r => (allele_sum_coverage (snd r), allele_base_coverage (snd r)))
    (record_reads 65535 [read_first_alleles; read_last_alleles]
       prg_two_sites empty_coverage_two_sites)
  = Some ([[1; 0; 1]; [1; 1]], [[[1]; [0]; [1]]; [[1; 1]; [1]]]).
Proof. vm_compute. reflexivity. Qed.

(** The grouped allele counts of the unit test
    [MultipleSetsOfSearchStates_CorrectCoverage]. *)
Example grouped_allele_counts_unit_test :
  option_map (fun r => grouped_allele_counts (snd r))
    (rec_bind
       (grouped_allele_counts_record 65535
          [search_state_at 1 2 [(5, 3)] unknown;
           search_state_at 1 2 [(5, 1); (7, 2)] unknown])
       (fun _ =>
          grouped_allele_counts_record 65535
            [search_state_at 1 2 [(5, 4)] unknown;
             search_state_at 1 2 [(5, 1); (7, 2)] unknown])
       empty_coverage_two_sites)
  = Some [ <[ [0; 2] := 1 ]> (<[ [0; 3] := 1 ]> ∅); <[ [1] := 2 ]> ∅ ].
Proof. vm_compute. reflexivity. Qed.

(** C8, on the code.  The PRG [t5aacaaag6c5t] and the read [aa]: the read
    maps three times inside the first allele of site 5, at the offsets 3, 0
    and 4 in the order of the suffix array.  Backward search and
    finalisation give one state with the three rows and the path
    [(5, 1)].  Recording it, the hit at offset 0 lowers the end recorded
    for the locus from 5 to 2, and the hit at offset 4 then increments the
    base 4 again: after this single read its counter is 2. *)
Theorem allele_base_increments_base_twice :
  search_base_backwards 1 [search_state_at 0 13 [] outside_variant_site]
    prg_repeat_allele
  = [search_state_at 1 5 [] outside_variant_site]
  /\ process_read_char_search_states 1
       [search_state_at 1 5 [] outside_variant_site] prg_repeat_allele
     = [search_state_at 1 3 [] outside_variant_site]
  /\ handle_allele_encapsulated_states
       [search_state_at 1 3 [] outside_variant_site] prg_repeat_allele
     = [search_state_at 1 3 [(5, 1)] within_variant_site]
  /\ map (fun row => allele_start_offset_index
                       (vec_at (sa (fm_index prg_repeat_allele)) row)
                       prg_repeat_allele) [1; 2; 3]
     = [3; 0; 4]
  /\ allele_base_structure 1 prg_repeat_allele
     = Some [[[0; 0; 0; 0; 0; 0; 0]; [0]]]
  /\ option_map (fun r => allele_base_coverage (snd r))
       (allele_base [search_state_at 1 3 [(5, 1)] within_variant_site] 2
          prg_repeat_allele
          (base_coverage_of [[[0; 0; 0; 0; 0; 0; 0]; [0]]]))
     = Some [[[0; 0; 0; 1; 2; 1; 0]; [0]]].
Proof. vm_compute. repeat split. Qed.

(** * Further properties of the code *)

(** ** Search *)

(** X1.  For a state whose interval lies within the rows 0 to [2^31 - 1]:
    a row [i] of the interval whose BWT symbol is an odd site marker [m],
    the marker sitting at the start of its site, gives exactly one state.
    Its interval is the SA row of the marker, its site state is
    [outside_variant_site], and the locus [(m, 1)] is prepended exactly
    when the path of the state is empty and the state is not marked
    [within_variant_site]. *)
Theorem exiting_site_one_state (p : PRG_Info) (s : SearchState) (i m : Z) :
  let fm := fm_index p in
  let first_row := vec_at (C fm) (vec_at (char2comp fm) m) in
  let marker_row := first_row + bwt_rank fm i m in
  let other_row := if marker_row =? first_row then first_row + 1 else first_row in
  0 <= fst (sa_interval s) ->
  snd (sa_interval s) < 2 ^ 31 ->
  fst (sa_interval s) <= i <= snd (sa_interval s) ->
  bit_at (bwt_markers_mask p) i = true ->
  vec_at (bwt fm) i = m ->
  m mod 2 = 1 ->
  0 <= first_row ->
  first_row + Z.of_nat (length (bwt fm)) < UINT64_MAX ->
  vec_at (sa fm) marker_row <= vec_at (sa fm) other_row ->
  process_markers_search_state s p =
    process_markers_search_state (set_sa_interval s (fst (sa_interval s), i - 1)) p
    ++ [ {| sa_interval := (marker_row, marker_row);
            variant_site_path :=
              match variant_site_path s, variant_site_state s with
              | [], outside_variant_site | [], unknown => [(m, 1)]
              | path, _ => path
              end;
            variant_site_state := outside_variant_site;
            invalid := invalid s |} ]
    ++ process_markers_search_state
         (set_sa_interval s (i + 1, snd (sa_interval s))) p.
Proof.
  intros fm first_row marker_row other_row Hlo Hhi Hi Hbit Hbwt Hodd Hf0 Hfmax Hstart.
  rewrite (process_markers_search_state_split s p i Hlo Hhi Hi).
  f_equal. f_equal.
  unfold marker_row_states. rewrite Hbit. fold fm. rewrite Hbwt.
  replace (m mod 2 =? 1) with true by (symmetry; apply Z.eqb_eq; exact Hodd).
  pose proof (bwt_rank_bounds fm m i) as Hrk.
  assert (site_boundary_marker_info m i p
          = {| is_start_boundary := true;
               boundary_sa_interval := (marker_row, marker_row);
               marker_char := m |}) as Hinfo.
  { unfold site_boundary_marker_info. fold fm. fold first_row.
    assert ((if i <=? 0 then 0 else bwt_rank fm i m) = bwt_rank fm i m) as ->.
    { destruct (Z.leb_spec i 0); [symmetry; apply bwt_rank_0; lia | reflexivity]. }
    fold marker_row.
    rewrite (wrap64_small marker_row) by (unfold marker_row; lia).
    rewrite (wrap64_small (first_row + 1)) by lia.
    assert ((if marker_row =? first_row
             then vec_at (sa fm) (first_row + 1) else vec_at (sa fm) first_row)
            = vec_at (sa fm) other_row) as ->.
    { unfold other_row. destruct (marker_row =? first_row); reflexivity. }
    replace (vec_at (sa fm) marker_row <=? vec_at (sa fm) other_row) with true
      by (symmetry; apply Z.leb_le; exact Hstart).
    reflexivity. }
  unfold process_boundary_marker. rewrite Hinfo.
  cbn [is_start_boundary negb]. unfold exiting_site_search_state.
  cbn [marker_char boundary_sa_interval].
  f_equal. f_equal.
  destruct (variant_site_state s), (variant_site_path s); reflexivity.
Qed.

Lemma exiting_site_one_state_witness :
  process_markers_search_state
    (search_state_at 3 3 [] outside_variant_site) prg_one_site
  = [search_state_at 6 6 [(5, 1)] outside_variant_site].
Proof.
  pose proof (exiting_site_one_state prg_one_site
                (search_state_at 3 3 [] outside_variant_site) 3 5) as H.
  cbv zeta in H. feed H.
  vm_compute in H. vm_compute. exact H.
Defined.

Lemma marker_row_states_no_marker (s : SearchState) (p : PRG_Info) (l : list Z) :
  Forall (fun i => bit_at (bwt_markers_mask p) i = false) l ->
  flat_map (marker_row_states s p) l = [].
Proof.
  induction 1 as [|i l Hi _ IH]; simpl; [reflexivity|].
  unfold marker_row_states at 1. rewrite Hi. exact IH.
Qed.

(** X2.  For states whose intervals are not empty and lie below row
    [2^31]: when no row of the intervals holds a marker in the BWT, marker
    processing adds nothing, and extending the states by a base is the
    plain backward search of the FM-index. *)
Theorem extension_without_markers (p : PRG_Info) (ss : SearchStates) (c : Z) :
  Forall (fun s => 0 <= fst (sa_interval s) <= snd (sa_interval s)
                   /\ snd (sa_interval s) < 2 ^ 31
                   /\ forall i,
                        fst (sa_interval s) <= i <= snd (sa_interval s) ->
                        bit_at (bwt_markers_mask p) i = false) ss ->
  process_markers_search_states ss p = ss
  /\ process_read_char_search_states c ss p = search_base_backwards c ss p.
Proof.
  intros Hno.
  assert (process_markers_search_states ss p = ss) as Hsame.
  { unfold process_markers_search_states.
    rewrite fold_left_app_flat_map. simpl.
    assert (flat_map (fun s => process_markers_search_state s p) ss = []) as ->.
    { induction Hno as [|s ss (Hlo & Hhi & Hs) _ IH]; simpl; [reflexivity|].
      rewrite IH, app_nil_r.
      rewrite process_markers_search_state_rows by lia.
      apply marker_row_states_no_marker.
      apply Forall_forall. intros i Hin. apply Hs.
      apply list_elem_of_In, in_sa_range in Hin. exact Hin. }
    apply app_nil_r. }
  split; [exact Hsame|].
  unfold process_read_char_search_states. rewrite Hsame. reflexivity.
Qed.

Lemma extension_without_markers_witness :
  process_read_char_search_states 3
    [search_state_at 0 1 [] outside_variant_site] prg_one_site
  = search_base_backwards 3
      [search_state_at 0 1 [] outside_variant_site] prg_one_site.
Proof.
  apply (extension_without_markers prg_one_site
           [search_state_at 0 1 [] outside_variant_site] 3).
  constructor; [|constructor].
  simpl. split; [lia|]. split; [lia|]. intros i Hi.
  assert (i = 0 \/ i = 1) as [-> | ->] by lia; reflexivity.
Defined.

Lemma search_base_backwards_flat (p : PRG_Info) (ss : SearchStates) (c : Z) :
  search_base_backwards c ss p =
  flat_map (fun s =>
              let new_search_state :=
                search_fm_index_base_backwards c
                  (vec_at (C (fm_index p)) (vec_at (char2comp (fm_index p)) c)) s p in
              if invalid new_search_state then [] else [new_search_state]) ss.
Proof.
  unfold search_base_backwards. cbv zeta.
  generalize (vec_at (C (fm_index p)) (vec_at (char2comp (fm_index p)) c)) as first.
  intros first.
  assert (forall l init,
            fold_left
              (fun new_search_states search_state =>
                 if invalid (search_fm_index_base_backwards c first search_state p)
                 then new_search_states
                 else new_search_states
                        ++ [search_fm_index_base_backwards c first search_state p])
              l init
            = init ++ flat_map
                        (fun s =>
                           if invalid (search_fm_index_base_backwards c first s p)
                           then []
                           else [search_fm_index_base_backwards c first s p]) l)
    as Hgen.
  { induction l as [|s l IH]; intros init; simpl.
    - rewrite app_nil_r. reflexivity.
    - rewrite IH.
      destruct (invalid _); simpl; [reflexivity|].
      rewrite <- app_assoc. reflexivity. }
  apply Hgen.
Qed.

(** X3.  Backward extension by a base never returns a state flagged
    invalid, and the paths and site states of the states it returns are
    those of the states it was given, in the same order, with some left
    out: it drops states and changes intervals, nothing else. *)
Theorem search_base_backwards_keeps_paths (p : PRG_Info) (ss : SearchStates) (c : Z) :
  Forall (fun s => invalid s = false) (search_base_backwards c ss p)
  /\ sublist
       (map (fun s => (variant_site_path s, variant_site_state s))
            (search_base_backwards c ss p))
       (map (fun s => (variant_site_path s, variant_site_state s)) ss).
Proof.
  rewrite search_base_backwards_flat.
  induction ss as [|s ss [IHvalid IHsub]]; simpl.
  - split; constructor.
  - destruct (invalid (search_fm_index_base_backwards c _ s p)) eqn:Hinv; simpl.
    + split; [exact IHvalid|]. apply sublist_cons. exact IHsub.
    + split; [constructor; [exact Hinv | exact IHvalid]|].
      unfold search_fm_index_base_backwards in *.
      destruct (negb (negb _)); simpl in *; [discriminate|].
      apply sublist_skip. exact IHsub.
Qed.

Lemma process_read_char_search_states_nil (p : PRG_Info) (c : Z) :
  process_read_char_search_states c [] p = [].
Proof. reflexivity. Qed.

Lemma search_read_loop_fold (p : PRG_Info) (bases : list Z) (ss : SearchStates) :
  search_read_loop bases ss p
  = fold_left (fun ss c => process_read_char_search_states c ss p) bases ss.
Proof.
  revert ss. induction bases as [|c bases IH]; intros ss; simpl; [reflexivity|].
  destruct (process_read_char_search_states c ss p) as [|s ss'] eqn:Hnew.
  - clear IH Hnew. induction bases as [|c' bases IH]; simpl; [reflexivity|].
    exact IH.
  - apply IH.
Qed.

(** X4.  For a read at least as long as the kmer, [search_read_backwards]
    gives no state when the kmer is not in the index, and otherwise the
    finalisation of the indexed states extended by the bases of the read
    left of the kmer, from the last to the first: leaving the loop early on
    an empty set of states, and returning early on a kmer indexed with no
    state, do not change the result. *)
Theorem search_read_backwards_iterates_extension (read kmer : list Z)
    (kmer_index : gmap (list Z) SearchStates) (p : PRG_Info) :
  (length kmer <= length read)%nat ->
  search_read_backwards read kmer kmer_index p =
    match kmer_index !! kmer with
    | None => []
    | Some kmer_index_search_states =>
        handle_allele_encapsulated_states
          (fold_left (fun ss c => process_read_char_search_states c ss p)
                     (skipn (length kmer) (rev read))
                     kmer_index_search_states) p
    end.
Proof.
  intros _. unfold search_read_backwards.
  destruct (kmer_index !! kmer) as [[|s ss]|]; [|rewrite search_read_loop_fold|];
    try reflexivity.
  assert (forall bases,
            fold_left (fun ss c => process_read_char_search_states c ss p) bases []
            = []) as Hnil.
  { induction bases as [|c bases IH]; simpl; [reflexivity | exact IH]. }
  rewrite Hnil. reflexivity.
Qed.

Lemma search_read_backwards_iterates_extension_witness :
  search_read_backwards [1; 3; 2] [3; 2]
    (<[ [3; 2] := [search_state_at 3 3 [(5, 1)] outside_variant_site] ]> ∅)
    prg_one_site
  = handle_allele_encapsulated_states
      (process_read_char_search_states 1
         [search_state_at 3 3 [(5, 1)] outside_variant_site] prg_one_site)
      prg_one_site.
Proof.
  rewrite (search_read_backwards_iterates_extension [1; 3; 2] [3; 2]
             (<[ [3; 2] := [search_state_at 3 3 [(5, 1)] outside_variant_site] ]> ∅)
             prg_one_site) by (simpl; lia).
  rewrite lookup_insert_eq. reflexivity.
Defined.

Lemma handle_allele_encapsulated_states_flat (p : PRG_Info) (ss : SearchStates) :
  handle_allele_encapsulated_states ss p
  = flat_map (fun s => match variant_site_path s with
                       | [] => handle_allele_encapsulated_state s p
                       | _ :: _ => [s]
                       end) ss.
Proof.
  unfold handle_allele_encapsulated_states.
  assert (forall l init,
            fold_left
              (fun new_search_states search_state =>
                 match variant_site_path search_state with
                 | _ :: _ => new_search_states ++ [search_state]
                 | [] => new_search_states
                           ++ handle_allele_encapsulated_state search_state p
                 end) l init
            = init ++ flat_map (fun s => match variant_site_path s with
                                         | [] => handle_allele_encapsulated_state s p
                                         | _ :: _ => [s]
                                         end) l) as Hgen.
  { induction l as [|s l IH]; intros init; simpl.
    - rewrite app_nil_r. reflexivity.
    - rewrite IH.
      destruct (variant_site_path s); rewrite <- app_assoc; reflexivity. }
  apply Hgen.
Qed.

Lemma encapsulated_step_valid (p : PRG_Info) (st : SearchStates * SearchStateCache)
    (i : Z) :
  Forall (fun s => invalid s = false) (fst st) ->
  (cache_empty (snd st) = false -> invalid (cache_search_state (snd st)) = false) ->
  Forall (fun s => invalid s = false) (fst (encapsulated_step p st i))
  /\ (cache_empty (snd (encapsulated_step p st i)) = false ->
      invalid (cache_search_state (snd (encapsulated_step p st i))) = false).
Proof.
  destruct st as [acc cache]. simpl. intros Hacc Hcache.
  unfold encapsulated_step, cache_flush, cache_set, cache_update_sa_interval_max.
  destruct (negb (negb _)); simpl.
  - destruct (cache_empty cache) eqn:He; simpl.
    + split; [|discriminate]. apply Forall_app. split; [exact Hacc|].
      repeat constructor.
    + split; [|discriminate]. apply Forall_app. split; [|repeat constructor].
      apply Forall_app. split; [exact Hacc|]. constructor; [auto | constructor].
  - destruct (cache_empty cache) eqn:He; simpl.
    + split; [exact Hacc | reflexivity].
    + destruct (path_eqb _ _); simpl.
      * split; [exact Hacc | auto].
      * split; [|reflexivity]. apply Forall_app. split; [exact Hacc|].
        constructor; [auto | constructor].
Qed.

Lemma handle_allele_encapsulated_state_valid (p : PRG_Info) (s : SearchState) :
  Forall (fun st => invalid st = false) (handle_allele_encapsulated_state s p).
Proof.
  unfold handle_allele_encapsulated_state.
  assert (forall l st,
            Forall (fun s => invalid s = false) (fst st) ->
            (cache_empty (snd st) = false ->
             invalid (cache_search_state (snd st)) = false) ->
            Forall (fun s => invalid s = false)
                   (fst (fold_left (encapsulated_step p) l st))
            /\ (cache_empty (snd (fold_left (encapsulated_step p) l st)) = false ->
                invalid (cache_search_state
                           (snd (fold_left (encapsulated_step p) l st))) = false))
    as Hgen.
  { induction l as [|i l IH]; intros st H1 H2; simpl; [auto|].
    destruct (encapsulated_step_valid p st i H1 H2) as [H1' H2'].
    apply IH; assumption. }
  specialize (Hgen (sa_range (fst (sa_interval s)) (snd (sa_interval s)))
                ([], cache_init) ltac:(constructor) ltac:(discriminate)).
  destruct (fold_left _ _ _) as [acc cache]. simpl in Hgen.
  destruct Hgen as [H1 H2]. unfold cache_flush.
  destruct (cache_empty cache); simpl; [exact H1|].
  apply Forall_app. split; [exact H1|]. constructor; [auto | constructor].
Qed.

Lemma handle_allele_encapsulated_state_outside_row (p : PRG_Info) (st : SearchState) :
  outside_row_state p st ->
  invalid st = false ->
  handle_allele_encapsulated_state st p = [st].
Proof.
  intros (Hpath & Hiv & Hstate & Hsite) Hvalid.
  unfold handle_allele_encapsulated_state.
  rewrite <- Hiv, sa_range_singleton. simpl.
  unfold locus_at in Hsite. simpl in Hsite. rewrite Hsite. simpl.
  destruct st as [[lo hi] path state inv]. simpl in *. subst. reflexivity.
Qed.

(** X5.  Finalisation is idempotent: finalising the states it returns
    gives them back unchanged. *)
Theorem handle_allele_encapsulated_states_idempotent (p : PRG_Info)
    (ss : SearchStates) :
  handle_allele_encapsulated_states (handle_allele_encapsulated_states ss p) p
  = handle_allele_encapsulated_states ss p.
Proof.
  rewrite !handle_allele_encapsulated_states_flat.
  set (f := fun s : SearchState => _).
  assert (forall out,
            Forall (fun st => invalid st = false
                              /\ (outside_row_state p st \/ run_state p st)) out ->
            flat_map f out = out) as Hfix.
  { induction 1 as [|st out [Hvalid Hgood] _ IH]; simpl; [reflexivity|].
    rewrite IH. unfold f.
    destruct Hgood as [Hout | Hrun].
    - destruct Hout as (Hpath & Hrest). rewrite Hpath.
      rewrite handle_allele_encapsulated_state_outside_row;
        [reflexivity | split; assumption | exact Hvalid].
    - destruct Hrun as (m & a & _ & Hpath & _). rewrite Hpath. reflexivity. }
  induction ss as [|s ss IH]; simpl; [reflexivity|].
  rewrite flat_map_app, IH. f_equal.
  unfold f at 2 3.
  destruct (variant_site_path s) eqn:Hpath.
  - apply Hfix.
    pose proof (handle_allele_encapsulated_state_valid p s) as Hvalid.
    destruct (Z_le_gt_dec (fst (sa_interval s)) (snd (sa_interval s) + 1))
      as [Hle | Hgt].
    + destruct (handle_allele_encapsulated_state_split p s Hle) as (_ & Hgood & _).
      apply Forall_and. split; assumption.
    + unfold handle_allele_encapsulated_state, sa_range.
      replace (Z.to_nat (snd (sa_interval s) - fst (sa_interval s) + 1)) with O by lia.
      constructor.
  - simpl. unfold f. rewrite Hpath. simpl. reflexivity.
Qed.

(** ** PRG encoding *)

Lemma decimal_value_snoc (ds : list Z) (d : Z) :
  decimal_value (ds ++ [d]) = 10 * decimal_value ds + d.
Proof. unfold decimal_value. rewrite fold_left_app. reflexivity. Qed.

Lemma decimal_value_nonneg (ds : list Z) :
  Forall (fun d => 0 <= d <= 9) ds -> 0 <= decimal_value ds.
Proof.
  induction ds as [|d ds IH] using rev_ind; intros Hds; [unfold decimal_value; simpl; lia|].
  apply Forall_app in Hds. destruct Hds as [Hds Hd]. inversion Hd; subst.
  rewrite decimal_value_snoc. specialize (IH Hds). lia.
Qed.

Lemma concat_marker_digits_decimal (ds : list Z) :
  Forall (fun d => 0 <= d <= 9) ds ->
  decimal_value ds < 2 ^ 64 ->
  concat_marker_digits ds = decimal_value ds.
Proof.
  induction ds as [|d ds IH] using rev_ind; intros Hds Hlt; [reflexivity|].
  apply Forall_app in Hds. destruct Hds as [Hds Hd]. inversion Hd; subst.
  pose proof (decimal_value_nonneg ds Hds) as Hnn.
  rewrite decimal_value_snoc in *.
  unfold concat_marker_digits in *. rewrite fold_left_app. simpl.
  rewrite IH by (auto; lia).
  unfold wrap64. rewrite Z.mul_comm. apply Z.mod_small. lia.
Qed.

Lemma encode_char_digit (d : Z) :
  0 <= d <= 9 ->
  encode_char (digit_char d) = {| is_dna := false; character := d |}.
Proof.
  intros Hd.
  assert (d = 0 \/ d = 1 \/ d = 2 \/ d = 3 \/ d = 4 \/ d = 5 \/ d = 6 \/ d = 7
          \/ d = 8 \/ d = 9) as H by lia.
  repeat (destruct H as [-> | H]; [vm_compute; reflexivity|]).
  subst. vm_compute. reflexivity.
Qed.

Lemma encode_char_dna_letter (base : Z) (lower_case : bool) :
  1 <= base <= 4 ->
  encode_char (dna_letter base lower_case)
  = {| is_dna := true; character := base |}.
Proof.
  intros Hb.
  assert (base = 1 \/ base = 2 \/ base = 3 \/ base = 4) as H by lia.
  destruct lower_case;
    repeat (destruct H as [-> | H]; [vm_compute; reflexivity|]);
    subst; vm_compute; reflexivity.
Qed.

Lemma encode_prg_step_digit (d : Z) (pending acc : list Z) :
  0 <= d <= 9 ->
  encode_prg_step (pending, acc) (digit_char d) = (pending ++ [d], acc).
Proof.
  intros Hd. unfold encode_prg_step. rewrite encode_char_digit by assumption.
  simpl. unfold int_of_uint32. destruct (Z.ltb_spec d (2 ^ 31)); [reflexivity | lia].
Qed.

Lemma encode_prg_step_dna (base : Z) (lower_case : bool) (pending acc : list Z) :
  1 <= base <= 4 ->
  encode_prg_step (pending, acc) (dna_letter base lower_case)
  = ([], snd (flush_marker_digits pending acc) ++ [base]).
Proof.
  intros Hb. unfold encode_prg_step. rewrite encode_char_dna_letter by assumption.
  simpl. destruct pending; reflexivity.
Qed.

Lemma encode_digits_pending (ds pending acc : list Z) :
  Forall (fun d => 0 <= d <= 9) ds ->
  fold_left encode_prg_step (map digit_char ds) (pending, acc)
  = (pending ++ ds, acc).
Proof.
  revert pending. induction ds as [|d ds IH]; intros pending Hds;
    cbn [map fold_left].
  - rewrite app_nil_r. reflexivity.
  - inversion Hds; subst. rewrite encode_prg_step_digit by assumption.
    rewrite IH by assumption. rewrite <- app_assoc. reflexivity.
Qed.

Lemma flush_marker_digits_decimal (pending acc : list Z) :
  Forall (fun d => 0 <= d <= 9) pending ->
  decimal_value pending < 2 ^ 32 ->
  snd (flush_marker_digits pending acc)
  = acc ++ match pending with [] => [] | _ :: _ => [decimal_value pending] end.
Proof.
  intros Hds Hlt. destruct pending as [|d ds]; simpl.
  - rewrite app_nil_r. reflexivity.
  - f_equal. f_equal.
    change (fold_left (fun marker digit => wrap64 (marker * 10 + digit)) ds
              (wrap64 (0 * 10 + d)))
      with (concat_marker_digits (d :: ds)).
    rewrite concat_marker_digits_decimal by (auto; lia).
    unfold wrap32. apply Z.mod_small.
    pose proof (decimal_value_nonneg (d :: ds) Hds). lia.
Qed.

Lemma encode_tokens (tokens : list PrgToken) (pending acc : list Z) :
  Forall token_ok tokens ->
  markers_apart tokens ->
  Forall (fun d => 0 <= d <= 9) pending ->
  decimal_value pending < 2 ^ 32 ->
  (pending <> [] -> match tokens with TMarker _ :: _ => False | _ => True end) ->
  let st := fold_left encode_prg_step (flat_map token_text tokens) (pending, acc) in
  snd (flush_marker_digits (fst st) (snd st))
  = acc ++ match pending with [] => [] | _ :: _ => [decimal_value pending] end
        ++ map token_symbol tokens.
Proof.
  revert pending acc.
  induction tokens as [|t tokens IH]; intros pending acc Hok Hapart Hpd Hplt Hnext.
  - simpl. rewrite app_nil_r. apply flush_marker_digits_decimal; assumption.
  - inversion Hok as [|? ? Ht Hrest]; subst.
    destruct t as [base lower_case | ds].
    + cbn [flat_map token_text app fold_left]. simpl in Ht.
      rewrite encode_prg_step_dna by assumption.
      rewrite (flush_marker_digits_decimal pending acc) by assumption.
      assert (markers_apart tokens) as Hapart' by (destruct tokens; exact Hapart).
      specialize (IH [] ((acc ++ match pending with
                                 | [] => []
                                 | _ :: _ => [decimal_value pending]
                                 end) ++ [base])
                    Hrest Hapart' ltac:(constructor) ltac:(reflexivity)
                    ltac:(congruence)).
      cbv zeta in *. rewrite IH. simpl. rewrite <- !app_assoc. reflexivity.
    + destruct pending as [|d0 pending0]; [|exfalso; apply Hnext; discriminate].
      destruct Ht as (Hne & Hds & Hlt).
      cbn [flat_map token_text]. rewrite fold_left_app.
      rewrite encode_digits_pending by assumption. cbn [app].
      assert (markers_apart tokens
              /\ match tokens with TMarker _ :: _ => False | _ => True end)
        as [Hapart' Hnext'].
      { destruct tokens as [|[b l | ds'] tokens']; simpl in *; auto; contradiction. }
      specialize (IH ds acc Hrest Hapart' Hds Hlt (fun _ => Hnext')).
      cbv zeta in *. rewrite IH.
      destruct ds as [|d ds0]; [congruence|]. reflexivity.
Qed.

(** X6.  The text of a sequence of tokens (DNA letters in either case,
    markers in decimal digits, below [2^32], no two markers in a row) is
    encoded back to the sequence of its symbols: a letter to its base in
    [1..4], the digits of a marker to the number they write. *)
Theorem encode_prg_of_tokens (tokens : list PrgToken) :
  Forall token_ok tokens ->
  markers_apart tokens ->
  encode_prg (tokens_text tokens) = map token_symbol tokens.
Proof.
  intros Hok Hapart. unfold encode_prg, tokens_text.
  rewrite list_ascii_of_string_of_list_ascii.
  pose proof (encode_tokens tokens [] [] Hok Hapart ltac:(constructor)
                ltac:(reflexivity) ltac:(congruence)) as H.
  cbv zeta in H. simpl in H.
  destruct (fold_left _ _ _) as [pending acc]. exact H.
Qed.

Lemma encode_prg_of_tokens_witness :
  encode_prg "A13g14T13tt" = [1; 13; 3; 14; 4; 13; 4; 4].
Proof.
  apply (encode_prg_of_tokens
           [TBase 1 false; TMarker [1; 3]; TBase 3 true; TMarker [1; 4];
            TBase 4 false; TMarker [1; 3]; TBase 4 true; TBase 4 true]).
  - repeat constructor; try discriminate; vm_compute; congruence.
  - simpl. exact I.
Defined.

(** X7.  [get_max_alphabet_num] returns an upper bound of the symbols of
    the PRG, which is one of them or zero. *)
Theorem get_max_alphabet_num_is_max (encoded_prg : list Z) :
  let m := get_max_alphabet_num encoded_prg in
  Forall (fun x => x <= m) encoded_prg
  /\ (m = 0 \/ In m encoded_prg).
Proof.
  unfold get_max_alphabet_num.
  assert (forall l init,
            let m := fold_left (fun acc x => if acc <? x then x else acc) l init in
            init <= m /\ Forall (fun x => x <= m) l /\ (m = init \/ In m l))
    as Hgen.
  { induction l as [|x l IH]; intros init; simpl.
    - split; [lia|]. split; [constructor | left; reflexivity].
    - specialize (IH (if init <? x then x else init)). cbv zeta in IH.
      destruct IH as (Hle & Hall & Hin).
      destruct (Z.ltb_spec init x).
      + split; [lia|]. split; [constructor; [lia | exact Hall]|].
        destruct Hin as [-> | Hin]; right; [left; reflexivity | right; exact Hin].
      + split; [lia|]. split; [constructor; [lia | exact Hall]|].
        destruct Hin as [-> | Hin]; [left; reflexivity | right; right; exact Hin]. }
  cbv zeta. destruct (Hgen encoded_prg 0) as (_ & Hall & Hin).
  split; [exact Hall | exact Hin].
Qed.

(** ** Masks, in full *)

(** X8.  What the two masks hold, for a PRG shorter than [2^32] symbols.
    Both have the length of the PRG.  At a base (a symbol of at most 4)
    that lies in a site, the sites mask holds the marker that opens the
    site, as a 32-bit number, and the allele mask holds one more than the
    number of allele markers between that marker and the base.  An entry
    that is not zero, of either mask, is at such a base. *)
Theorem masks_mark_bases_within_sites (encoded_prg : list Z) (j : nat) :
  Z.of_nat (length encoded_prg) < 2 ^ 32 ->
  length (generate_sites_mask encoded_prg) = length encoded_prg
  /\ length (generate_allele_mask encoded_prg) = length encoded_prg
  /\ (forall s,
        (j < length encoded_prg)%nat ->
        nth j encoded_prg 0 <= 4 ->
        opens_site encoded_prg s j ->
        nth j (generate_sites_mask encoded_prg) 0 = wrap32 (nth s encoded_prg 0)
        /\ nth j (generate_allele_mask encoded_prg) 0
           = 1 + Z.of_nat (count_if is_allele_marker
                             (firstn (j - S s) (skipn (S s) encoded_prg))))
  /\ (nth j (generate_sites_mask encoded_prg) 0 <> 0
      \/ nth j (generate_allele_mask encoded_prg) 0 <> 0 ->
      (j < length encoded_prg)%nat
      /\ nth j encoded_prg 0 <= 4
      /\ exists s, opens_site encoded_prg s j).
Proof.
  intros Hn.
  destruct (masks_scan_final encoded_prg) as (Hls & Hla & _ & _ & _ & Hval & Hnz).
  unfold generate_sites_mask, generate_allele_mask.
  split; [exact Hls|]. split; [exact Hla|]. split.
  - intros s Hj Hj4 Hopen.
    destruct (Hval j s Hj Hopen Hj4) as [Hsites Halleles].
    split; [exact Hsites|]. rewrite Halleles.
    pose proof (count_if_le_length is_allele_marker
                  (firstn (j - S s) (skipn (S s) encoded_prg))) as Hle.
    rewrite length_firstn in Hle.
    unfold wrap32. apply Z.mod_small. lia.
  - exact (Hnz j).
Qed.

Lemma masks_mark_bases_within_sites_witness :
  nth 2 (generate_sites_mask (encode_prg "a5g6t5c")) 0 = 5
  /\ nth 4 (generate_allele_mask (encode_prg "a5g6t5c")) 0 = 2.
Proof.
  assert (Z.of_nat (length (encode_prg "a5g6t5c")) < 2 ^ 32) as Hn
    by (vm_compute; reflexivity).
  split.
  - destruct (masks_mark_bases_within_sites (encode_prg "a5g6t5c") 2 Hn)
      as (_ & _ & Hval & _).
    refine (proj1 (Hval 1%nat _ _ _)).
    + vm_compute. lia.
    + vm_compute. discriminate.
    + split; [lia|]. split; [reflexivity|]. split; [reflexivity|].
      intros t Ht. assert (t = 2%nat) as -> by lia. reflexivity.
  - destruct (masks_mark_bases_within_sites (encode_prg "a5g6t5c") 4 Hn)
      as (_ & _ & Hval & _).
    refine (proj2 (Hval 1%nat _ _ _)).
    + vm_compute. lia.
    + vm_compute. discriminate.
    + split; [lia|]. split; [reflexivity|]. split; [reflexivity|].
      intros t Ht.
      assert (t = 2%nat \/ t = 3%nat \/ t = 4%nat) as [-> | [-> | ->]] by lia;
        reflexivity.
Defined.
(** ** Coverage, further *)

Lemma count_set_cons (b : bool) (mask : list bool) :
  count_set (b :: mask) = if b then S (count_set mask) else count_set mask.
Proof.
  unfold count_set. destruct b.
  - rewrite filter_cons_True by reflexivity. reflexivity.
  - rewrite filter_cons_False by discriminate. reflexivity.
Qed.

Lemma count_set_firstn_set (mask : list bool) (j : nat) :
  nth j mask false = true -> (1 <= count_set (firstn (S j) mask))%nat.
Proof.
  revert j. induction mask as [|b mask IH]; intros j Hj.
  - destruct j; discriminate.
  - change (firstn (S j) (b :: mask)) with (b :: firstn j mask).
    rewrite count_set_cons. destruct j as [|j]; simpl in Hj.
    + subst b. lia.
    + specialize (IH j Hj). destruct b; lia.
Qed.

Lemma select_from_rank (mask : list bool) (pos : Z) (j : nat) :
  nth j mask false = true ->
  select_from mask pos (count_set (firstn (S j) mask)) = pos + Z.of_nat j.
Proof.
  revert pos j. induction mask as [|b mask IH]; intros pos j Hj.
  - destruct j; discriminate.
  - change (firstn (S j) (b :: mask)) with (b :: firstn j mask).
    rewrite count_set_cons. destruct j as [|j]; simpl in Hj.
    + subst b. simpl. unfold count_set. simpl. lia.
    + pose proof (count_set_firstn_set mask j Hj) as Hpos.
      specialize (IH (pos + 1) j Hj).
      destruct b; cbn [select_from].
      * destruct (count_set (firstn (S j) mask)) as [|n]; [lia|].
        rewrite IH. lia.
      * rewrite IH. lia.
Qed.

Lemma count_set_firstn_clear (mask : list bool) (j d : nat) :
  (forall t, (j <= t < j + d)%nat -> nth t mask false = false) ->
  count_set (firstn (j + d) mask) = count_set (firstn j mask).
Proof.
  revert j d. induction mask as [|b mask IH]; intros j d Hclear.
  - rewrite !firstn_nil. reflexivity.
  - destruct j as [|j].
    + destruct d as [|d]; [reflexivity|].
      change (firstn (0 + S d) (b :: mask)) with (b :: firstn (0 + d) mask).
      rewrite count_set_cons.
      rewrite (Hclear 0%nat ltac:(lia) : b = false).
      apply (IH 0%nat d). intros t Ht. apply (Hclear (S t)). lia.
    + change (firstn (S j + d) (b :: mask)) with (b :: firstn (j + d) mask).
      change (firstn (S j) (b :: mask)) with (b :: firstn j mask).
      rewrite !count_set_cons, IH; [reflexivity|].
      intros t Ht. apply (Hclear (S t)). lia.
Qed.

(** X9.  Within an allele, [allele_start_offset_index] is the distance of
    a position of the PRG from the first base of its allele: with the
    nearest marker to the left of position [i] at position [j], it is
    [i - j - 1]. *)
Theorem allele_start_offset_index_from_marker (prg_info : PRG_Info) (i j : Z) :
  0 <= j < i ->
  i <= UINT64_MAX ->
  bit_at (prg_markers_mask prg_info) j = true ->
  (forall t, j < t < i -> bit_at (prg_markers_mask prg_info) t = false) ->
  allele_start_offset_index i prg_info = i - j - 1.
Proof.
  intros Hji Hi Hj Hclear.
  unfold allele_start_offset_index, prg_markers_rank, prg_markers_select,
    rank_support_v, select_support_mcl.
  rewrite Nat2Z.id. fold (count_set (firstn (Z.to_nat i) (prg_markers_mask prg_info))).
  replace (Z.to_nat i) with (S (Z.to_nat j) + Z.to_nat (i - j - 1))%nat by lia.
  rewrite count_set_firstn_clear.
  - rewrite select_from_rank by exact Hj.
    rewrite Z2Nat.id by lia.
    rewrite (wrap64_small (i - (0 + j))) by lia.
    apply wrap64_small. lia.
  - intros t Ht. specialize (Hclear (Z.of_nat t) ltac:(lia)).
    unfold bit_at in Hclear. rewrite Nat2Z.id in Hclear. exact Hclear.
Qed.

Lemma allele_start_offset_index_from_marker_witness :
  allele_start_offset_index 4 prg_repeat_allele = 2.
Proof.
  apply (allele_start_offset_index_from_marker prg_repeat_allele 4 1).
  - lia.
  - vm_compute. discriminate.
  - reflexivity.
  - intros t Ht. assert (t = 2 \/ t = 3) as [-> | ->] by lia; reflexivity.
Defined.
Lemma set_allele_base_coverage_id (c : Coverage) :
  set_allele_base_coverage (fun x => x) c = c.
Proof. destruct c; reflexivity. Qed.

Lemma increment_base_fold (site allele : Z) (l : list Z) (c : Coverage) :
  rec_fold (fun _ i => increment_base site allele i) l tt c
  = Some (tt,
          set_allele_base_coverage
            (alter (alter (fun allele_coverage =>
                             fold_left (fun al i =>
                                          alter saturating_increment (Z.to_nat i) al)
                                       l allele_coverage)
                          (Z.to_nat allele))
                   (Z.to_nat site)) c).
Proof.
  revert c. induction l as [|i l IH]; intros c.
  - cbn [rec_fold fold_left]. unfold rec_ret. f_equal. f_equal.
    destruct c as [s b g]. unfold set_allele_base_coverage. cbn. f_equal.
    symmetry. etransitivity; [|apply (list_alter_id (fun x => x)); reflexivity].
    apply list_alter_ext; [|reflexivity]. intros x _.
    apply list_alter_id. reflexivity.
  - cbn [rec_fold fold_left]. unfold rec_bind at 1.
    unfold increment_base at 1. rewrite IH. f_equal. f_equal.
    destruct c as [s b g]. unfold set_allele_base_coverage. cbn. f_equal.
    rewrite list_alter_alter_eq. apply list_alter_ext; [|reflexivity].
    intros x _. cbn. rewrite list_alter_alter_eq. reflexivity.
Qed.

Lemma alter_fold_lookup (f : Z -> Z) (l : list Z) (al : list Z) (k : nat) :
  NoDup (map Z.to_nat l) ->
  fold_left (fun al i => alter f (Z.to_nat i) al) l al !! k
  = (if bool_decide (k ∈ map Z.to_nat l) then f else fun x => x) <$> al !! k.
Proof.
  revert al. induction l as [|i l IH]; intros al Hnd.
  - cbn. destruct (al !! k); reflexivity.
  - change (map Z.to_nat (i :: l)) with (Z.to_nat i :: map Z.to_nat l) in *.
    cbn [fold_left]. apply NoDup_cons in Hnd as [Hi Hnd].
    rewrite IH by exact Hnd. rewrite list_lookup_alter.
    destruct (decide (Z.to_nat i = k)) as [<-|Hne].
    + rewrite (bool_decide_eq_false_2 _ Hi).
      rewrite bool_decide_eq_true_2 by (left).
      destruct (al !! Z.to_nat i); reflexivity.
    + destruct (decide (k ∈ map Z.to_nat l)) as [Hin|Hnin].
      * rewrite !bool_decide_eq_true_2; [reflexivity | right; exact Hin | exact Hin].
      * rewrite !bool_decide_eq_false_2; [reflexivity | | exact Hnin].
        intros Hin. apply elem_of_cons in Hin as [?|?]; [congruence | contradiction].
Qed.

Lemma sa_range_positions (lo hi : Z) :
  0 <= lo ->
  map Z.to_nat (sa_range lo hi) = seq (Z.to_nat lo) (Z.to_nat (hi - lo + 1)).
Proof.
  intros Hlo. unfold sa_range. rewrite map_map.
  rewrite (seq_from_zero (Z.to_nat lo)). apply map_ext. intros k. lia.
Qed.

Lemma increment_range (first last : Z) (allele_coverage : list Z) :
  0 <= first ->
  fold_left (fun al i => alter saturating_increment (Z.to_nat i) al)
            (sa_range first (last - 1)) allele_coverage
  = increment_between first last allele_coverage.
Proof.
  intros Hfirst. apply list_eq. intros k.
  rewrite alter_fold_lookup
    by (rewrite sa_range_positions by exact Hfirst; apply NoDup_seq).
  unfold increment_between. rewrite list_lookup_imap.
  rewrite sa_range_positions by exact Hfirst.
  destruct (decide (first <= Z.of_nat k < last)) as [Hin|Hout].
  - rewrite !bool_decide_eq_true_2; [reflexivity | exact Hin |].
    apply elem_of_seq. lia.
  - rewrite !bool_decide_eq_false_2; [|exact Hout|].
    + destruct (allele_coverage !! k); reflexivity.
    + rewrite elem_of_seq. lia.
Qed.
(** X10.  [set_site_base_coverage] on a locus that the coverage holds, at an
    offset within the allele.  The bases consumed are those from the offset
    to the end of the allele, and at most [max_bases_to_set]; the end of
    that stretch is recorded for the locus; the counters incremented are
    those of the stretch that lie past the end recorded for the locus
    before, and nothing else of the coverage changes. *)
Theorem set_site_base_coverage_stretch
    (boundaries : SitesCoverageBoundaries) (marker allele_id : Z)
    (allele_coverage_offset max_bases_to_set : Z) (c : Coverage)
    (site_coverage : list (list Z)) (allele_coverage : list Z) :
  5 <= marker <= UINT64_MAX ->
  1 <= allele_id <= UINT64_MAX ->
  0 <= allele_coverage_offset ->
  0 <= max_bases_to_set ->
  allele_coverage_offset + max_bases_to_set <= UINT64_MAX ->
  allele_base_coverage c !! Z.to_nat ((marker - 5) / 2) = Some site_coverage ->
  site_coverage !! Z.to_nat (allele_id - 1) = Some allele_coverage ->
  allele_coverage_offset <= Z.of_nat (length allele_coverage) ->
  let index_end_boundary :=
    Z.min (allele_coverage_offset + max_bases_to_set)
          (Z.of_nat (length allele_coverage)) in
  let index_start_boundary :=
    match boundaries !! (marker, allele_id) with
    | Some previous_end => Z.max allele_coverage_offset previous_end
    | None => allele_coverage_offset
    end in
  set_site_base_coverage boundaries (marker, allele_id)
    allele_coverage_offset max_bases_to_set c
  = Some ((index_end_boundary - allele_coverage_offset,
           <[(marker, allele_id) := index_end_boundary]> boundaries),
          set_allele_base_coverage
            (alter (alter (increment_between index_start_boundary
                                             index_end_boundary)
                          (Z.to_nat (allele_id - 1)))
                   (Z.to_nat ((marker - 5) / 2))) c).
Proof.
  intros Hmarker Hallele Hoffset Hmax Hsum Hsite Hal Hwithin.
  intros index_end_boundary index_start_boundary.
  unfold set_site_base_coverage. cbn [fst snd].
  rewrite (wrap64_small (marker - 5)) by lia.
  rewrite (wrap64_small (allele_id - 1)) by lia.
  rewrite (wrap64_small (allele_coverage_offset + max_bases_to_set)) by lia.
  unfold rec_bind at 1. unfold allele_coverage_size. rewrite Hsite, Hal.
  fold index_end_boundary. fold index_start_boundary.
  unfold rec_bind. rewrite increment_base_fold. unfold rec_ret.
  assert (0 <= index_start_boundary) as Hstart.
  { unfold index_start_boundary.
    destruct (boundaries !! (marker, allele_id)); lia. }
  assert (0 <= index_end_boundary - allele_coverage_offset <= UINT64_MAX) as Hcount.
  { unfold index_end_boundary. lia. }
  rewrite (wrap64_small _ Hcount). f_equal. f_equal.
  unfold set_allele_base_coverage. f_equal.
  apply list_alter_ext; [|reflexivity]. intros site _.
  apply list_alter_ext; [|reflexivity]. intros allele _.
  apply increment_range. exact Hstart.
Qed.

Lemma set_site_base_coverage_stretch_witness :
  set_site_base_coverage ∅ (5, 1) 1 5
    {| allele_sum_coverage := []; grouped_allele_counts := [];
       allele_base_coverage := [[[0; 0; 65535]; [7]]] |}
  = Some ((2, <[(5, 1) := 3]> ∅),
          {| allele_sum_coverage := []; grouped_allele_counts := [];
             allele_base_coverage := [[[0; 1; 65535]; [7]]] |}).
Proof.
  etransitivity;
    [apply (set_site_base_coverage_stretch ∅ 5 1 1 5
              {| allele_sum_coverage := []; grouped_allele_counts := [];
                 allele_base_coverage := [[[0; 0; 65535]; [7]]] |}
              [[0; 0; 65535]; [7]] [0; 0; 65535])
    | vm_compute; reflexivity].
  - split; vm_compute; discriminate.
  - split; vm_compute; discriminate.
  - lia.
  - lia.
  - vm_compute. discriminate.
  - reflexivity.
  - reflexivity.
  - simpl. lia.
Defined.
(** X11.  [set_site_base_coverage] leaves by the exception of [at] exactly
    when the coverage does not hold the locus: its site, or its allele
    within the site. *)
Theorem set_site_base_coverage_throws
    (boundaries : SitesCoverageBoundaries) (path_element : VariantLocus)
    (allele_coverage_offset max_bases_to_set : Z) (c : Coverage) :
  set_site_base_coverage boundaries path_element
    allele_coverage_offset max_bases_to_set c = None
  <-> (allele_base_coverage c !! Z.to_nat (wrap64 (fst path_element - 5) / 2))
        ≫= (fun site_coverage =>
              site_coverage !! Z.to_nat (wrap64 (snd path_element - 1)))
      = None.
Proof.
  unfold set_site_base_coverage. unfold rec_bind at 1.
  unfold allele_coverage_size.
  destruct (allele_base_coverage c !! _) as [site_coverage|]; cbn [mbind option_bind];
    [|split; reflexivity].
  destruct (site_coverage !! _) as [allele_coverage|]; [|split; reflexivity].
  unfold rec_bind. rewrite increment_base_fold. unfold rec_ret.
  split; discriminate.
Qed.

Lemma counter_raised_refl (x : Z) : counter_raised x x.
Proof. unfold counter_raised. lia. Qed.

Lemma counter_raised_trans (x y z : Z) :
  counter_raised x y -> counter_raised y z -> counter_raised x z.
Proof. unfold counter_raised. lia. Qed.

Lemma counter_raised_increment (x y : Z) :
  counter_raised x y -> counter_raised x (saturating_increment y).
Proof.
  unfold counter_raised, saturating_increment, UINT16_MAX.
  destruct (Z.eqb_spec y 65535); lia.
Qed.

Lemma Forall2_diag {A} (R : A -> A -> Prop) (l : list A) :
  (forall x, R x x) -> Forall2 R l l.
Proof. intros HR. induction l; constructor; auto. Qed.

Lemma Forall2_chain {A} (R : A -> A -> Prop) (l1 l2 l3 : list A) :
  (forall x y z, R x y -> R y z -> R x z) ->
  Forall2 R l1 l2 -> Forall2 R l2 l3 -> Forall2 R l1 l3.
Proof.
  intros HR H12. revert l3.
  induction H12 as [|x y l1 l2 Hxy _ IH]; intros l3 H23;
    inversion H23; subst; constructor; eauto.
Qed.

Lemma base_counters_raised_refl (c : Coverage) : base_counters_raised c c.
Proof.
  repeat split. apply Forall2_diag. intros site. apply Forall2_diag.
  intros allele. apply Forall2_diag. exact counter_raised_refl.
Qed.

Lemma base_counters_raised_trans (c1 c2 c3 : Coverage) :
  base_counters_raised c1 c2 -> base_counters_raised c2 c3 ->
  base_counters_raised c1 c3.
Proof.
  intros (Hs1 & Hg1 & Hb1) (Hs2 & Hg2 & Hb2).
  split; [congruence|]. split; [congruence|].
  eapply Forall2_chain; [|exact Hb1|exact Hb2].
  intros s1 s2 s3 H12 H23.
  eapply Forall2_chain; [|exact H12|exact H23].
  intros a1 a2 a3 Ha12 Ha23.
  eapply Forall2_chain; [|exact Ha12|exact Ha23].
  exact counter_raised_trans.
Qed.

Lemma raises_ret {X} (x : X) : raises_base_counters (rec_ret x).
Proof.
  intros c y c' H. unfold rec_ret in H. inversion H.
  apply base_counters_raised_refl.
Qed.

Lemma raises_bind {X Y} (m : Rec X) (k : X -> Rec Y) :
  raises_base_counters m -> (forall x, raises_base_counters (k x)) ->
  raises_base_counters (rec_bind m k).
Proof.
  intros Hm Hk c y c' H. unfold rec_bind in H.
  destruct (m c) as [[x c1]|] eqn:Hmc; [|discriminate].
  eapply base_counters_raised_trans; [eapply Hm; exact Hmc | eapply Hk; exact H].
Qed.

Lemma raises_fold {A S} (f : S -> A -> Rec S) (l : list A) (s : S) :
  (forall s a, raises_base_counters (f s a)) ->
  raises_base_counters (rec_fold f l s).
Proof.
  intros Hf. revert s. induction l as [|a l IH]; intros s; cbn [rec_fold].
  - apply raises_ret.
  - apply raises_bind; [apply Hf | intros s'; apply IH].
Qed.

Lemma raises_allele_coverage_size (site allele : Z) :
  raises_base_counters (allele_coverage_size site allele).
Proof.
  intros c x c' H. unfold allele_coverage_size in H.
  destruct (allele_base_coverage c !! _) as [sc|]; [|discriminate].
  destruct (sc !! _); [|discriminate].
  inversion H. apply base_counters_raised_refl.
Qed.

Lemma raises_increment_base (site allele i : Z) :
  raises_base_counters (increment_base site allele i).
Proof.
  intros c x c' H. unfold increment_base in H. inversion H. subst.
  split; [reflexivity|]. split; [reflexivity|].
  cbn [allele_base_coverage set_allele_base_coverage].
  apply Forall2_alter_r.
  - apply Forall2_diag. intros s. apply Forall2_diag. intros a.
    apply Forall2_diag. exact counter_raised_refl.
  - intros s1 s2 _ _ Hs. apply Forall2_alter_r; [exact Hs|].
    intros a1 a2 _ _ Ha. apply Forall2_alter_r; [exact Ha|].
    intros x y _ _. apply counter_raised_increment.
Qed.

Lemma raises_set_site_base_coverage
    (boundaries : SitesCoverageBoundaries) (path_element : VariantLocus)
    (allele_coverage_offset max_bases_to_set : Z) :
  raises_base_counters
    (set_site_base_coverage boundaries path_element allele_coverage_offset
       max_bases_to_set).
Proof.
  unfold set_site_base_coverage.
  apply raises_bind; [apply raises_allele_coverage_size|]. intros allele_size.
  apply raises_bind; [|intros; apply raises_ret].
  apply raises_fold. intros _ i. apply raises_increment_base.
Qed.

Lemma raises_walk_path (read_length : Z) (prg_info : PRG_Info)
    (path : VariantSitePath) (ws : WalkState) :
  raises_base_counters (walk_path read_length prg_info path ws).
Proof.
  revert ws. induction path as [|path_element rest IH]; intros ws;
    cbn [walk_path].
  - apply raises_ret.
  - destruct (read_bases_consumed ws <? read_length); [|apply raises_ret].
    apply raises_bind; [apply raises_set_site_base_coverage|].
    intros result. apply IH.
Qed.

Lemma raises_sa_index_allele_base_coverage
    (boundaries : SitesCoverageBoundaries) (sa_index read_length : Z)
    (search_state : SearchState) (prg_info : PRG_Info) :
  raises_base_counters
    (sa_index_allele_base_coverage boundaries sa_index read_length
       search_state prg_info).
Proof.
  unfold sa_index_allele_base_coverage.
  destruct (variant_site_path search_state) as [|path_element rest];
    [apply raises_ret|].
  apply raises_bind; [|intros; apply raises_ret].
  destruct (negb _).
  - apply raises_bind; [apply raises_set_site_base_coverage|].
    intros result. apply raises_walk_path.
  - apply raises_walk_path.
Qed.

(** X12.  A run of [coverage::record::allele_base] that returns has touched
    base counters only: the allele sums and the grouped allele counts are
    as before, the sites, alleles and bases of the base coverage are as
    many as before, no counter has gone down, and a counter that was within
    16 bits still is. *)
Theorem allele_base_raises_base_counters (search_states : SearchStates)
    (read_length : Z) (prg_info : PRG_Info) (c c' : Coverage) :
  allele_base search_states read_length prg_info c = Some (tt, c') ->
  base_counters_raised c c'.
Proof.
  intros Hrun.
  assert (raises_base_counters (allele_base search_states read_length prg_info))
    as Hraises; [|exact (Hraises c tt c' Hrun)].
  unfold allele_base.
  apply raises_bind; [|intros; apply raises_ret].
  apply raises_fold. intros boundaries search_state.
  destruct (variant_site_path search_state); [apply raises_ret|].
  apply raises_fold. intros boundaries' sa_index.
  apply raises_sa_index_allele_base_coverage.
Qed.

Lemma allele_base_raises_base_counters_witness :
  base_counters_raised
    (base_coverage_of [[[0; 0; 0; 0; 0; 0; 0]; [0]]])
    (base_coverage_of [[[0; 0; 0; 1; 2; 1; 0]; [0]]]).
Proof.
  apply (allele_base_raises_base_counters
           [search_state_at 1 3 [(5, 1)] within_variant_site] 2
           prg_repeat_allele).
  vm_compute. reflexivity.
Defined.
Lemma concat_insert_snoc_length (coverage : list (list (list Z))) (i : nat)
    (site : list (list Z)) (bases : list Z) :
  coverage !! i = Some site ->
  length (concat (concat (<[i := site ++ [bases]]> coverage)))
  = (length (concat (concat coverage)) + length bases)%nat.
Proof.
  revert i. induction coverage as [|x coverage IH]; intros i Hi.
  - destruct i; discriminate.
  - destruct i as [|i]; cbn in Hi.
    + inversion Hi. subst x.
      change (<[0%nat := site ++ [bases]]> (site :: coverage))
        with ((site ++ [bases]) :: coverage).
      rewrite !concat_cons, !concat_app, !length_app. cbn [concat].
      rewrite app_nil_r. lia.
    + specialize (IH i Hi).
      change (<[S i := site ++ [bases]]> (x :: coverage))
        with (x :: <[i := site ++ [bases]]> coverage).
      rewrite !concat_cons, !concat_app, !length_app, IH. lia.
Qed.

Lemma allele_base_structure_thrown (l : list Z) :
  fold_left allele_base_structure_step l None = None.
Proof. induction l as [|x l IH]; [reflexivity | exact IH]. Qed.

Lemma allele_base_structure_step_inv (n : Z) (read : list Z) (x : Z)
    (st : option (list (list (list Z)) * Z * Z)) :
  Z.of_nat (length read) < UINT64_MAX ->
  structure_inv n read st ->
  structure_inv n (read ++ [x]) (allele_base_structure_step st x).
Proof.
  intros Hlen Hinv.
  destruct st as [[[coverage allele_size] last_marker]|]; [|exact I].
  destruct Hinv as (Hn & Hfresh & Hsize & Htotal & Hlast).
  pose proof (count_if_le_length within_allele read) as Hle.
  unfold allele_base_structure_step.
  fold (within_allele x).
  destruct (within_allele x) eqn:Hx.
  - unfold structure_inv. rewrite count_if_app. cbn [count_if]. rewrite Hx.
    rewrite wrap64_small by lia.
    repeat split; try assumption; try lia.
    rewrite last_snoc. intros Hz. inversion Hz. subst x. discriminate.
  - assert (count_if within_allele (read ++ [x]) = count_if within_allele read)
      as Hcount.
    { rewrite count_if_app. cbn [count_if]. rewrite Hx. lia. }
    destruct (Z.eqb_spec allele_size 0) as [Hzero|Hpos].
    + unfold structure_inv. rewrite Hcount. repeat split; assumption || lia.
    + destruct (coverage !! _) as [site|] eqn:Hsite; [|exact I].
      unfold structure_inv. rewrite Hcount, length_insert.
      rewrite (concat_insert_snoc_length _ _ _ _ Hsite), repeat_length.
      split; [exact Hn|]. split.
      { apply Forall_insert; [exact Hfresh|].
        apply Forall_app. split.
        - eapply Forall_lookup_1; [exact Hfresh | exact Hsite].
        - constructor; [|constructor]. split.
          + destruct (Z.to_nat allele_size) eqn:Hs; [lia | discriminate].
          + apply List.Forall_forall. intros y Hy.
            apply repeat_spec in Hy. exact Hy. }
      repeat split; lia.
Qed.

Lemma allele_base_structure_fold_inv (n : Z) (rest read : list Z)
    (st : option (list (list (list Z)) * Z * Z)) :
  Z.of_nat (length (read ++ rest)) <= UINT64_MAX ->
  structure_inv n read st ->
  structure_inv n (read ++ rest) (fold_left allele_base_structure_step rest st).
Proof.
  revert read st. induction rest as [|x rest IH]; intros read st Hlen Hinv.
  - rewrite app_nil_r. exact Hinv.
  - cbn [fold_left]. replace (read ++ x :: rest) with ((read ++ [x]) ++ rest) in *
      by (rewrite <- app_assoc; reflexivity).
    apply IH; [exact Hlen|].
    apply allele_base_structure_step_inv; [|exact Hinv].
    rewrite !length_app in Hlen. cbn in Hlen. lia.
Qed.

(** X13.  The base coverage that [allele_base_structure] gives, when it
    returns: one entry per variant site; every allele in it has a base, and
    all its counters are zero; and when the sites mask ends with a zero,
    there are as many counters as entries of the sites mask that are not
    zero. *)
Theorem allele_base_structure_counters (number_of_variant_sites : Z)
    (prg_info : PRG_Info) (coverage : list (list (list Z))) :
  Z.of_nat (length (sites_mask prg_info)) <= UINT64_MAX ->
  allele_base_structure number_of_variant_sites prg_info = Some coverage ->
  length coverage = Z.to_nat number_of_variant_sites
  /\ Forall (Forall fresh_allele) coverage
  /\ (last (sites_mask prg_info) = Some 0 ->
      length (concat (concat coverage))
      = count_if within_allele (sites_mask prg_info)).
Proof.
  intros Hlen Hrun. unfold allele_base_structure in Hrun.
  pose proof (allele_base_structure_fold_inv number_of_variant_sites
                (sites_mask prg_info) []
                (Some (repeat [] (Z.to_nat number_of_variant_sites), 0, 0))
                Hlen) as Hinv.
  cbn [app] in Hinv.
  destruct (fold_left _ _ _) as [[[coverage' allele_size] last_marker]|];
    [|discriminate].
  inversion Hrun. subst coverage'.
  destruct Hinv as (Hn & Hfresh & Hsize & Htotal & Hlast).
  - unfold structure_inv. rewrite repeat_length.
    split; [reflexivity|]. split.
    { apply List.Forall_forall. intros site Hsite.
      apply repeat_spec in Hsite. subst site. constructor. }
    split; [lia|]. split; [|discriminate].
    cbn [count_if]. 
    assert (concat (repeat (@nil (list Z)) (Z.to_nat number_of_variant_sites)) = [])
      as ->; [|reflexivity].
    induction (Z.to_nat number_of_variant_sites); [reflexivity | exact IHn].
  - split; [exact Hn|]. split; [exact Hfresh|].
    intros Hzero. specialize (Hlast Hzero). lia.
Qed.

Lemma allele_base_structure_counters_witness :
  length [[[0; 0; 0; 0; 0; 0; 0]; [0]]] = Z.to_nat 1
  /\ Forall (Forall fresh_allele) [[[0; 0; 0; 0; 0; 0; 0]; [0]]]
  /\ (last (sites_mask prg_repeat_allele) = Some 0 ->
      length (concat (concat [[[0; 0; 0; 0; 0; 0; 0]; [0]]]))
      = count_if within_allele (sites_mask prg_repeat_allele)).
Proof.
  apply (allele_base_structure_counters 1 prg_repeat_allele).
  - vm_compute. discriminate.
  - vm_compute. reflexivity.
Defined.
(** ** Kmers, further *)

Lemma sa_range_cons (lo hi : Z) :
  lo <= hi -> sa_range lo hi = lo :: sa_range (lo + 1) hi.
Proof.
  intros H. rewrite (sa_range_split lo hi lo) by lia.
  unfold sa_range at 1. replace (Z.to_nat (lo - 1 - lo + 1)) with 0%nat by lia.
  reflexivity.
Qed.

Lemma kmer_read_fours (oob : Z -> Z) (prefix : list Z) (x : Z) (n j : nat) :
  (j < n)%nat ->
  kmer_read oob (prefix ++ [x] ++ repeat 4 n) (Z.of_nat (length prefix + 1 + j)) = 4.
Proof.
  intros Hj. unfold kmer_read.
  rewrite !length_app, repeat_length. cbn [length].
  replace ((0 <=? _) && _) with true
    by (symmetry; apply andb_true_intro; split;
        [apply Z.leb_le | apply Z.ltb_lt]; lia).
  unfold vec_at. rewrite Nat2Z.id.
  rewrite app_nth2 by lia. rewrite app_nth2 by (cbn [length]; lia).
  apply nth_repeat_lt. cbn [length]. lia.
Qed.

Lemma kmer_read_focal (oob : Z -> Z) (prefix : list Z) (x : Z) (n : nat) :
  kmer_read oob (prefix ++ [x] ++ repeat 4 n) (Z.of_nat (length prefix)) = x.
Proof.
  unfold kmer_read.
  rewrite !length_app, repeat_length. cbn [length].
  replace ((0 <=? _) && _) with true
    by (symmetry; apply andb_true_intro; split;
        [apply Z.leb_le | apply Z.ltb_lt]; lia).
  unfold vec_at. rewrite Nat2Z.id.
  rewrite app_nth2 by lia. rewrite Nat.sub_diag. reflexivity.
Qed.

Lemma next_kmer_scan_stops (oob : Z -> Z) (prefix : list Z) (x : Z) (n : nat)
    (j fuel : nat) (reads : list Z) :
  x <> 4 ->
  (j <= n)%nat ->
  (j < fuel)%nat ->
  fst (next_kmer_scan fuel oob (prefix ++ [x] ++ repeat 4 n)
         (Z.of_nat (length prefix + j)) reads)
  = Some (Z.of_nat (length prefix)).
Proof.
  intros Hx. revert fuel reads.
  induction j as [|j IH]; intros fuel reads Hj Hfuel.
  - destruct fuel as [|fuel]; [lia|]. cbn [next_kmer_scan].
    rewrite Nat.add_0_r, kmer_read_focal.
    destruct (Z.eqb_spec x 4); [contradiction | reflexivity].
  - destruct fuel as [|fuel]; [lia|]. cbn [next_kmer_scan].
    replace (length prefix + S j)%nat with (length prefix + 1 + j)%nat by lia.
    rewrite kmer_read_fours by lia. change (4 =? 4) with true. cbv iota.
    replace (Z.of_nat (length prefix + 1 + j) - 1)
      with (Z.of_nat (length prefix + j)) by lia.
    apply IH; lia.
Qed.

Lemma reset_to_ones (done rest : list Z) :
  fold_left (fun kmer i => <[Z.to_nat i := 1]> kmer)
            (sa_range (Z.of_nat (length done))
                      (Z.of_nat (length done + length rest) - 1))
            (done ++ rest)
  = done ++ repeat 1 (length rest).
Proof.
  revert done. induction rest as [|r rest IH]; intros done.
  - rewrite sa_range_empty by (cbn [length]; lia). reflexivity.
  - rewrite sa_range_cons by (cbn [length]; lia). cbn [fold_left].
    rewrite Nat2Z.id, insert_app_r_alt, Nat.sub_diag by lia.
    change (<[0%nat := 1]> (r :: rest)) with ([1] ++ rest).
    rewrite app_assoc.
    specialize (IH (done ++ [1])). rewrite length_app in IH.
    cbn [length] in IH |- *.
    replace (Z.of_nat (length done) + 1) with (Z.of_nat (length done + 1)) by lia.
    replace (length done + S (length rest))%nat
      with (length done + 1 + length rest)%nat by lia.
    rewrite IH, <- app_assoc. reflexivity.
Qed.

(** X14.  On a kmer that is not the last one, [next_kmer] reads within the
    kmer only and gives the next kmer: the rightmost base that is not [4]
    goes up by one, and the [4]s to its right become [1]s, whatever the
    memory around the vector holds. *)
Theorem next_kmer_successor (fuel : nat) (oob : Z -> Z) (prefix : list Z)
    (x : Z) (n : nat) :
  x <> 4 ->
  0 <= x < 255 ->
  (n < fuel)%nat ->
  next_kmer fuel oob (prefix ++ [x] ++ repeat 4 n)
    (Z.of_nat (length prefix + 1 + n))
  = Some (prefix ++ [x + 1] ++ repeat 1 n).
Proof.
  intros Hx Hbyte Hfuel. unfold next_kmer.
  replace (Z.of_nat (length prefix + 1 + n) - 1)
    with (Z.of_nat (length prefix + n)) by lia.
  rewrite next_kmer_scan_stops by (assumption || lia).
  replace (Z.of_nat (length prefix) <? 0) with false
    by (symmetry; apply Z.ltb_ge; lia).
  f_equal. rewrite Nat2Z.id.
  pose proof (kmer_read_focal oob prefix x n) as Hfocal.
  unfold kmer_read in Hfocal. rewrite !length_app, repeat_length in Hfocal.
  cbn [length] in Hfocal.
  replace ((0 <=? _) && _) with true in Hfocal
    by (symmetry; apply andb_true_intro; split;
        [apply Z.leb_le | apply Z.ltb_lt]; lia).
  rewrite Hfocal. unfold wrap8. rewrite Z.mod_small by lia.
  rewrite insert_app_r_alt, Nat.sub_diag by lia.
  change (<[0%nat := x + 1]> ([x] ++ repeat 4 n)) with ([x + 1] ++ repeat 4 n).
  rewrite app_assoc.
  pose proof (reset_to_ones (prefix ++ [x + 1]) (repeat 4 n)) as Hreset.
  rewrite length_app, repeat_length in Hreset. cbn [length] in Hreset.
  replace (Z.of_nat (length prefix + 1)) with (Z.of_nat (length prefix) + 1)
    in Hreset by lia.
  replace (Z.of_nat (length prefix + 1 + n) - 1)
    with (Z.of_nat (length prefix + n)) in Hreset by lia.
  rewrite Hreset, <- app_assoc. reflexivity.
Qed.

Lemma next_kmer_successor_witness :
  next_kmer 3 (fun _ => 4) ([1; 4] ++ [2] ++ repeat 4 2)
    (Z.of_nat (length [1; 4] + 1 + 2))
  = Some ([1; 4] ++ [2 + 1] ++ repeat 1 2).
Proof. apply next_kmer_successor; [discriminate | lia | lia]. Defined.
Lemma reset_from (v : Z) (done rest : list Z) :
  fold_left (fun path j => <[j := v]> path)
            (seq (length done) (length rest)) (done ++ rest)
  = done ++ repeat v (length rest).
Proof.
  revert done. induction rest as [|r rest IH]; intros done; [reflexivity|].
  cbn [length seq fold_left].
  rewrite insert_app_r_alt, Nat.sub_diag by lia.
  change (<[0%nat := v]> (r :: rest)) with ([v] ++ rest).
  rewrite app_assoc.
  specialize (IH (done ++ [v])). rewrite length_app in IH. cbn [length] in IH.
  replace (S (length done)) with (length done + 1)%nat by lia.
  rewrite IH, <- app_assoc. reflexivity.
Qed.

Lemma rightmost_index_to_increase_lt (path counts : list Z) (n i : nat) :
  rightmost_index_to_increase path counts n = Some i -> (i < n)%nat.
Proof.
  induction n as [|n IH]; cbn [rightmost_index_to_increase]; [discriminate|].
  destruct (at_last_valid_index path counts n).
  - intros H. specialize (IH H). lia.
  - intros H. inversion H. lia.
Qed.

Lemma rightmost_index_to_increase_cons (p c : Z) (path counts : list Z) (k : nat) :
  rightmost_index_to_increase (p :: path) (c :: counts) (S k)
  = match rightmost_index_to_increase path counts k with
    | Some i => Some (S i)
    | None => if wrap64 (p + 1) =? c then None else Some 0%nat
    end.
Proof.
  induction k as [|k IH].
  - reflexivity.
  - change (rightmost_index_to_increase (p :: path) (c :: counts) (S (S k)))
      with (if at_last_valid_index path counts k
            then rightmost_index_to_increase (p :: path) (c :: counts) (S k)
            else Some (S k)).
    cbn [rightmost_index_to_increase].
    destruct (at_last_valid_index path counts k); [exact IH | reflexivity].
Qed.

Lemma update_allele_index_path_closed (path counts : list Z) (i : nat) :
  rightmost_index_to_increase path counts (length path) = Some i ->
  update_allele_index_path path counts
  = (true,
     firstn i path ++ [wrap64 (nth i path 0 + 1)]
       ++ repeat 0 (length path - S i)).
Proof.
  intros Hi. unfold update_allele_index_path. rewrite Hi.
  apply rightmost_index_to_increase_lt in Hi.
  f_equal. rewrite length_insert.
  rewrite insert_take_drop by exact Hi.
  pose proof (reset_from 0 (firstn i path ++ [wrap64 (nth i path 0 + 1)])
                (skipn (S i) path)) as Hreset.
  rewrite length_app, length_firstn, length_skipn in Hreset.
  cbn [length] in Hreset.
  replace (Nat.min i (length path) + 1)%nat with (S i) in Hreset by lia.
  rewrite <- !app_assoc in Hreset. exact Hreset.
Qed.

Lemma path_number_zeros (counts : list Z) :
  path_number (repeat 0 (length counts)) counts = 0.
Proof. induction counts as [|c counts IH]; cbn; [reflexivity | rewrite IH; lia]. Qed.

Lemma path_within_zeros (path counts : list Z) :
  path_within path counts -> path_within (repeat 0 (length path)) counts.
Proof.
  intros H. induction H as [|p c path counts Hpc _ IH]; cbn; constructor;
    [lia | exact IH].
Qed.

(** X15.  [update_allele_index_path] steps to the next path.  On a path
    whose allele indexes are below the numbers of alleles of their parts,
    when it returns [true] the new path is such a path again and is the
    next one in rank; when it returns [false] the path is left as it is,
    and it is the last one. *)
Theorem update_allele_index_path_next (current_allele_index_path
    parts_allele_counts : list Z) :
  path_within current_allele_index_path parts_allele_counts ->
  let result :=
    update_allele_index_path current_allele_index_path parts_allele_counts in
  if fst result
  then path_within (snd result) parts_allele_counts
       /\ path_number (snd result) parts_allele_counts
          = path_number current_allele_index_path parts_allele_counts + 1
  else snd result = current_allele_index_path
       /\ path_number current_allele_index_path parts_allele_counts + 1
          = product parts_allele_counts.
Proof.
  intros Hwithin. cbv zeta.
  induction Hwithin as [|p c path counts Hpc Hwithin IH].
  - cbn. split; reflexivity.
  - pose proof (Forall2_length _ _ _ Hwithin) as Hlen.
    pose proof (rightmost_index_to_increase_cons p c path counts (length path))
      as Hcons.
    change (S (length path)) with (length (p :: path)) in Hcons.
    destruct (rightmost_index_to_increase path counts (length path))
      as [i|] eqn:Hright.
    + rewrite (update_allele_index_path_closed _ _ _ Hcons).
      rewrite (update_allele_index_path_closed _ _ _ Hright) in IH.
      cbn [fst snd] in IH |- *. destruct IH as [IHwithin IHnumber].
      change (firstn (S i) (p :: path)) with (p :: firstn i path).
      change (nth (S i) (p :: path) 0) with (nth i path 0).
      change (length (p :: path) - S (S i))%nat with (length path - S i)%nat.
      split.
      * constructor; [exact Hpc | exact IHwithin].
      * cbn [app path_number]. cbn [app] in IHnumber. rewrite IHnumber. lia.
    + unfold update_allele_index_path in IH. rewrite Hright in IH.
      cbn [fst snd] in IH. destruct IH as [_ IHnumber].
      rewrite (wrap64_small (p + 1)) in Hcons by lia.
      destruct (Z.eqb_spec (p + 1) c) as [Hlast|Hmore].
      * unfold update_allele_index_path. rewrite Hcons. cbn [fst snd].
        split; [reflexivity|]. cbn [path_number product fold_right].
        fold (product counts). nia.
      * rewrite (update_allele_index_path_closed _ _ _ Hcons).
        cbn [fst snd firstn app nth length].
        replace (S (length path) - 1)%nat with (length path) by lia.
        rewrite (wrap64_small (p + 1)) by lia.
        split.
        { constructor; [lia|]. apply path_within_zeros. exact Hwithin. }
        { cbn [path_number]. rewrite Hlen, path_number_zeros. nia. }
Qed.

Lemma update_allele_index_path_next_witness :
  let result := update_allele_index_path [0; 1; 2] [2; 2; 3] in
  if fst result
  then path_within (snd result) [2; 2; 3]
       /\ path_number (snd result) [2; 2; 3] = path_number [0; 1; 2] [2; 2; 3] + 1
  else snd result = [0; 1; 2]
       /\ path_number [0; 1; 2] [2; 2; 3] + 1 = product [2; 2; 3].
Proof.
  apply (update_allele_index_path_next [0; 1; 2] [2; 2; 3]).
  repeat constructor; vm_compute; discriminate.
Defined.
Lemma ordering_condition_false (lhs rhs : PrgIndexRange) :
  ordering_condition rhs lhs = false
  <-> fst lhs < fst rhs \/ (fst lhs = fst rhs /\ snd lhs <= snd rhs).
Proof.
  unfold ordering_condition.
  destruct (Z.ltb_spec (fst rhs) (fst lhs)); [split; [discriminate | lia]|].
  destruct (Z.eqb_spec (fst rhs) (fst lhs)).
  - rewrite Z.ltb_ge. lia.
  - split; [lia | reflexivity].
Qed.

Lemma range_le_total : Total range_le.
Proof.
  intros lhs rhs. unfold range_le. rewrite !ordering_condition_false. lia.
Qed.

Lemma range_le_trans : Transitive range_le.
Proof.
  intros a b c. unfold range_le. rewrite !ordering_condition_false. lia.
Qed.

Lemma range_le_fst (lhs rhs : PrgIndexRange) :
  range_le lhs rhs -> fst lhs <= fst rhs.
Proof. unfold range_le. rewrite ordering_condition_false. lia. Qed.

Lemma covers_app (l1 l2 : list PrgIndexRange) (x : Z) :
  covers (l1 ++ l2) x <-> covers l1 x \/ covers l2 x.
Proof.
  unfold covers. split.
  - intros (r & Hin & Hx). apply in_app_or in Hin as [Hin|Hin]; eauto.
  - intros [(r & Hin & Hx)|(r & Hin & Hx)]; exists r; split; auto;
      apply in_or_app; auto.
Qed.

Lemma covers_one (range : PrgIndexRange) (x : Z) :
  covers [range] x <-> fst range <= x <= snd range.
Proof.
  unfold covers. split.
  - intros (r & [<-|[]] & Hx). exact Hx.
  - intros Hx. exists range. split; [left; reflexivity | exact Hx].
Qed.

Lemma covers_cons (range : PrgIndexRange) (l : list PrgIndexRange) (x : Z) :
  covers (range :: l) x <-> fst range <= x <= snd range \/ covers l x.
Proof. rewrite <- covers_one. apply (covers_app [range] l). Qed.

Lemma covers_permutation (l1 l2 : list PrgIndexRange) (x : Z) :
  Permutation l1 l2 -> covers l1 x <-> covers l2 x.
Proof.
  intros Hp. unfold covers. split; intros (r & Hin & Hx); exists r; split; auto.
  - eapply Permutation_in; [exact Hp | exact Hin].
  - eapply Permutation_in; [symmetry; exact Hp | exact Hin].
Qed.

Lemma StronglySorted_snoc {A} (R : A -> A -> Prop) (l : list A) (x : A) :
  StronglySorted R l -> Forall (fun y => R y x) l -> StronglySorted R (l ++ [x]).
Proof.
  intros Hs Hall. induction Hs as [|y l Hs IH Hy]; cbn.
  - constructor; constructor.
  - inversion Hall; subst. constructor; [apply IH; assumption|].
    apply Forall_app. split; [exact Hy | constructor; [assumption | constructor]].
Qed.

Lemma proper_range_not_first (range : PrgIndexRange) :
  proper_range range -> (fst range =? 0) && (snd range =? 0) = false.
Proof.
  intros [Hwf Hne]. destruct range as [a b]. cbn in *.
  destruct (Z.eqb_spec a 0), (Z.eqb_spec b 0); try reflexivity.
  subst. contradiction.
Qed.

Lemma combine_step_inv (st : list PrgIndexRange * PrgIndexRange)
    (range : PrgIndexRange) :
  combine_inv st ->
  proper_range range ->
  fst (snd st) <= fst range ->
  combine_inv (combine_step st range)
  /\ fst (snd (combine_step st range)) <= fst range
  /\ forall x, covers (fst (combine_step st range)
                       ++ [snd (combine_step st range)]) x
               <-> covers (fst st ++ [snd st]) x \/ covers [range] x.
Proof.
  destruct st as [reduced last].
  intros (Hproper & Hsorted & Hbefore & Hlast) Hrange Hle. cbn [fst snd] in *.
  unfold combine_step. cbn [fst snd].
  rewrite (proper_range_not_first _ Hlast).
  destruct (Z.ltb_spec (snd last) (fst range)) as [Hapart|Hoverlap].
  - (* the range starts past the one under construction *)
    cbn [fst snd]. split; [|split; [lia|]].
    + unfold combine_inv. cbn [fst snd].
      split; [apply Forall_app; split; [exact Hproper | constructor; [exact Hlast | constructor]]|].
      split; [apply StronglySorted_snoc; assumption|].
      split; [|exact Hrange].
      apply Forall_app. split.
      * eapply Forall_impl; [exact Hbefore|]. unfold range_before.
        intros r Hr. cbn in Hr. destruct Hlast as [Hwf _]. lia.
      * constructor; [exact Hapart | constructor].
    + intros x. rewrite (covers_app (reduced ++ [last]) [range]). reflexivity.
  - destruct (Z.ltb_spec (snd range) (snd last)) as [Hinside|Hextend].
    + (* the range lies within the one under construction *)
      cbn [fst snd]. split; [|split; [exact Hle|]].
      * unfold combine_inv. cbn [fst snd]. auto.
      * intros x. rewrite covers_app, !covers_one. intuition lia.
    + (* the range extends the one under construction *)
      cbn [fst snd]. split; [|split; [exact Hle|]].
      * unfold combine_inv. cbn [fst snd].
        split; [exact Hproper|]. split; [exact Hsorted|]. split; [exact Hbefore|].
        destruct Hlast as [Hwf Hne], Hrange as [Hwf' Hne'].
        split; [cbn [fst snd]; lia|].
        destruct last as [a b], range as [a' b']. cbn [fst snd] in *.
        intros Heq. inversion Heq. subst.
        assert (a' = 0) by lia. assert (b = 0) by lia. subst. contradiction.
      * intros x. rewrite !covers_app, !covers_one. cbn [fst snd].
        destruct Hrange as [Hwf' _]. intuition lia.
Qed.

Lemma combine_fold_inv (rest : list PrgIndexRange)
    (st : list PrgIndexRange * PrgIndexRange) :
  combine_inv st ->
  Forall proper_range rest ->
  StronglySorted range_le rest ->
  Forall (fun range => fst (snd st) <= fst range) rest ->
  combine_inv (fold_left combine_step rest st)
  /\ forall x, covers (fst (fold_left combine_step rest st)
                       ++ [snd (fold_left combine_step rest st)]) x
               <-> covers (fst st ++ [snd st]) x \/ covers rest x.
Proof.
  revert st. induction rest as [|range rest IH];
    intros st Hinv Hproper Hsorted Hbound.
  - cbn [fold_left]. split; [exact Hinv|]. intros x. unfold covers at 3.
    split; [auto|]. intros [H|(r & [] & _)]. exact H.
  - cbn [fold_left].
    inversion Hproper as [|? ? Hrange Hproper']. subst.
    inversion Hsorted as [|? ? Hsorted' Hfirst]. subst.
    inversion Hbound as [|? ? Hle Hbound']. subst.
    destruct (combine_step_inv st range Hinv Hrange Hle)
      as (Hinv' & Hle' & Hcovers').
    destruct (IH (combine_step st range) Hinv' Hproper' Hsorted') as [Hinv'' Hcovers''].
    { eapply Forall_impl; [exact Hfirst|]. intros r Hr. cbn.
      apply range_le_fst in Hr. lia. }
    split; [exact Hinv''|].
    intros x. rewrite Hcovers'', Hcovers', (covers_cons range rest), covers_one.
    tauto.
Qed.

Lemma combine_last_not_added (reduced : list PrgIndexRange)
    (last_range_seen : PrgIndexRange) :
  combine_inv (reduced, last_range_seen) ->
  reduced <> [] ->
  List.last reduced (0, 0) <> last_range_seen.
Proof.
  intros (_ & _ & Hbefore & [Hwf _]) Hne. cbn [fst snd] in *.
  destruct (exists_last Hne) as (front & back & ->).
  rewrite last_last. apply Forall_app in Hbefore as [_ Hback].
  inversion Hback as [|? ? Hb _]. subst. unfold range_before in Hb.
  intros ->. lia.
Qed.

(** X16.  [combine_overlapping_regions] on ranges that are not empty, none
    of them the range from 0 to 0.  The ranges it gives hold the same
    positions of the PRG as the ranges it is given; they come in
    increasing order, each ending before the next one starts, and none is
    empty. *)
Theorem combine_overlapping_regions_covers
    (kmer_region_ranges : list PrgIndexRange) :
  Forall proper_range kmer_region_ranges ->
  (forall x, covers (combine_overlapping_regions kmer_region_ranges) x
             <-> covers kmer_region_ranges x)
  /\ StronglySorted range_before (combine_overlapping_regions kmer_region_ranges)
  /\ Forall proper_range (combine_overlapping_regions kmer_region_ranges).
Proof.
  intros Hproper. unfold combine_overlapping_regions.
  pose proof (merge_sort_Permutation range_le kmer_region_ranges) as Hperm.
  pose proof (@StronglySorted_merge_sort _ range_le _ range_le_trans
                range_le_total kmer_region_ranges) as Hsorted.
  assert (Forall proper_range (merge_sort range_le kmer_region_ranges))
    as Hproper'.
  { eapply Permutation_Forall; [symmetry; exact Hperm | exact Hproper]. }
  assert (forall x, covers (merge_sort range_le kmer_region_ranges) x
                    <-> covers kmer_region_ranges x) as Hsame.
  { intros x. apply covers_permutation. exact Hperm. }
  destruct (merge_sort range_le kmer_region_ranges) as [|first rest].
  - cbn. split; [exact Hsame|]. split; constructor.
  - change (fold_left combine_step (first :: rest) ([], (0, 0)))
      with (fold_left combine_step rest ([], first)).
    inversion Hproper' as [|? ? Hfirst Hrest]. subst.
    inversion Hsorted as [|? ? Hsorted' Hle]. subst.
    destruct (combine_fold_inv rest ([], first)) as [Hinv Hcovers].
    { unfold combine_inv. cbn [fst snd].
      repeat split; try constructor; apply Hfirst. }
    { exact Hrest. }
    { exact Hsorted'. }
    { eapply Forall_impl; [exact Hle|]. intros r Hr. cbn.
      apply range_le_fst. exact Hr. }
    destruct (fold_left combine_step rest ([], first)) as [reduced last] eqn:Hfold.
    cbn [fst snd] in *.
    pose proof Hinv as (Hp & Hs & Hb & Hl). cbn [fst snd] in *.
    rewrite (proper_range_not_first _ Hl).
    assert (match reduced with
            | [] => [last]
            | _ :: _ =>
                if bool_decide (List.last reduced (0, 0) <> last)
                then reduced ++ [last] else reduced
            end = reduced ++ [last]) as ->.
    { destruct reduced as [|r reduced]; [reflexivity|].
      rewrite bool_decide_eq_true_2; [reflexivity|].
      apply combine_last_not_added; [exact Hinv | discriminate]. }
    split; [|split].
    + intros x. rewrite Hcovers, <- Hsame. cbn [app].
      rewrite (covers_cons first rest), covers_one. tauto.
    + apply StronglySorted_snoc; assumption.
    + apply Forall_app. split; [exact Hp | constructor; [exact Hl | constructor]].
Qed.

Lemma combine_overlapping_regions_covers_witness :
  (forall x, covers (combine_overlapping_regions [(5, 9); (1, 3); (2, 6); (12, 14)]) x
             <-> covers [(5, 9); (1, 3); (2, 6); (12, 14)] x)
  /\ StronglySorted range_before
       (combine_overlapping_regions [(5, 9); (1, 3); (2, 6); (12, 14)])
  /\ Forall proper_range
       (combine_overlapping_regions [(5, 9); (1, 3); (2, 6); (12, 14)]).
Proof.
  apply combine_overlapping_regions_covers.
  repeat constructor; cbn; lia || discriminate.
Defined.
Lemma map_nth_seq (l : list Z) (count : nat) :
  (count <= length l)%nat ->
  map (fun k => nth k l 0) (seq 0 count) = firstn count l.
Proof.
  revert count. induction l as [|x l IH]; intros count Hcount.
  - cbn in Hcount. assert (count = 0%nat) as -> by lia. reflexivity.
  - destruct count as [|count]; [reflexivity|].
    cbn [seq map nth firstn]. f_equal.
    rewrite <- seq_shift, map_map. cbn [nth]. apply IH. cbn in Hcount. lia.
Qed.

Lemma kmer_read_slice (oob : Z -> Z) (path : list Z) (lo hi : Z) :
  0 <= lo ->
  hi < Z.of_nat (length path) ->
  map (kmer_read oob path) (sa_range lo hi)
  = firstn (Z.to_nat (hi - lo + 1)) (skipn (Z.to_nat lo) path).
Proof.
  intros Hlo Hhi. unfold sa_range. rewrite map_map.
  rewrite <- map_nth_seq by (rewrite length_skipn; lia).
  apply map_ext_in. intros k Hk. apply in_seq in Hk.
  unfold kmer_read.
  replace ((0 <=? _) && _) with true
    by (symmetry; apply andb_true_intro; split;
        [apply Z.leb_le | apply Z.ltb_lt]; lia).
  unfold vec_at. rewrite nth_skipn_plus. f_equal. lia.
Qed.

Lemma sa_range_snoc (lo hi : Z) :
  lo <= hi -> sa_range lo hi = sa_range lo (hi - 1) ++ [hi].
Proof.
  intros H. rewrite (sa_range_split lo hi hi) by lia.
  rewrite (sa_range_empty (hi + 1) hi) by lia. reflexivity.
Qed.

Lemma int64_of_uint64_small (x : Z) : 0 <= x < 2 ^ 63 -> int64_of_uint64 x = x.
Proof.
  intros H. unfold int64_of_uint64.
  destruct (Z.ltb_spec x (2 ^ 63)); [reflexivity | lia].
Qed.

Lemma get_path_reverse_kmers_loop_windows (oob : Z -> Z) (path : list Z)
    (kmer_size : Z) (m fuel : nat) (reverse_kmers : list (list Z)) :
  2 <= kmer_size < 2 ^ 63 ->
  Z.of_nat (length path) < 2 ^ 63 ->
  kmer_size - 2 + Z.of_nat m < Z.of_nat (length path) ->
  (m < fuel)%nat ->
  get_path_reverse_kmers_loop fuel oob path kmer_size
    (kmer_size - 2 + Z.of_nat m) reverse_kmers
  = Some (reverse_kmers
          ++ map (reverse_kmer_at path kmer_size)
                 (rev (sa_range (kmer_size - 1) (kmer_size - 2 + Z.of_nat m)))).
Proof.
  intros Hk Hn. revert fuel reverse_kmers.
  assert (2 ^ 63 < UINT64_MAX) as H63 by (vm_compute; reflexivity).
  induction m as [|m IH]; intros fuel reverse_kmers Hm Hfuel;
    (destruct fuel as [|fuel]; [lia|]); cbn [get_path_reverse_kmers_loop];
    rewrite (wrap64_small (kmer_size - 1)) by lia;
    rewrite (wrap64_small (kmer_size - 2 + _)) by lia.
  - destruct (Z.leb_spec (kmer_size - 1) (kmer_size - 2 + Z.of_nat 0)); [lia|].
    rewrite sa_range_empty by lia. cbn. rewrite app_nil_r. reflexivity.
  - destruct (Z.leb_spec (kmer_size - 1) (kmer_size - 2 + Z.of_nat (S m))); [|lia].
    replace (kmer_size - 2 + Z.of_nat (S m) - 1)
      with (kmer_size - 2 + Z.of_nat m) by lia.
    rewrite IH by lia.
    rewrite (sa_range_snoc (kmer_size - 1) (kmer_size - 2 + Z.of_nat (S m))) by lia.
    replace (kmer_size - 2 + Z.of_nat (S m) - 1)
      with (kmer_size - 2 + Z.of_nat m) by lia.
    rewrite rev_app_distr. cbn [rev app map]. rewrite <- app_assoc. cbn [app].
    f_equal. f_equal. f_equal.
    rewrite int64_of_uint64_small by lia.
    rewrite map_rev, kmer_read_slice by lia.
    unfold reverse_kmer_at. f_equal. f_equal. lia.
Qed.

(** X17.  [get_path_reverse_kmers] on a path that is not empty, for kmers
    of two bases or more.  It reads within the path only, and gives the
    kmers of the path, each back to front, from the one that ends the path
    to the one that starts it. *)
Theorem get_path_reverse_kmers_windows (fuel : nat) (oob : Z -> Z)
    (path : list Z) (kmer_size : Z) :
  2 <= kmer_size < 2 ^ 63 ->
  path <> [] ->
  Z.of_nat (length path) < 2 ^ 63 ->
  (length path < fuel)%nat ->
  get_path_reverse_kmers fuel oob path kmer_size
  = Some (map (reverse_kmer_at path kmer_size)
              (rev (sa_range (kmer_size - 1) (Z.of_nat (length path) - 1)))).
Proof.
  intros Hk Hpath Hn Hfuel. unfold get_path_reverse_kmers.
  assert (2 ^ 63 < UINT64_MAX) as H63 by (vm_compute; reflexivity).
  assert (0 < length path)%nat as Hpos by (destruct path; [contradiction | cbn; lia]).
  rewrite wrap64_small by lia. rewrite int64_of_uint64_small by lia.
  destruct (Z.le_gt_cases (kmer_size - 1) (Z.of_nat (length path) - 1))
    as [Hfits|Hshort].
  - pose proof (get_path_reverse_kmers_loop_windows oob path kmer_size
                  (Z.to_nat (Z.of_nat (length path) - 1 - (kmer_size - 2)))
                  fuel [] Hk Hn) as Hloop.
    rewrite Z2Nat.id in Hloop by lia.
    replace (kmer_size - 2 + (Z.of_nat (length path) - 1 - (kmer_size - 2)))
      with (Z.of_nat (length path) - 1) in Hloop by lia.
    apply Hloop; lia.
  - destruct fuel as [|fuel]; [lia|]. cbn [get_path_reverse_kmers_loop].
    rewrite !wrap64_small by lia.
    destruct (Z.leb_spec (kmer_size - 1) (Z.of_nat (length path) - 1)); [lia|].
    rewrite sa_range_empty by lia. reflexivity.
Qed.

Lemma get_path_reverse_kmers_windows_witness :
  get_path_reverse_kmers 5 (fun _ => 0) [1; 2; 3; 4] 3
  = Some (map (reverse_kmer_at [1; 2; 3; 4] 3)
              (rev (sa_range (3 - 1) (Z.of_nat (length [1; 2; 3; 4]) - 1)))).
Proof.
  apply get_path_reverse_kmers_windows.
  - split; [lia | vm_compute; reflexivity].
  - discriminate.
  - vm_compute. reflexivity.
  - simpl. lia.
Defined.

Lemma get_path_reverse_kmers_loop_runs_on (fuel : nat) (oob : Z -> Z)
    (path : list Z) (i : Z) (reverse_kmers : list (list Z)) :
  get_path_reverse_kmers_loop fuel oob path 1 i reverse_kmers = None.
Proof.
  revert i reverse_kmers. induction fuel as [|fuel IH]; intros i reverse_kmers;
    cbn [get_path_reverse_kmers_loop]; [reflexivity|].
  change (wrap64 (1 - 1)) with 0.
  destruct (Z.leb_spec 0 (wrap64 i)) as [_|Hneg]; [apply IH|].
  unfold wrap64 in Hneg. pose proof (Z.mod_pos_bound i (2 ^ 64) ltac:(lia)). lia.
Qed.

(** X18.  For kmers of one base the loop of [get_path_reverse_kmers] has no
    end: its index, an [int64_t], is compared on [uint64_t] with
    [kmer_size - 1], which is 0, and no number of iterations brings the
    function to return. *)
Theorem get_path_reverse_kmers_size_one_runs_on (fuel : nat) (oob : Z -> Z)
    (path : list Z) :
  get_path_reverse_kmers fuel oob path 1 = None.
Proof. apply get_path_reverse_kmers_loop_runs_on. Qed.
Lemma wrap64_minus_one : wrap64 (-1) = UINT64_MAX.
Proof. reflexivity. Qed.

(** X19.  [extract_simple_reverse_kmer] gives the kmer that ends at
    [kmer_end_index] in the PRG, back to front, and nothing when the PRG
    has fewer than [kmer_size] symbols up to that index. *)
Theorem extract_simple_reverse_kmer_window (kmer_end_index kmer_size : Z)
    (prg_info : PRG_Info) :
  0 <= kmer_size < 2 ^ 63 ->
  0 <= kmer_end_index < Z.of_nat (length (encoded_prg prg_info)) ->
  Z.of_nat (length (encoded_prg prg_info)) < 2 ^ 63 ->
  Forall (fun symbol => 0 <= symbol < 256) (encoded_prg prg_info) ->
  extract_simple_reverse_kmer kmer_end_index kmer_size prg_info
  = if kmer_size <=? kmer_end_index + 1
    then reverse_kmer_at (encoded_prg prg_info) kmer_size kmer_end_index
    else [].
Proof.
  intros Hk Hend Hn Hbytes. unfold extract_simple_reverse_kmer.
  assert (2 ^ 63 < UINT64_MAX) as H63 by (vm_compute; reflexivity).
  rewrite !int64_of_uint64_small by lia.
  destruct (Z.leb_spec kmer_size (kmer_end_index + 1)) as [Hfits|Hshort].
  - destruct (Z.leb_spec 0 (kmer_end_index - kmer_size + 1)); [|lia].
    assert (wrap64 (wrap64 (kmer_end_index - kmer_size) + 1)
            = kmer_end_index - kmer_size + 1) as ->.
    { destruct (Z.eq_dec kmer_size (kmer_end_index + 1)) as [->|Hne].
      - replace (kmer_end_index - (kmer_end_index + 1)) with (-1) by lia.
        rewrite wrap64_minus_one. unfold wrap64, UINT64_MAX.
        replace (2 ^ 64 - 1 + 1) with (2 ^ 64) by lia.
        rewrite Z.mod_same by lia. lia.
      - rewrite (wrap64_small (kmer_end_index - kmer_size)) by lia.
        apply wrap64_small. lia. }
    unfold reverse_kmer_at. rewrite map_rev. f_equal.
    assert (forall lo hi, 0 <= lo -> hi < Z.of_nat (length (encoded_prg prg_info)) ->
              map (fun i => wrap8 (vec_at (encoded_prg prg_info) i)) (sa_range lo hi)
              = map (kmer_read (fun _ => 0) (encoded_prg prg_info)) (sa_range lo hi))
      as Hsame.
    { intros lo hi Hlo Hhi. apply map_ext_in. intros i Hi.
      apply in_sa_range in Hi. unfold kmer_read.
      replace ((0 <=? i) && _) with true
        by (symmetry; apply andb_true_intro; split;
            [apply Z.leb_le | apply Z.ltb_lt]; lia).
      unfold wrap8, vec_at. apply Z.mod_small.
      apply (proj1 (List.Forall_forall _ _) Hbytes). apply nth_In. lia. }
    rewrite Hsame, kmer_read_slice by lia. f_equal. lia.
  - destruct (Z.leb_spec 0 (kmer_end_index - kmer_size + 1)); [lia | reflexivity].
Qed.

Lemma extract_simple_reverse_kmer_window_witness :
  extract_simple_reverse_kmer 6 3 prg_repeat_allele
  = if 3 <=? 6 + 1
    then reverse_kmer_at (encoded_prg prg_repeat_allele) 3 6
    else [].
Proof.
  apply extract_simple_reverse_kmer_window.
  - split; [lia | vm_compute; reflexivity].
  - vm_compute. split; [discriminate | reflexivity].
  - vm_compute. reflexivity.
  - vm_compute. repeat constructor; discriminate.
Defined.

(** ** Search, further *)

(** X20.  For a state whose interval lies within the rows 0 to [2^31 - 1]:
    a row [i] of the interval whose BWT symbol is an odd site marker [m],
    the marker sitting at the end of its site, gives one state per row [j]
    of the interval that [get_allele_marker_sa_interval] computes for [m],
    with interval [[j, j]] and the locus [(m, allele_mask[SA[j] - 1])]
    prepended to the path, followed by one state at the SA row of the site
    marker itself whose allele id is the number of rows of that interval
    plus one. *)
Theorem entering_site_states_per_interval_row (p : PRG_Info) (s : SearchState) (i m : Z) :
  let fm := fm_index p in
  let first_row := vec_at (C fm) (vec_at (char2comp fm) m) in
  let marker_row := first_row + bwt_rank fm i m in
  let other_row := if marker_row =? first_row then first_row + 1 else first_row in
  let alo := fst (get_allele_marker_sa_interval m p) in
  let ahi := snd (get_allele_marker_sa_interval m p) in
  0 <= fst (sa_interval s) ->
  snd (sa_interval s) < 2 ^ 31 ->
  fst (sa_interval s) <= i <= snd (sa_interval s) ->
  bit_at (bwt_markers_mask p) i = true ->
  vec_at (bwt fm) i = m ->
  m mod 2 = 1 ->
  0 <= first_row ->
  first_row + Z.of_nat (length (bwt fm)) < UINT64_MAX ->
  vec_at (sa fm) other_row < vec_at (sa fm) marker_row ->
  0 <= alo <= ahi + 1 ->
  ahi + 1 < UINT64_MAX ->
  process_markers_search_state s p =
    process_markers_search_state (set_sa_interval s (fst (sa_interval s), i - 1)) p
    ++ map (fun j =>
              {| sa_interval := (j, j);
                 variant_site_path :=
                   (m, vec_at (allele_mask p) (wrap64 (vec_at (sa fm) j - 1)))
                     :: variant_site_path s;
                 variant_site_state := within_variant_site;
                 invalid := invalid s |})
           (sa_range alo ahi)
    ++ [ {| sa_interval := (marker_row, marker_row);
            variant_site_path :=
              (m, Z.of_nat (length (sa_range alo ahi)) + 1) :: variant_site_path s;
            variant_site_state := within_variant_site;
            invalid := invalid s |} ]
    ++ process_markers_search_state
         (set_sa_interval s (i + 1, snd (sa_interval s))) p.
Proof.
  intros fm first_row marker_row other_row alo ahi
    Hlo Hhi Hi Hbit Hbwt Hodd Hf0 Hfmax Hend Ha Hamax.
  rewrite (process_markers_search_state_split s p i Hlo Hhi Hi).
  f_equal. rewrite app_assoc. f_equal.
  unfold marker_row_states. rewrite Hbit. fold fm. rewrite Hbwt.
  replace (m mod 2 =? 1) with true by (symmetry; apply Z.eqb_eq; exact Hodd).
  pose proof (bwt_rank_bounds fm m i) as Hrk.
  assert (site_boundary_marker_info m i p
          = {| is_start_boundary := false;
               boundary_sa_interval := (marker_row, marker_row);
               marker_char := m |}) as Hinfo.
  { unfold site_boundary_marker_info. fold fm. fold first_row.
    assert ((if i <=? 0 then 0 else bwt_rank fm i m) = bwt_rank fm i m) as ->.
    { destruct (Z.leb_spec i 0); [symmetry; apply bwt_rank_0; lia | reflexivity]. }
    fold marker_row.
    rewrite (wrap64_small marker_row) by (unfold marker_row; lia).
    rewrite (wrap64_small (first_row + 1)) by lia.
    assert ((if marker_row =? first_row
             then vec_at (sa fm) (first_row + 1) else vec_at (sa fm) first_row)
            = vec_at (sa fm) other_row) as ->.
    { unfold other_row. destruct (marker_row =? first_row); reflexivity. }
    replace (vec_at (sa fm) marker_row <=? vec_at (sa fm) other_row) with false
      by (symmetry; apply Z.leb_gt; exact Hend).
    reflexivity. }
  unfold process_boundary_marker. rewrite Hinfo.
  cbn [is_start_boundary negb].
  unfold entering_site_search_states.
  cbn [marker_char boundary_sa_interval].
  unfold get_allele_search_states, get_site_search_state, get_number_of_alleles.
  cbn [marker_char boundary_sa_interval].
  fold alo ahi. clearbody alo ahi.
  rewrite (fold_left_snoc_map
             (fun j => {| sa_interval := (j, j);
                          variant_site_path :=
                            (m, get_allele_id j p) :: variant_site_path s;
                          variant_site_state := within_variant_site;
                          invalid := invalid s |})).
  rewrite app_nil_l. f_equal. f_equal. f_equal. f_equal. f_equal.
  rewrite sa_range_length by lia.
  destruct (Z.eq_dec alo (ahi + 1)) as [Heq|Hne].
  - replace (ahi - alo) with (0 - 1) by lia.
    change (wrap64 (0 - 1)) with UINT64_MAX.
    change (wrap64 (UINT64_MAX + 1)) with 0. change (wrap64 (0 + 1)) with 1. lia.
  - rewrite (wrap64_small (ahi - alo)) by lia.
    rewrite (wrap64_small (ahi - alo + 1)) by lia.
    rewrite wrap64_small by lia. lia.
Qed.

Lemma entering_site_states_per_interval_row_witness :
  process_markers_search_state
    (search_state_at 1 1 [] outside_variant_site) prg_two_sites
  = [ search_state_at 14 14 [(5, 1)] within_variant_site;
      search_state_at 15 15 [(5, 2)] within_variant_site;
      search_state_at 12 12 [(5, 3)] within_variant_site ].
Proof.
  pose proof (entering_site_states_per_interval_row prg_two_sites
                (search_state_at 1 1 [] outside_variant_site) 1 5) as H.
  cbv zeta in H. feed H.
  vm_compute in H. vm_compute. exact H.
Defined.

(** X21.  For a state whose interval lies within the rows 0 to [2^31 - 1]:
    a row [i] of the interval whose BWT symbol is an even allele marker [m]
    gives exactly one state.  Its interval is the single row of site marker
    [m - 1] with the smaller suffix-array value, its site state is
    [outside_variant_site], and the locus [(m - 1, allele_mask[SA[i]])] is
    prepended exactly when the path of the state is empty and the state is
    not marked [within_variant_site]. *)
Theorem allele_marker_exit_state (p : PRG_Info) (s : SearchState) (i m : Z) :
  let fm := fm_index p in
  let site := m - 1 in
  let first_row := vec_at (C fm) (vec_at (char2comp fm) site) in
  let second_row := first_row + 1 in
  0 <= fst (sa_interval s) ->
  snd (sa_interval s) < 2 ^ 31 ->
  fst (sa_interval s) <= i <= snd (sa_interval s) ->
  bit_at (bwt_markers_mask p) i = true ->
  vec_at (bwt fm) i = m ->
  m mod 2 = 0 ->
  1 <= m <= UINT64_MAX ->
  0 <= first_row < UINT64_MAX ->
  exists st start_row,
    process_markers_search_state s p =
      process_markers_search_state (set_sa_interval s (fst (sa_interval s), i - 1)) p
      ++ [st]
      ++ process_markers_search_state
           (set_sa_interval s (i + 1, snd (sa_interval s))) p
    /\ sa_interval st = (start_row, start_row)
    /\ (start_row = first_row \/ start_row = second_row)
    /\ vec_at (sa fm) start_row
       = Z.min (vec_at (sa fm) first_row) (vec_at (sa fm) second_row)
    /\ variant_site_state st = outside_variant_site
    /\ (variant_site_path s = [] /\ variant_site_state s <> within_variant_site ->
        variant_site_path st
        = (site, vec_at (allele_mask p) (vec_at (sa fm) i)) :: variant_site_path s)
    /\ (variant_site_path s <> [] \/ variant_site_state s = within_variant_site ->
        variant_site_path st = variant_site_path s)
    /\ invalid st = invalid s.
Proof.
  intros fm site first_row second_row Hlo Hhi Hi Hbit Hbwt Heven Hm Hf.
  exists (process_allele_marker m i s p).
  exists (if vec_at (sa fm) first_row <? vec_at (sa fm) second_row
          then first_row else second_row).
  split.
  { rewrite (process_markers_search_state_split s p i Hlo Hhi Hi).
    f_equal. f_equal.
    unfold marker_row_states. rewrite Hbit. fold fm. rewrite Hbwt.
    replace (m mod 2 =? 1) with false by (symmetry; apply Z.eqb_neq; lia).
    reflexivity. }
  unfold process_allele_marker. fold fm.
  rewrite (wrap64_small (m - 1)) by lia. fold site. fold first_row.
  rewrite (wrap64_small (first_row + 1)) by lia. fold second_row.
  cbn [sa_interval variant_site_state variant_site_path invalid].
  repeat split.
  - destruct (_ <? _); auto.
  - destruct (Z.ltb_spec (vec_at (sa fm) first_row) (vec_at (sa fm) second_row)); lia.
  - intros [Hpath Hstate]. rewrite Hpath.
    destruct (variant_site_state s); simpl; try reflexivity.
    exfalso. apply Hstate. reflexivity.
  - intros [Hpath | Hstate].
    + destruct (variant_site_path s); [congruence|].
      destruct (negb _); reflexivity.
    + rewrite Hstate. reflexivity.
Qed.

Lemma allele_marker_exit_state_witness :
  exists st,
    process_markers_search_state
      (search_state_at 4 4 [] outside_variant_site) prg_one_site = [st]
    /\ sa_interval st = (6, 6)
    /\ variant_site_state st = outside_variant_site
    /\ variant_site_path st = [(5, 2)].
Proof.
  pose proof (allele_marker_exit_state prg_one_site
                (search_state_at 4 4 [] outside_variant_site) 4 6) as H.
  cbv zeta in H. feed H.
  destruct H as (st & row & Heq & Hiv & Hrow & Hmin & Hst & Hpre & _ & _).
  exists st. split; [exact Heq|].
  assert (row = 6) as ->.
  { destruct Hrow as [-> | ->]; [vm_compute in Hmin; discriminate | reflexivity]. }
  split; [exact Hiv|]. split; [exact Hst|].
  apply Hpre. split; [reflexivity | discriminate].
Defined.

(** X22.  The states that the search builds are never marked
    [within_variant_site] with an empty path: extension by a base and
    finalisation keep this for the states they are given, and every state
    that marker processing adds has it. *)
Theorem within_state_has_path (p : PRG_Info) :
  (forall s, Forall within_on_path (process_markers_search_state s p))
  /\ (forall c ss, Forall within_on_path ss ->
                   Forall within_on_path (process_read_char_search_states c ss p))
  /\ (forall ss, Forall within_on_path ss ->
                 Forall within_on_path (handle_allele_encapsulated_states ss p)).
Proof.
  assert (forall s, Forall within_on_path (process_markers_search_state s p))
    as Hmarkers.
  { intros s. unfold process_markers_search_state.
    assert (forall markers acc,
              Forall within_on_path acc ->
              Forall within_on_path (fold_left (process_marker s p) markers acc))
      as Hfold.
    { induction markers as [|marker markers IH]; intros acc Hacc; [exact Hacc|].
      cbn [fold_left]. apply IH. unfold process_marker.
      destruct (snd marker mod 2 =? 1).
      - apply Forall_app. split; [exact Hacc|].
        unfold process_boundary_marker.
        destruct (negb _).
        + unfold entering_site_search_states, get_allele_search_states.
          rewrite (fold_left_snoc_map
                     (fun j =>
                        {| sa_interval := (j, j);
                           variant_site_path :=
                             (marker_char
                                (site_boundary_marker_info (snd marker) (fst marker) p),
                              get_allele_id j p) :: variant_site_path s;
                           variant_site_state := within_variant_site;
                           invalid := invalid s |})).
          apply Forall_app. split.
          * apply Forall_app. split; [constructor|].
            apply List.Forall_forall. intros st Hin.
            apply in_map_iff in Hin as (j & <- & _). intros _. discriminate.
          * constructor; [|constructor]. intros _. discriminate.
        + constructor; [|constructor]. intros Hwithin. discriminate.
      - apply Forall_app. split; [exact Hacc|].
        constructor; [|constructor]. intros Hwithin. discriminate. }
    destruct (left_markers_search s p) as [|marker markers]; [constructor|].
    apply Hfold. constructor. }
  split; [exact Hmarkers|]. split.
  - intros c ss Hss. unfold process_read_char_search_states.
    rewrite search_base_backwards_flat.
    assert (Forall within_on_path (process_markers_search_states ss p)) as Hall.
    { unfold process_markers_search_states.
      apply Forall_app. split; [exact Hss|].
      rewrite fold_left_app_flat_map. cbn [app].
      apply List.Forall_forall. intros st Hin.
      apply in_flat_map in Hin as (s & _ & Hin).
      exact (proj1 (List.Forall_forall _ _) (Hmarkers s) st Hin). }
    induction Hall as [|s rest Hs _ IH]; cbn [flat_map]; [constructor|].
    apply Forall_app. split; [|exact IH].
    unfold search_fm_index_base_backwards.
    destruct (negb (negb _)); cbn [invalid set_invalid set_sa_interval];
      [constructor|].
    destruct (invalid s); [constructor|].
    constructor; [exact Hs | constructor].
  - intros ss Hss. rewrite handle_allele_encapsulated_states_flat.
    induction Hss as [|s rest Hs _ IH]; cbn [flat_map]; [constructor|].
    apply Forall_app. split; [|exact IH].
    destruct (variant_site_path s) eqn:Hpath; [|constructor; [exact Hs | constructor]].
    destruct (Z_le_gt_dec (fst (sa_interval s)) (snd (sa_interval s) + 1))
      as [Hle | Hgt].
    + destruct (handle_allele_encapsulated_state_split p s Hle) as (_ & Hgood & _).
      eapply Forall_impl; [exact Hgood|].
      intros st [(_ & _ & Hout & _) | (m & a & _ & Hrun & _)] Hwithin.
      * rewrite Hout in Hwithin. discriminate.
      * rewrite Hrun. discriminate.
    + unfold handle_allele_encapsulated_state, sa_range.
      replace (Z.to_nat (snd (sa_interval s) - fst (sa_interval s) + 1)) with O by lia.
      constructor.
Qed.
Lemma fm_rank_ok_spec (p : PRG_Info) (r : Z) :
  fm_rank_ok p r = true ->
  let fm := fm_index p in
  vec_at (char2comp fm) (vec_at (comp2char fm) r) = r
  /\ 0 <= vec_at (C fm) r < vec_at (C fm) (r + 1)
  /\ vec_at (C fm) (r + 1) <= fm_size fm
  /\ (r + 1 = sigma fm \/ vec_at (comp2char fm) r < vec_at (comp2char fm) (r + 1))
  /\ forall row, 0 <= row < fm_size fm ->
                 (vec_at (C fm) r <= row < vec_at (C fm) (r + 1)
                  <-> first_symbol p row = vec_at (comp2char fm) r).
Proof.
  intros H fm. unfold fm_rank_ok in H. fold fm in H.
  apply andb_prop in H as [H Hrows]. apply andb_prop in H as [H Hnext].
  apply andb_prop in H as [H Hsize]. apply andb_prop in H as [H Hbucket].
  apply andb_prop in H as [Hrank Hfirst].
  apply Z.eqb_eq in Hrank. apply Z.leb_le in Hfirst, Hsize.
  apply Z.ltb_lt in Hbucket.
  split; [exact Hrank|]. split; [lia|]. split; [exact Hsize|]. split.
  - apply orb_prop in Hnext as [Hlast|Hless]; [left | right].
    + apply Z.eqb_eq. exact Hlast.
    + apply Z.ltb_lt. exact Hless.
  - intros row Hrow.
    pose proof (proj1 (List.forallb_forall _ _) Hrows row) as Hat.
    specialize (Hat ltac:(apply in_sa_range; lia)).
    apply Bool.eqb_prop in Hat.
    destruct (Z.eqb_spec (first_symbol p row) (vec_at (comp2char fm) r)) as [Heq|Hne].
    + apply andb_prop in Hat as [Hlo Hhi].
      apply Z.leb_le in Hlo. apply Z.ltb_lt in Hhi. split; [intros _; exact Heq | lia].
    + split; [|contradiction]. intros [Hlo Hhi].
      apply Z.leb_le in Hlo. apply Z.ltb_lt in Hhi.
      rewrite Hlo, Hhi in Hat. discriminate.
Qed.

Lemma fm_index_sorted_rank (p : PRG_Info) (r : Z) :
  fm_index_sorted p = true ->
  0 <= r < sigma (fm_index p) ->
  fm_rank_ok p r = true.
Proof.
  unfold fm_index_sorted. intros H Hr. apply andb_prop in H as [H _].
  apply (proj1 (List.forallb_forall _ _) H). apply in_sa_range. lia.
Qed.

Lemma comp2char_increasing (p : PRG_Info) (a : Z) (d : nat) :
  fm_index_sorted p = true ->
  0 <= a ->
  a + Z.of_nat (S d) < sigma (fm_index p) ->
  vec_at (comp2char (fm_index p)) a
  < vec_at (comp2char (fm_index p)) (a + Z.of_nat (S d)).
Proof.
  intros Hsorted Ha. induction d as [|d IH]; intros Hb.
  - destruct (fm_rank_ok_spec p a (fm_index_sorted_rank p a Hsorted ltac:(lia)))
      as (_ & _ & _ & [Hlast|Hless] & _); [lia|].
    replace (a + Z.of_nat 1) with (a + 1) by lia. exact Hless.
  - specialize (IH ltac:(lia)).
    destruct (fm_rank_ok_spec p (a + Z.of_nat (S d))
                (fm_index_sorted_rank p (a + Z.of_nat (S d)) Hsorted ltac:(lia)))
      as (_ & _ & _ & [Hlast|Hless] & _); [lia|].
    replace (a + Z.of_nat (S (S d))) with (a + Z.of_nat (S d) + 1) by lia.
    eapply Z.lt_trans; [exact IH | exact Hless].
Qed.

Lemma filter_sa_range_none (P : Z -> Prop) `{forall x, Decision (P x)} (lo hi : Z) :
  (forall j, lo <= j <= hi -> ~ P j) -> filter P (sa_range lo hi) = [].
Proof.
  intros Hnone.
  assert (forall l, (forall j, In j l -> ~ P j) -> filter P l = []) as Hgen.
  { induction l as [|x l IH]; intros Hl; [reflexivity|].
    rewrite filter_cons_False by (apply Hl; left; reflexivity).
    apply IH. intros j Hj. apply Hl. right. exact Hj. }
  apply Hgen. intros j Hj. apply Hnone. apply in_sa_range. exact Hj.
Qed.

Lemma filter_sa_range_all (P : Z -> Prop) `{forall x, Decision (P x)} (lo hi : Z) :
  (forall j, lo <= j <= hi -> P j) -> filter P (sa_range lo hi) = sa_range lo hi.
Proof.
  intros Hall.
  assert (forall l, (forall j, In j l -> P j) -> filter P l = l) as Hgen.
  { induction l as [|x l IH]; intros Hl; [reflexivity|].
    rewrite filter_cons_True by (apply Hl; left; reflexivity).
    f_equal. apply IH. intros j Hj. apply Hl. right. exact Hj. }
  apply Hgen. intros j Hj. apply Hall. apply in_sa_range. exact Hj.
Qed.

Lemma sa_range_app (lo mid hi : Z) :
  lo <= mid + 1 -> mid <= hi ->
  sa_range lo hi = sa_range lo mid ++ sa_range (mid + 1) hi.
Proof.
  intros Hlo Hhi.
  destruct (Z.eq_dec mid hi) as [->|Hne].
  - rewrite (sa_range_empty (hi + 1) hi) by lia. rewrite app_nil_r. reflexivity.
  - rewrite (sa_range_split lo hi (mid + 1)) by lia.
    replace (mid + 1 - 1) with mid by lia.
    rewrite (sa_range_cons (mid + 1) hi) by lia. reflexivity.
Qed.

Lemma filter_sa_range_interval (P : Z -> Prop) `{forall x, Decision (P x)}
    (lo hi a b : Z) :
  lo <= a -> b <= hi -> a <= b + 1 ->
  (forall j, lo <= j <= hi -> (P j <-> a <= j <= b)) ->
  filter P (sa_range lo hi) = sa_range a b.
Proof.
  intros Hlo Hhi Hab Hiff.
  rewrite (sa_range_app lo (a - 1) hi) by lia.
  replace (a - 1 + 1) with a by lia.
  rewrite (sa_range_app a b hi) by lia.
  rewrite !filter_app.
  rewrite filter_sa_range_none by (intros j Hj HP; apply Hiff in HP; lia).
  rewrite filter_sa_range_all by (intros j Hj; apply Hiff; lia).
  rewrite filter_sa_range_none by (intros j Hj HP; apply Hiff in HP; lia).
  rewrite app_nil_r. reflexivity.
Qed.

(** X23.  On an FM-index as sdsl builds it, when the allele marker [m + 1]
    is in the alphabet and either is its largest symbol, or is followed in
    it by the site marker [m + 2], which is not the largest symbol: the
    interval that [get_allele_marker_sa_interval] gives for the site marker
    [m] holds the rows whose suffixes start with [m + 1], and no other. *)
Theorem get_allele_marker_sa_interval_is_symbol_rows (p : PRG_Info) (m r : Z) :
  let fm := fm_index p in
  fm_index_sorted p = true ->
  sigma fm <= UINT64_MAX ->
  fm_size fm <= UINT64_MAX ->
  0 <= m ->
  m + 2 <= UINT64_MAX ->
  0 <= r < sigma fm ->
  vec_at (comp2char fm) r = m + 1 ->
  r + 1 = sigma fm
  \/ (r + 2 < sigma fm /\ vec_at (comp2char fm) (r + 1) = m + 2) ->
  sa_range (fst (get_allele_marker_sa_interval m p))
           (snd (get_allele_marker_sa_interval m p))
  = symbol_rows p (m + 1).
Proof.
  intros fm Hsorted Hsigma Hsize Hm Hm2 Hr Hsymbol Hnext.
  destruct (fm_rank_ok_spec p r (fm_index_sorted_rank p r Hsorted Hr))
    as (Hrank & Hfirst & Hend & _ & Hrows).
  fold fm in Hrank, Hfirst, Hend, Hrows.
  assert (get_allele_marker_sa_interval m p
          = (vec_at (C fm) r, vec_at (C fm) (r + 1) - 1)) as ->.
  { unfold get_allele_marker_sa_interval. fold fm.
    rewrite (wrap64_small (m + 1)) by lia.
    rewrite (wrap64_small (m + 1 + 1)) by lia.
    rewrite (wrap64_small (sigma fm - 1)) by lia.
    rewrite <- Hsymbol at 1. rewrite Hrank.
    destruct Hnext as [Hlast | [Hmore Hsite]].
    - replace (sigma fm - 1) with r by lia. rewrite Hsymbol.
      destruct (Z.ltb_spec (m + 1 + 1) (m + 1)); [lia|].
      assert (vec_at (C fm) (sigma fm) = fm_size fm) as HC.
      { unfold fm_index_sorted in Hsorted. fold fm in Hsorted.
        apply andb_prop in Hsorted as [_ HC]. apply Z.eqb_eq. exact HC. }
      rewrite Hlast, HC. rewrite wrap64_small by lia. reflexivity.
    - pose proof (comp2char_increasing p (r + 1)
                    (Z.to_nat (sigma fm - 1 - (r + 1) - 1)) Hsorted ltac:(lia))
        as Hless.
      fold fm in Hless.
      replace (r + 1 + Z.of_nat (S (Z.to_nat (sigma fm - 1 - (r + 1) - 1))))
        with (sigma fm - 1) in Hless by lia.
      specialize (Hless ltac:(lia)). rewrite Hsite in Hless.
      destruct (Z.ltb_spec (m + 1 + 1) (vec_at (comp2char fm) (sigma fm - 1)));
        [|lia].
      assert (0 <= r + 1 < sigma (fm_index p)) as Hr1 by (fold fm; lia).
      destruct (fm_rank_ok_spec p (r + 1)
                  (fm_index_sorted_rank p (r + 1) Hsorted Hr1))
        as (Hrank' & _).
      fold fm in Hrank'. rewrite Hsite in Hrank'.
      replace (m + 1 + 1) with (m + 2) by lia. rewrite Hrank'.
      rewrite wrap64_small by lia. reflexivity. }
  cbn [fst snd]. unfold symbol_rows. symmetry. subst fm.
  apply filter_sa_range_interval; [lia | lia | lia |].
  intros j Hj. rewrite <- Hsymbol.
  rewrite <- (Hrows j ltac:(lia)). lia.
Qed.

Lemma get_allele_marker_sa_interval_is_symbol_rows_witness :
  sa_range (fst (get_allele_marker_sa_interval 5 prg_two_sites))
           (snd (get_allele_marker_sa_interval 5 prg_two_sites))
  = symbol_rows prg_two_sites (5 + 1).
Proof.
  apply (get_allele_marker_sa_interval_is_symbol_rows prg_two_sites 5 6).
  - vm_compute. reflexivity.
  - vm_compute. discriminate.
  - vm_compute. discriminate.
  - lia.
  - vm_compute. discriminate.
  - vm_compute. split; [discriminate | reflexivity].
  - reflexivity.
  - right. split; [vm_compute; reflexivity | reflexivity].
Defined.
